(** * Platskarta: history engine, collision dispatcher and element addressing

    A shallow embedding of four parts of the editor:
    - [MapLayoutHistory] (the undo/redo log acting on [mapLayout.cells]),
    - [CollisionManager] (pointer events against rectangular regions),
    - the address functions of [EditMenu] ([parseRef], [getInputByRef],
      [getNextInputRef]),
    - the commands of [EditMenu] that act on the grid ([deleteCells],
      [generateSeatLabels], [applyToMap]), with
      [isPropertyCommonToAllCells] and the wheel handler.

    Conventions of the embedding:
    - JavaScript objects are mutable and shared by reference.  The history
      engine keeps cell objects both in the grid and in its log, so cell
      objects live in an explicit store and the slots of the grid hold
      references into it; a reference never points past the end of the
      store.
    - A call returns the new state together with the way it ended
      (returned, or threw); what [console.error] printed is part of the
      state.
    - Numbers used as array indices are [nat]; pixel coordinates and the
      numbers read from addresses are [Z].
    - The arrays of indices given to the batched operations are values:
      the caller does not change them after the call.
    - Listeners of the dispatcher are recorded as invocations; they do not
      call back into the dispatcher while an event is dispatched. *)

From stdpp Require Import base list strings pretty.
From Stdlib Require Import ZArith Lia Ascii.

#[global] Set Warnings "-register-all".

Local Open Scope string_scope.
Local Open Scope list_scope.
Local Open Scope nat_scope.

(** ** Data model (types.ts) *)

Inductive CellType := seat | aisle | wall | door | custom.

Definition CellType_str (t : CellType) : string :=
  match t with
  | seat => "seat" | aisle => "aisle" | wall => "wall"
  | door => "door" | custom => "custom"
  end.

Record CellStyleOverridePure := {
  backgroundColor : option string;
  borderColor : option string;
  borderWidth : option Z;
  borderTop : option bool;
  borderBottom : option bool;
  borderLeft : option bool;
  borderRight : option bool;
  text : option string;
  textFont : option string;
  textWeight : option string;
  textSize : option Z;
  textColor : option string;
  textOpacity : option Z;
  textTranslateX : option Z;
  textTranslateY : option Z;
  textStrokeColor : option string;
  textStrokeLineWidth : option Z;
  textRotationDegrees : option Z;
  opacity : option Z
}.

Record CellStyleOverride := {
  ownStyle : CellStyleOverridePure;
  hoverOverride : option CellStyleOverridePure;
  selectedOverride : option CellStyleOverridePure
}.

(** The values that [cell[attribute] = ...] stores at run time: a string
    (a name, or a cell type such as ["seat"]), a style object, [undefined],
    or the [null] that a JSON round trip puts in place of an [undefined]
    array element.  Style objects are never mutated by the history engine,
    so they are kept as values. *)
Inductive attributeContent :=
| AUndefined
| ANull
| AString (s : string)
| AStyle (o : CellStyleOverride).

(** [keyof PureCell] *)
Inductive PureCellKey := Kname | Ktype | KstyleOverride.

(** A [PureCell] object; an absent property reads as [undefined]. *)
Record PureCell := {
  name : attributeContent;
  type : attributeContent;
  styleOverride : attributeContent
}.

Definition get_attribute (c : PureCell) (k : PureCellKey) : attributeContent :=
  match k with
  | Kname => name c
  | Ktype => type c
  | KstyleOverride => styleOverride c
  end.

(** [cell[attribute] = v] on the object itself *)
Definition set_attribute (c : PureCell) (k : PureCellKey) (v : attributeContent) : PureCell :=
  match k with
  | Kname => {| name := v; type := type c; styleOverride := styleOverride c |}
  | Ktype => {| name := name c; type := v; styleOverride := styleOverride c |}
  | KstyleOverride => {| name := name c; type := type c; styleOverride := v |}
  end.

Definition mkCell (t : CellType) : PureCell :=
  {| name := AUndefined; type := AString (CellType_str t); styleOverride := AUndefined |}.

Definition namedCell (t : CellType) (n : string) : PureCell :=
  {| name := AString n; type := AString (CellType_str t); styleOverride := AUndefined |}.

#[global] Instance PureCell_inhabited : Inhabited PureCell := populate (mkCell seat).

(** ** The object store *)

(** Objects are named by their position in the store. *)
Abbreviation loc := nat (only parsing).

(** What a slot of type [Cell] (or an argument of that type) holds at run
    time: [undefined] (a hole, an index out of range, a missing array
    element), [null] (the empty cell) or a reference to a cell object. *)
Inductive CellRef :=
| RUndefined
| RNull
| RObj (l : loc).

(** The content of a slot once references are followed. *)
Inductive CellV :=
| VUndefined
| VNull
| VObj (c : PureCell).

#[global] Instance CellStyleOverridePure_eq_dec : EqDecision CellStyleOverridePure.
Proof. solve_decision. Defined.
#[global] Instance CellStyleOverride_eq_dec : EqDecision CellStyleOverride.
Proof. solve_decision. Defined.
#[global] Instance attributeContent_eq_dec : EqDecision attributeContent.
Proof. solve_decision. Defined.
#[global] Instance PureCellKey_eq_dec : EqDecision PureCellKey.
Proof. solve_decision. Defined.
#[global] Instance PureCell_eq_dec : EqDecision PureCell.
Proof. solve_decision. Defined.
#[global] Instance CellRef_eq_dec : EqDecision CellRef.
Proof. solve_decision. Defined.
#[global] Instance CellV_eq_dec : EqDecision CellV.
Proof. solve_decision. Defined.

Abbreviation Heap := (list PureCell) (only parsing).

Definition deref (h : Heap) (r : CellRef) : CellV :=
  match r with
  | RUndefined => VUndefined
  | RNull => VNull
  | RObj l => VObj (h !!! l)
  end.

(** A new object is placed after the allocated ones. *)
Definition alloc (h : Heap) (c : PureCell) : Heap * loc := (h ++ [c], length h).

(** [obj[attribute] = v] through a reference *)
Definition heap_set (h : Heap) (l : loc) (k : PureCellKey) (v : attributeContent) : Heap :=
  alter (λ c, set_attribute c k v) l h.

(** Array element access as JavaScript does it: reading past the end
    gives [undefined], writing past the end extends the array with holes. *)
Definition arr_get (a : list CellRef) (k : nat) : CellRef := default RUndefined (a !! k).

Definition arr_set (a : list CellRef) (k : nat) (v : CellRef) : list CellRef :=
  if decide (k < length a) then <[k:=v]> a
  else a ++ replicate (k - length a) RUndefined ++ [v].

Definition attr_get (a : list attributeContent) (k : nat) : attributeContent :=
  default AUndefined (a !! k).

(** ** The history engine (MapLayoutHistory) *)

Module MapLayoutHistory.

(** A log entry.  For the two swap variants [was] and [became] are cell
    objects of the log's own (made by [deepClone]), held by reference. *)
Inductive MapLayoutHistoryEntry :=
| changeAttributeE (index : nat) (attribute : PureCellKey) (was became : attributeContent)
| changeAttributesE (index : list nat) (attribute : PureCellKey)
    (was became : list attributeContent)
| swappedCellE (index : nat) (was became : CellRef)
| swappedCellsE (index : list nat) (was became : list CellRef).

(** The instance: the store, [mapLayout.cells], the private fields
    [history] and [i], and what was written with [console.error]. *)
Record t := mk {
  heap : Heap;
  cells : list CellRef;
  history : list MapLayoutHistoryEntry;
  i : nat;
  console : list string
}.

(** How a call ends. *)
Inductive Completion :=
| Return
| ReturnFalse
| ThrowTypeError
| ThrowSyntaxError.

Definition set_heap (s : t) (h : Heap) : t :=
  mk h (cells s) (history s) (i s) (console s).
Definition set_cells (s : t) (c : list CellRef) : t :=
  mk (heap s) c (history s) (i s) (console s).
Definition set_history (s : t) (hs : list MapLayoutHistoryEntry) : t :=
  mk (heap s) (cells s) hs (i s) (console s).
Definition set_i (s : t) (n : nat) : t :=
  mk (heap s) (cells s) (history s) n (console s).
Definition console_error (s : t) (msg : string) : t :=
  mk (heap s) (cells s) (history s) (i s) (console s ++ [msg]).

(** [new MapLayoutHistory(mapLayout)] *)
Definition create (h : Heap) (c : list CellRef) : t := mk h c [] 0 [].

(** What the grid shows: every slot with its reference followed. *)
Definition view (s : t) : list CellV := deref (heap s) <$> cells s.

(** *** deepClone: [JSON.parse(JSON.stringify(obj))]

    [JSON.stringify(undefined)] is [undefined], which [JSON.parse] rejects
    with a SyntaxError; inside an array [undefined] is written as [null].
    An object is copied into a new object. *)

Definition deepClone_cell (h : Heap) (r : CellRef) : option (Heap * CellRef) :=
  match r with
  | RUndefined => None
  | RNull => Some (h, RNull)
  | RObj l => let '(h', l') := alloc h (h !!! l) in Some (h', RObj l')
  end.

Fixpoint deepClone_cells (h : Heap) (rs : list CellRef) : Heap * list CellRef :=
  match rs with
  | [] => (h, [])
  | r :: rs' =>
      let '(h1, r1) :=
        match r with
        | RObj l => let '(h', l') := alloc h (h !!! l) in (h', RObj l')
        | _ => (h, RNull)
        end in
      let '(h2, rs2) := deepClone_cells h1 rs' in
      (h2, r1 :: rs2)
  end.

Definition deepClone_attr (a : attributeContent) : option attributeContent :=
  match a with
  | AUndefined => None
  | _ => Some a
  end.

Definition deepClone_attrs (l : list attributeContent) : list attributeContent :=
  (λ a, match a with AUndefined => ANull | _ => a end) <$> l.

(** *** addHistoryEntry *)

Definition addHistoryEntry (entry : MapLayoutHistoryEntry) (s : t) : t * Completion :=
  let s :=
    if decide (i s + 1 < length (history s))
    then set_history s (take (i s + 1) (history s))
    else s in
  let push (s : t) (e : MapLayoutHistoryEntry) : t * Completion :=
    let s := set_history s (history s ++ [e]) in
    (set_i s (length (history s)), Return) in
  match entry with
  | changeAttributeE index attribute was became =>
      match deepClone_attr was with
      | None => (s, ThrowSyntaxError)
      | Some was' =>
          match deepClone_attr became with
          | None => (s, ThrowSyntaxError)
          | Some became' => push s (changeAttributeE index attribute was' became')
          end
      end
  | changeAttributesE index attribute was became =>
      push s (changeAttributesE index attribute (deepClone_attrs was) (deepClone_attrs became))
  | swappedCellE index was became =>
      match deepClone_cell (heap s) was with
      | None => (s, ThrowSyntaxError)
      | Some (h1, was') =>
          match deepClone_cell h1 became with
          | None => (set_heap s h1, ThrowSyntaxError)
          | Some (h2, became') => push (set_heap s h2) (swappedCellE index was' became')
          end
      end
  | swappedCellsE index was became =>
      let '(h1, was') := deepClone_cells (heap s) was in
      let '(h2, became') := deepClone_cells h1 became in
      push (set_heap s h2) (swappedCellsE index was' became')
  end.

(** *** undo *)

(** The loop of the [changeAttributes] branch, at position [k] with [n]
    positions left.  It stops silently at a [null] cell, with a message at
    a missing one; an [undefined] old value is reported and still written. *)
Fixpoint undo_changeAttributes (index : list nat) (attribute : PureCellKey)
    (was : list attributeContent) (k n : nat) (s : t) : t :=
  match n with
  | 0 => s
  | S n' =>
      match index !! k with
      | None => s
      | Some cellIndex =>
          match arr_get (cells s) cellIndex with
          | RNull => s
          | RUndefined =>
              console_error s "Cannot change attribute on cell that doesn't exist"
          | RObj l =>
              let was_k := attr_get was k in
              let s := if decide (was_k = AUndefined)
                       then console_error s "Cannot change attribute with undefined was."
                       else s in
              undo_changeAttributes index attribute was (S k) n'
                (set_heap s (heap_set (heap s) l attribute was_k))
          end
      end
  end.

(** The loop of both [swappedCells] branches: [cells[index[k]] = side[k]]. *)
Fixpoint write_cells (index : list nat) (side : list CellRef) (k n : nat)
    (c : list CellRef) : list CellRef :=
  match n with
  | 0 => c
  | S n' =>
      match index !! k with
      | None => c
      | Some cellIndex =>
          write_cells index side (S k) n' (arr_set c cellIndex (arr_get side k))
      end
  end.

Definition undo (s : t) : t * Completion :=
  if decide (length (history s) = 0) then (s, ReturnFalse)
  else
    let s := if decide (i s ≠ 0) then set_i s (i s - 1) else s in
    match history s !! i s with
    | None =>
        (console_error s "Cannot undo when no history entry is present for desired step.",
         Return)
    | Some (swappedCellE index was _) =>
        (set_cells s (arr_set (cells s) index was), Return)
    | Some (changeAttributeE index attribute was _) =>
        match arr_get (cells s) index with
        | RObj l => (set_heap s (heap_set (heap s) l attribute was), Return)
        | _ => (console_error s "Cannot change attribute on cell that doesn't exist", Return)
        end
    | Some (changeAttributesE index attribute was _) =>
        (undo_changeAttributes index attribute was 0 (length index) s, Return)
    | Some (swappedCellsE index was _) =>
        (set_cells s (write_cells index was 0 (length index) (cells s)), Return)
    end.

(** *** redo *)

Inductive LoopExit := Completed | EarlyReturn | Thrown.

(** The loop of the [changeAttributes] branch of [redo]: a [null] cell
    makes [redo] return at once, a missing one makes the assignment throw. *)
Fixpoint redo_changeAttributes (index : list nat) (attribute : PureCellKey)
    (became : list attributeContent) (k n : nat) (s : t) : t * LoopExit :=
  match n with
  | 0 => (s, Completed)
  | S n' =>
      match index !! k with
      | None => (s, Thrown)
      | Some cellIndex =>
          match arr_get (cells s) cellIndex with
          | RNull => (s, EarlyReturn)
          | RUndefined => (s, Thrown)
          | RObj l =>
              redo_changeAttributes index attribute became (S k) n'
                (set_heap s (heap_set (heap s) l attribute (attr_get became k)))
          end
      end
  end.

Definition redo (s : t) : t * Completion :=
  if decide (length (history s) = 0) then (s, Return)
  else
    match history s !! i s with
    | None =>
        (console_error s "Cannot redo when no history entry is present for desired step.",
         Return)
    | Some (swappedCellE index _ became) =>
        (set_i (set_cells s (arr_set (cells s) index became)) (i s + 1), Return)
    | Some (changeAttributeE index attribute _ became) =>
        match arr_get (cells s) index with
        | RNull => (s, Return)
        | RUndefined => (s, ThrowTypeError)
        | RObj l => (set_i (set_heap s (heap_set (heap s) l attribute became)) (i s + 1), Return)
        end
    | Some (changeAttributesE index attribute _ became) =>
        match redo_changeAttributes index attribute became 0 (length index) s with
        | (s', Completed) => (set_i s' (i s' + 1), Return)
        | (s', EarlyReturn) => (s', Return)
        | (s', Thrown) => (s', ThrowTypeError)
        end
    | Some (swappedCellsE index _ became) =>
        (set_i (set_cells s (write_cells index became 0 (length index) (cells s))) (i s + 1),
         Return)
    end.

(** *** The four commit operations *)

Definition swapCell (index : nat) (from to : CellRef) (s : t) : t * Completion :=
  addHistoryEntry (swappedCellE index from to)
    (set_cells s (arr_set (cells s) index to)).

(** The loop of [swapCells]: [cells[index[k]] = deepClone(to[k])]. *)
Fixpoint swapCells_loop (index : list nat) (to : list CellRef) (k n : nat)
    (s : t) : t * LoopExit :=
  match n with
  | 0 => (s, Completed)
  | S n' =>
      match index !! k with
      | None => (s, Thrown)
      | Some cellIndex =>
          match deepClone_cell (heap s) (arr_get to k) with
          | None => (s, Thrown)
          | Some (h', r') =>
              swapCells_loop index to (S k) n'
                (set_cells (set_heap s h') (arr_set (cells s) cellIndex r'))
          end
      end
  end.

Definition swapCells (index : list nat) (from to : list CellRef) (s : t) : t * Completion :=
  match swapCells_loop index to 0 (length index) s with
  | (s', Completed) => addHistoryEntry (swappedCellsE index from to) s'
  | (s', _) => (s', ThrowSyntaxError)
  end.

(** [this.mapLayout.cells[index][attribute] = to] throws a TypeError when
    the slot holds [null] or [undefined]. *)
Definition changeAttribute (index : nat) (attribute : PureCellKey)
    (from to : attributeContent) (s : t) : t * Completion :=
  match arr_get (cells s) index with
  | RObj l =>
      addHistoryEntry (changeAttributeE index attribute from to)
        (set_heap s (heap_set (heap s) l attribute to))
  | _ => (s, ThrowTypeError)
  end.

Fixpoint changeAttributes_loop (index : list nat) (attribute : PureCellKey)
    (to : list attributeContent) (k n : nat) (s : t) : t * LoopExit :=
  match n with
  | 0 => (s, Completed)
  | S n' =>
      match index !! k with
      | None => (s, Thrown)
      | Some cellIndex =>
          match arr_get (cells s) cellIndex with
          | RObj l =>
              changeAttributes_loop index attribute to (S k) n'
                (set_heap s (heap_set (heap s) l attribute (attr_get to k)))
          | _ => (s, Thrown)
          end
      end
  end.

Definition changeAttributes (index : list nat) (attribute : PureCellKey)
    (from to : list attributeContent) (s : t) : t * Completion :=
  match changeAttributes_loop index attribute to 0 (length index) s with
  | (s', Completed) => addHistoryEntry (changeAttributesE index attribute from to) s'
  | (s', _) => (s', ThrowTypeError)
  end.

(** *** Sequences of calls *)

Inductive Call :=
| Undo
| Redo
| SwapCell (index : nat) (from to : CellRef)
| SwapCells (index : list nat) (from to : list CellRef)
| ChangeAttribute (index : nat) (attribute : PureCellKey) (from to : attributeContent)
| ChangeAttributes (index : list nat) (attribute : PureCellKey)
    (from to : list attributeContent).

Definition call (c : Call) (s : t) : t * Completion :=
  match c with
  | Undo => undo s
  | Redo => redo s
  | SwapCell index from to => swapCell index from to s
  | SwapCells index from to => swapCells index from to s
  | ChangeAttribute index attribute from to => changeAttribute index attribute from to s
  | ChangeAttributes index attribute from to => changeAttributes index attribute from to s
  end.

Definition is_commit (c : Call) : bool :=
  match c with Undo | Redo => false | _ => true end.

(** The calls one after the other; a call that throws leaves the instance
    as it was at the throw, and the caller goes on with it. *)
Definition calls (cs : list Call) (s : t) : t :=
  foldl (λ s c, (call c s).1) s cs.

Definition undos (n : nat) (s : t) : t := Nat.iter n (λ s, (undo s).1) s.
Definition redos (n : nat) (s : t) : t := Nat.iter n (λ s, (redo s).1) s.

End MapLayoutHistory.

(** ** The collision dispatcher (CollisionManager) *)

Module CollisionManager.

Section WithRef.

Context {ref : Type}.

(** [event.button]; the enumeration [MouseButtons] of data.ts is a
    numeric one. *)
Definition MouseButtons := Z.

(** [MouseButtons.LEFT], declared in data.ts. *)
Variable LEFT : MouseButtons.

(** [ref | -1] *)
Inductive Reference :=
| NoRegion
| Ref (r : ref).

Record Collision := mkCollision {
  x : Z;
  y : Z;
  width : Z;
  height : Z;
  reference : Reference
}.

(** A registered callback, known by an identifier. *)
Definition Listener := nat.

Inductive EventType := click | hover | drag | dragend.

Inductive Payload :=
| CollisionArgs (collision : Collision) (buttons : list MouseButtons)
| DragArgs (diffX diffY : Z) (buttons : list MouseButtons).

(** One invocation of a listener.  Listeners are observers here: what
    they do is outside the dispatcher and they do not call back into it
    while an event is dispatched. *)
Record Invocation := mkInvocation {
  kind : EventType;
  listener : Listener;
  payload : Payload
}.

Record t := mk {
  collisions : list Collision;
  activeClickCollisions : list Collision;
  activeHoverCollisions : list Collision;
  listeners_click : list Listener;
  listeners_hover : list Listener;
  listeners_drag : list Listener;
  listeners_dragend : list Listener;
  drag_start : Z * Z;
  drag_latest : Z * Z;
  mouseButtonsDown : list MouseButtons
}.

Definition init : t := mk [] [] [] [] [] [] [] (0, 0)%Z (0, 0)%Z [].

Definition addEventListener (type : EventType) (callback : Listener) (s : t) : t :=
  match type with
  | click =>
      mk (collisions s) (activeClickCollisions s) (activeHoverCollisions s)
        (listeners_click s ++ [callback]) (listeners_hover s) (listeners_drag s)
        (listeners_dragend s) (drag_start s) (drag_latest s) (mouseButtonsDown s)
  | hover =>
      mk (collisions s) (activeClickCollisions s) (activeHoverCollisions s)
        (listeners_click s) (listeners_hover s ++ [callback]) (listeners_drag s)
        (listeners_dragend s) (drag_start s) (drag_latest s) (mouseButtonsDown s)
  | drag =>
      mk (collisions s) (activeClickCollisions s) (activeHoverCollisions s)
        (listeners_click s) (listeners_hover s) (listeners_drag s ++ [callback])
        (listeners_dragend s) (drag_start s) (drag_latest s) (mouseButtonsDown s)
  | dragend =>
      mk (collisions s) (activeClickCollisions s) (activeHoverCollisions s)
        (listeners_click s) (listeners_hover s) (listeners_drag s)
        (listeners_dragend s ++ [callback]) (drag_start s) (drag_latest s)
        (mouseButtonsDown s)
  end.

Definition registerCollisions (cs : list Collision) (s : t) : t :=
  mk cs (activeClickCollisions s) (activeHoverCollisions s)
    (listeners_click s) (listeners_hover s) (listeners_drag s) (listeners_dragend s)
    (drag_start s) (drag_latest s) (mouseButtonsDown s).

Definition includes (b : MouseButtons) (l : list MouseButtons) : bool :=
  existsb (Z.eqb b) l.

(** [splice(indexOf(b), 1)]: the first occurrence is taken out. *)
Fixpoint remove_first (b : MouseButtons) (l : list MouseButtons) : list MouseButtons :=
  match l with
  | [] => []
  | b' :: l' => if Z.eqb b' b then l' else b' :: remove_first b l'
  end.

Definition mousedown (button : MouseButtons) (offsetX offsetY : Z) (s : t) : t :=
  mk (collisions s) (activeClickCollisions s) (activeHoverCollisions s)
    (listeners_click s) (listeners_hover s) (listeners_drag s) (listeners_dragend s)
    (offsetX, offsetY) (offsetX, offsetY)
    (if includes button (mouseButtonsDown s) then mouseButtonsDown s
     else mouseButtonsDown s ++ [button]).

(** for every collision, for every listener *)
Definition notify (k : EventType) (cs : list Collision) (ls : list Listener)
    (buttons : list MouseButtons) : list Invocation :=
  c ← cs; l ← ls; [mkInvocation k l (CollisionArgs c buttons)].

Definition notify_drag (k : EventType) (ls : list Listener) (dx dy : Z)
    (buttons : list MouseButtons) : list Invocation :=
  (λ l, mkInvocation k l (DragArgs dx dy buttons)) <$> ls.

Definition mousemove (offsetX offsetY : Z) (s : t) : t * list Invocation :=
  let dragged :=
    if negb (offsetX =? (drag_latest s).1)%Z || negb (offsetY =? (drag_latest s).2)%Z
    then notify_drag drag (listeners_drag s)
           (offsetX - (drag_latest s).1) (offsetY - (drag_latest s).2) (mouseButtonsDown s)
    else [] in
  let active :=
    filter (λ collision,
              Is_true ((x collision <=? offsetX)%Z &&
                       (x collision + width collision >=? offsetX)%Z &&
                       (y collision <=? offsetY)%Z &&
                       (y collision + height collision >=? offsetY)%Z))
      (collisions s) in
  let hovered := notify hover active (listeners_hover s) (mouseButtonsDown s) in
  let left :=
    if decide (length active = 0)
    then notify hover [mkCollision (-1) (-1) 0 0 NoRegion] (listeners_hover s)
           (mouseButtonsDown s)
    else [] in
  (mk (collisions s) (activeClickCollisions s) active
     (listeners_click s) (listeners_hover s) (listeners_drag s) (listeners_dragend s)
     (drag_start s) (offsetX, offsetY) (mouseButtonsDown s),
   dragged ++ hovered ++ left).

(** The value of [activeClickCollisions] while the [mouseup] handler
    dispatches. *)
Definition mouseup_active (offsetX offsetY : Z) (s : t) : list Collision :=
  if (offsetX =? (drag_start s).1)%Z && (offsetY =? (drag_start s).2)%Z
  then filter (λ collision,
                 Is_true ((x collision <=? offsetX)%Z &&
                          (x collision + width collision >=? offsetX)%Z &&
                          (y collision <=? offsetY)%Z &&
                          (y collision + height collision >=? offsetY)%Z))
         (collisions s)
  else [].

Definition mouseup (button : MouseButtons) (offsetX offsetY : Z) (s : t)
    : t * list Invocation :=
  let active := mouseup_active offsetX offsetY s in
  let clicked := notify click active (listeners_click s) (mouseButtonsDown s) in
  let ended :=
    if decide (length active = 0)
    then notify_drag dragend (listeners_dragend s)
           (offsetX - (drag_latest s).1) (offsetY - (drag_latest s).2) (mouseButtonsDown s)
    else [] in
  (mk (collisions s) [] (activeHoverCollisions s)
     (listeners_click s) (listeners_hover s) (listeners_drag s) (listeners_dragend s)
     (drag_start s) (drag_latest s) (remove_first button (mouseButtonsDown s)),
   clicked ++ ended).

Definition leftClick (px py : Z) (s : t) : t * list Invocation :=
  let active :=
    filter (λ collision,
              Is_true ((x collision <=? px)%Z &&
                       (x collision + width collision >=? px)%Z &&
                       (y collision <=? py)%Z &&
                       (y collision + height collision >=? py)%Z))
      (collisions s) in
  (mk (collisions s) active (activeHoverCollisions s)
     (listeners_click s) (listeners_hover s) (listeners_drag s) (listeners_dragend s)
     (drag_start s) (drag_latest s) (mouseButtonsDown s),
   notify click active (listeners_click s) [LEFT]).

(** The hit test of the specification: closed intervals on both axes. *)
Definition contains (c : Collision) (px py : Z) : Prop :=
  (x c <= px <= x c + width c)%Z ∧ (y c <= py <= y c + height c)%Z.

Definition invoked (k : EventType) (l : Listener) (tr : list Invocation) : Prop :=
  ∃ p, mkInvocation k l p ∈ tr.

End WithRef.

Arguments Reference : clear implicits.
Arguments Collision : clear implicits.
Arguments Payload : clear implicits.
Arguments Invocation : clear implicits.
Arguments t : clear implicits.

End CollisionManager.

(** ** Element addressing (EditMenu) *)

Module EditMenu.

(** [EditMenuElement]; the callback of a button is not part of the model. *)
Inductive EditMenuElement :=
| inputE (label : string) (value : string)
| buttonE (label : string)
| checkboxE (label : string) (value : string)
| labelE (label : string)
| hselectE (label : string) (options : list string)
| groupE (label : string) (elements : list EditMenuElement).

Definition is_input (e : EditMenuElement) : bool :=
  match e with inputE _ _ => true | _ => false end.

(** *** The string primitives used by [parseRef]

    Strings are sequences of 8-bit characters; the addresses the editor
    builds are ASCII. *)

Definition is_digit (c : ascii) : bool :=
  (48 <=? nat_of_ascii c)%nat && (nat_of_ascii c <=? 57)%nat.

(** White space skipped by [parseInt] (the ASCII part of it). *)
Definition is_space (c : ascii) : bool :=
  let n := nat_of_ascii c in
  ((n =? 9) || (n =? 10) || (n =? 11) || (n =? 12) || (n =? 13) || (n =? 32))%nat.

Fixpoint skip_spaces (l : list ascii) : list ascii :=
  match l with
  | c :: l' => if is_space c then skip_spaces l' else l
  | [] => []
  end.

(** The value of a character as a digit in the given radix. *)
Definition digit_of (radix : Z) (c : ascii) : option Z :=
  let n := Z.of_nat (nat_of_ascii c) in
  let v := if (48 <=? n)%Z && (n <=? 57)%Z then Some (n - 48)%Z
           else if (97 <=? n)%Z && (n <=? 122)%Z then Some (n - 87)%Z
           else if (65 <=? n)%Z && (n <=? 90)%Z then Some (n - 55)%Z
           else None in
  match v with
  | Some d => if (d <? radix)%Z then Some d else None
  | None => None
  end.

(** The number written by the longest prefix of digits; [None] when
    there is no digit at all. *)
Fixpoint digits_prefix (radix : Z) (l : list ascii) (acc : option Z) : option Z :=
  match l with
  | c :: l' =>
      match digit_of radix c with
      | Some d => digits_prefix radix l' (Some (default 0 acc * radix + d)%Z)
      | None => acc
      end
  | [] => acc
  end.

(** [parseInt(s)] without a radix; [None] is [NaN].  Leading white space
    is skipped, a sign is read, [0x] selects radix 16, and whatever
    follows the digits is ignored.  The result is the exact integer. *)
Definition parseInt (s : string) : option Z :=
  let l := skip_spaces (String.list_ascii_of_string s) in
  let '(sign, l) :=
    match l with
    | "-"%char :: l' => ((-1)%Z, l')
    | "+"%char :: l' => (1%Z, l')
    | _ => (1%Z, l)
    end in
  let '(radix, l) :=
    match l with
    | "0"%char :: "x"%char :: l' => (16%Z, l')
    | "0"%char :: "X"%char :: l' => (16%Z, l')
    | _ => (10%Z, l)
    end in
  Z.mul sign <$> digits_prefix radix l None.

Fixpoint span_digits (l : list ascii) : list ascii * list ascii :=
  match l with
  | c :: l' =>
      if is_digit c then let '(d, r) := span_digits l' in (c :: d, r) else ([], l)
  | [] => ([], [])
  end.

(** [ref.match(/^(\d+)_(\d+)$/)]: the two captured groups. *)
Definition match_group_item (ref : string) : option (string * string) :=
  let '(d1, rest) := span_digits (String.list_ascii_of_string ref) in
  match d1, rest with
  | _ :: _, "_"%char :: rest' =>
      let '(d2, tail) := span_digits rest' in
      match d2, tail with
      | _ :: _, [] => Some (String.string_of_list_ascii d1, String.string_of_list_ascii d2)
      | _, _ => None
      end
  | _, _ => None
  end.

Definition endsWith (s : string) (c : ascii) : bool :=
  match last (String.list_ascii_of_string s) with
  | Some c' => Ascii.eqb c' c
  | None => false
  end.

(** [s.slice(0, -1)] *)
Definition drop_last (s : string) : string :=
  String.string_of_list_ascii (removelast (String.list_ascii_of_string s)).

Definition includes (s : string) (c : ascii) : bool :=
  existsb (Ascii.eqb c) (String.list_ascii_of_string s).

(** *** parseRef *)

Record ParsedRef := mkParsedRef {
  groupIndex : option Z;
  itemIndex : Z;
  controlSymbol : option ascii
}.

(** [None] is the [null] result. *)
Definition parseRef (ref : string) : option ParsedRef :=
  let '(controlSymbol, ref) :=
    if endsWith ref "-" || endsWith ref "+"
    then (last (String.list_ascii_of_string ref), drop_last ref)
    else (None, ref) in
  if includes ref "_" then
    match match_group_item ref with
    | None => None
    | Some (m1, m2) =>
        if String.eqb m1 "" || String.eqb m2 "" then None
        else
          match parseInt m1, parseInt m2 with
          | Some g, Some n => Some (mkParsedRef (Some g) n controlSymbol)
          | _, _ => None
          end
    end
  else
    match parseInt ref with
    | Some n => Some (mkParsedRef None n controlSymbol)
    | None => None
    end.

(** *** getInputByRef *)

Inductive Resolved :=
| ResNull
| ResUndefined
| ResElement (e : EditMenuElement).

(** [a[n]] for a number [n] that need not be an index *)
Definition at_index {A} (a : list A) (n : Z) : option A :=
  if (n <? 0)%Z then None else a !! Z.to_nat n.

Definition getInputByRef (elements : list EditMenuElement) (ref : string) : Resolved :=
  match parseRef ref with
  | None => ResNull
  | Some inputIndices =>
      match groupIndex inputIndices with
      | None =>
          match at_index elements (itemIndex inputIndices) with
          | Some e => ResElement e
          | None => ResUndefined
          end
      | Some g =>
          match at_index elements g with
          | Some (groupE _ sub) =>
              match at_index sub (itemIndex inputIndices) with
              | Some e => ResElement e
              | None => ResUndefined
              end
          | _ => ResNull
          end
      end
  end.

(** *** getNextInputRef *)

(** [elements.filter(element => element.type === "input").map((_, i) => i.toString())]:
    the index is the position in the filtered array. *)
Definition availableRefs (elements : list EditMenuElement) : list string :=
  imap (λ k _, pretty k) (filter (λ e, Is_true (is_input e)) elements).

(** The addresses of the leaves of every group, group by group. *)
Definition groupedRefs (elements : list EditMenuElement) : list (list string) :=
  omap id
    (imap (λ index element,
             match element with
             | groupE _ sub => Some (imap (λ subindex _, pretty index +:+ "_" +:+ pretty subindex) sub)
             | _ => None
             end) elements).

(** The comparison function given to [sort]. *)
Definition compareRefs (a b : string) : Z :=
  match parseRef a, parseRef b with
  | Some aIndices, Some bIndices =>
      match groupIndex aIndices, groupIndex bIndices with
      | None, None => itemIndex aIndices - itemIndex bIndices
      | None, Some gb => itemIndex aIndices - gb
      | Some ga, None => ga - itemIndex bIndices
      | Some _, Some _ => 0
      end
  | _, _ => 0
  end.

(** [Array.prototype.sort] is stable; it is modelled by insertion from
    the left.  The language fixes the result only for a comparison
    function that is a consistent ordering of the elements. *)
Fixpoint insert_ref (cmp : string → string → Z) (a : string) (l : list string) : list string :=
  match l with
  | [] => [a]
  | b :: l' => if (cmp b a >? 0)%Z then a :: b :: l' else b :: insert_ref cmp a l'
  end.

Definition sort (cmp : string → string → Z) (l : list string) : list string :=
  foldl (λ acc a, insert_ref cmp a acc) [] l.

Definition allRefs (elements : list EditMenuElement) : list string :=
  sort compareRefs (availableRefs elements ++ concat (groupedRefs elements)).

(** The final loop over [allRefs], at position [k]. *)
Fixpoint next_after (ref : string) (all rest : list string) : option string :=
  match rest with
  | [] => None
  | a :: rest' =>
      if String.eqb a ref then
        match rest' with
        | b :: _ => Some b
        | [] => head all
        end
      else next_after ref all rest'
  end.

(** [None] is the [null] result. *)
Definition getNextInputRef (elements : list EditMenuElement) (ref : string) : option string :=
  match parseRef ref with
  | None => None
  | Some _ => next_after ref (allRefs elements) (allRefs elements)
  end.

(** The order of addresses the specification asks for: the input
    elements of the top level by their position in the whole list, then
    the leaves of the groups by group and position. *)
Definition canonicalRefs (elements : list EditMenuElement) : list string :=
  omap id (imap (λ k e, if is_input e then Some (pretty k) else None) elements)
  ++ concat (groupedRefs elements).

End EditMenu.

(** ** Notions used in the statements about the history engine *)

Module HistorySpec.
Import MapLayoutHistory.

Definition is_obj (r : CellRef) : bool :=
  match r with RObj _ => true | _ => false end.

(** Every cell an attribute entry writes to holds an object; the swap
    entries need nothing. *)
Definition targets_present (c : list CellRef) (e : MapLayoutHistoryEntry) : bool :=
  match e with
  | changeAttributeE index _ _ _ => is_obj (arr_get c index)
  | changeAttributesE index _ _ _ => forallb (λ k, is_obj (arr_get c k)) index
  | swappedCellE _ _ _ | swappedCellsE _ _ _ => true
  end.

(** The log an entry is pushed onto by [addHistoryEntry]. *)
Definition kept (s : t) : list MapLayoutHistoryEntry :=
  if decide (i s + 1 < length (history s)) then take (i s + 1) (history s) else history s.

(** *** Sharing *)

(** No cell object is in two slots. *)
Definition unshared (c : list CellRef) : Prop :=
  ∀ j1 j2 l, c !! j1 = Some (RObj l) → c !! j2 = Some (RObj l) → j1 = j2.

(** A reference to an object points into the store. *)
Definition allocated (h : Heap) (r : CellRef) : Prop :=
  match r with RObj l => l < length h | _ => True end.

Definition ref_locs (rs : list CellRef) : list loc :=
  omap (λ r, match r with RObj l => Some l | _ => None end) rs.

(** The cell objects a log entry holds on its two sides. *)
Definition was_locs (e : MapLayoutHistoryEntry) : list loc :=
  match e with
  | swappedCellE _ w _ => ref_locs [w]
  | swappedCellsE _ w _ => ref_locs w
  | _ => []
  end.

Definition became_locs (e : MapLayoutHistoryEntry) : list loc :=
  match e with
  | swappedCellE _ _ b => ref_locs [b]
  | swappedCellsE _ _ b => ref_locs b
  | _ => []
  end.

(** *** Entries as writes on the grid of values *)

(** [cell[attribute] = x] seen on the content of a slot. *)
Definition vset (a : PureCellKey) (x : attributeContent) (v : CellV) : CellV :=
  match v with VObj c => VObj (set_attribute c a x) | _ => v end.

(** A write: the slot and what becomes of its content. *)
Definition Write : Type := nat * (CellV → CellV).

Definition apply_writes (ws : list Write) (v : list CellV) : list CellV :=
  foldl (λ v w, alter w.2 w.1 v) v ws.

Definition attr_write (a : PureCellKey) (w : nat * attributeContent) : Write :=
  (w.1, vset a w.2).

Definition cell_write (h : Heap) (w : nat * CellRef) : Write :=
  (w.1, λ _, deref h w.2).

(** [Q j x] says that [x] is a content slot [j] may have while writes go
    on.  A write stays within [Q]; a write resets its slot when, on every
    such content, it gives the content the slot has in [v0]. *)
Definition stays (Q : nat → CellV → Prop) (w : Write) : Prop :=
  ∀ x, Q w.1 x → Q w.1 (w.2 x).

Definition resets (Q : nat → CellV → Prop) (v0 : list CellV) (w : Write) : Prop :=
  w.1 < length v0 ∧
  ∀ x, Q w.1 x → v0 !! w.1 = Some (w.2 x).

(** The attribute loops on the store: every write goes to the object in
    its slot. *)
Definition set_attrs (c : list CellRef) (a : PureCellKey)
    (ws : list (nat * attributeContent)) (h : Heap) : Heap :=
  foldl (λ h w, match arr_get c w.1 with
                | RObj l => heap_set h l a w.2
                | _ => h
                end) h ws.

(** The slot loops on the grid. *)
Definition set_slots (ws : list (nat * CellRef)) (c : list CellRef) : list CellRef :=
  foldl (λ c w, <[w.1 := w.2]> c) c ws.

(** The objects [ls] were made between [h] and [h']. *)
Definition made (h h' : Heap) (ls : list loc) : Prop :=
  h `prefix_of` h' ∧ NoDup ls ∧ ∀ l, l ∈ ls → length h ≤ l < length h'.

(** The grid of a state and a list [P] of objects kept apart from it:
    no object is in two slots, every object of the grid and of [P] is in
    the store, and no object of [P] is in the grid or twice in [P]. *)
Record apart (s : t) (P : list loc) : Prop := mk_apart {
  apart_unshared : unshared (cells s);
  apart_cells : Forall (allocated (heap s)) (cells s);
  apart_nodup : NoDup P;
  apart_alloc : ∀ l, l ∈ P → l < length (heap s);
  apart_sep : ∀ l, RObj l ∈ cells s → l ∉ P
}.

(** The attribute an entry is about (none for a swap). *)
Definition entry_key (e : MapLayoutHistoryEntry) : PureCellKey :=
  match e with
  | changeAttributeE _ a _ _ | changeAttributesE _ a _ _ => a
  | _ => Kname
  end.

(** The attribute writes and the slot writes of [undo], and of [redo]. *)
Definition undo_attrs (e : MapLayoutHistoryEntry) : list (nat * attributeContent) :=
  match e with
  | changeAttributeE index _ was _ => [(index, was)]
  | changeAttributesE index _ was _ => zip index was
  | _ => []
  end.

Definition undo_slots (e : MapLayoutHistoryEntry) : list (nat * CellRef) :=
  match e with
  | swappedCellE index was _ => [(index, was)]
  | swappedCellsE index was _ => zip index was
  | _ => []
  end.

Definition redo_attrs (e : MapLayoutHistoryEntry) : list (nat * attributeContent) :=
  match e with
  | changeAttributeE index _ _ became => [(index, became)]
  | changeAttributesE index _ _ became => zip index became
  | _ => []
  end.

Definition redo_slots (e : MapLayoutHistoryEntry) : list (nat * CellRef) :=
  match e with
  | swappedCellE index _ became => [(index, became)]
  | swappedCellsE index _ became => zip index became
  | _ => []
  end.

(** What [undo] of an entry writes on the grid of values, and what
    [redo] of it writes. *)
Definition undo_writes (h : Heap) (e : MapLayoutHistoryEntry) : list Write :=
  (attr_write (entry_key e) <$> undo_attrs e) ++ (cell_write h <$> undo_slots e).

Definition redo_writes (h : Heap) (e : MapLayoutHistoryEntry) : list Write :=
  (attr_write (entry_key e) <$> redo_attrs e) ++ (cell_write h <$> redo_slots e).

(** The slots an entry writes to are there for it: an attribute entry
    finds an object in each, a swap entry finds each inside the grid; and
    both sides of a batched entry are as long as its list of slots. *)
Definition targets_ok (v : list CellV) (e : MapLayoutHistoryEntry) : Prop :=
  match e with
  | changeAttributeE index _ _ _ => ∃ c, v !! index = Some (VObj c)
  | changeAttributesE index _ was became =>
      length was = length index ∧ length became = length index ∧
      Forall (λ k, ∃ c, v !! k = Some (VObj c)) index
  | swappedCellE index _ _ => index < length v
  | swappedCellsE index was became =>
      length was = length index ∧ length became = length index ∧
      Forall (λ k, k < length v) index
  end.

(** The cell objects of a log. *)
Definition hist_locs (es : list MapLayoutHistoryEntry) : list loc :=
  (es ≫= was_locs) ++ (es ≫= became_locs).

(** The contents a slot can have while attribute [a] is written: what
    it has in [v0], or that with another value of the attribute. *)
Definition attr_varies (a : PureCellKey) (v0 : list CellV) (k : nat) (x : CellV) : Prop :=
  v0 !! k = Some x ∨
  ∃ c y, v0 !! k = Some (VObj c) ∧ x = VObj (set_attribute c a y).

(** *** Commits that say what was there *)

(** A commit is accurate in a state when the old values it is given are
    the ones the grid holds, no value is [undefined], the batched
    arguments have one length, and the new cell given to [swapCell] (the
    one operation that stores its argument itself) is an object that
    neither the grid nor the log holds. *)
Definition accurate (s : t) (c : Call) : Prop :=
  match c with
  | SwapCell index from to =>
      from ≠ RUndefined ∧ to ≠ RUndefined ∧
      allocated (heap s) from ∧ allocated (heap s) to ∧
      view s !! index = Some (deref (heap s) from) ∧
      (∀ l, to = RObj l →
         (l ∉ ref_locs (cells s)) ∧
         (l ∉ history s ≫= was_locs) ∧ (l ∉ history s ≫= became_locs))
  | SwapCells index from to =>
      length from = length index ∧ length to = length index ∧
      Forall (λ r, r ≠ RUndefined ∧ allocated (heap s) r) from ∧
      Forall (λ r, r ≠ RUndefined ∧ allocated (heap s) r) to ∧
      Forall2 (λ k r, view s !! k = Some (deref (heap s) r)) index from
  | ChangeAttribute index a from to =>
      from ≠ AUndefined ∧ to ≠ AUndefined ∧
      ∃ c, view s !! index = Some (VObj c) ∧ get_attribute c a = from
  | ChangeAttributes index a from to =>
      length to = length index ∧
      Forall (λ x, x ≠ AUndefined) from ∧ Forall (λ x, x ≠ AUndefined) to ∧
      Forall2 (λ k x, ∃ c, view s !! k = Some (VObj c) ∧ get_attribute c a = x) index from
  | Undo | Redo => False
  end.

(** Every call of the sequence is an accurate commit in the state it is
    made in. *)
Fixpoint accurate_commits (s : t) (cs : list Call) : Prop :=
  match cs with
  | [] => True
  | c :: cs' => accurate s c ∧ accurate_commits (call c s).1 cs'
  end.

(** How the calls of a sequence end. *)
Fixpoint completions (cs : list Call) (s : t) : list Completion :=
  match cs with
  | [] => []
  | c :: cs' => (call c s).2 :: completions cs' (call c s).1
  end.

(** *** The course of the grid along the log *)

(** What a commit leaves when it has gone well: the entry [e] is at the
    end of the log, the cursor after it, the objects of the log are apart
    from the grid and as they were, and [e] takes the grid of values from
    what it was to what it is and back. *)
Definition committed (s s' : t) (e : MapLayoutHistoryEntry) : Prop :=
  history s' = history s ++ [e] ∧
  i s' = length (history s') ∧
  apart s' (hist_locs (history s')) ∧
  (∀ l, l ∈ hist_locs (history s) → heap s' !!! l = heap s !!! l) ∧
  targets_ok (view s) e ∧ targets_ok (view s') e ∧
  apply_writes (redo_writes (heap s') e) (view s) = view s' ∧
  apply_writes (undo_writes (heap s') e) (view s') = view s.

(** [vs] lists the grids of values before and after every entry of the
    log [es]: entry [k] takes grid [k] to grid [k + 1] and back. *)
Definition timeline (h : Heap) (es : list MapLayoutHistoryEntry)
    (vs : list (list CellV)) : Prop :=
  length vs = S (length es) ∧
  ∀ k e v v', es !! k = Some e → vs !! k = Some v → vs !! S k = Some v' →
    targets_ok v e ∧ targets_ok v' e ∧
    apply_writes (redo_writes h e) v = v' ∧
    apply_writes (undo_writes h e) v' = v.

(** The objects of the log that must not have been touched while the
    first [k] entries are applied and undos go on: the old sides of these
    entries and all new sides. *)
Definition to_undo (k : nat) (es : list MapLayoutHistoryEntry) : list loc :=
  (take k es ≫= was_locs) ++ (es ≫= became_locs).

(** The same while redos go on: the new sides of the entries from [k]. *)
Definition to_redo (k : nat) (es : list MapLayoutHistoryEntry) : list loc :=
  drop k es ≫= became_locs.

(** The state [s] has the log [es] with the cursor at [k] and shows grid
    [k] of [vs]; the objects of [P] are apart from the grid and as they
    are in the store [h]. *)
Definition at_step (h : Heap) (es : list MapLayoutHistoryEntry)
    (vs : list (list CellV)) (P : list loc) (s : t) (k : nat) : Prop :=
  history s = es ∧ i s = k ∧ k ≤ length es ∧
  vs !! k = Some (view s) ∧
  apart s P ∧
  (∀ l, l ∈ P → heap s !!! l = h !!! l).

(** A grid and four commits, one of each kind. *)
Definition sample_state : t :=
  create [namedCell seat "a"; namedCell seat "b"; namedCell seat "c"] [RObj 0; RNull].

Definition sample_commits : list Call :=
  [ SwapCell 1 RNull (RObj 1);
    ChangeAttribute 1 Kname (AString "b") (AString "x");
    SwapCells [0; 1] [RObj 0; RObj 1] [RNull; RObj 2];
    ChangeAttributes [1] Ktype [AString "seat"] [AString "wall"] ].

Definition cell_a : PureCell := namedCell seat "a".
Definition cell_b : PureCell := namedCell seat "b".
Definition cell_c : PureCell := namedCell seat "c".

End HistorySpec.

(** ** Notions used in the statements about the dispatcher and the addresses *)

Module CollisionSpec.
Import CollisionManager.

#[global] Instance contains_dec {ref} (c : Collision ref) px py : Decision (contains c px py).
Proof. unfold contains. apply _. Defined.

Definition region_10_10_20_10 {ref} : Collision ref :=
  mkCollision 10 10 20 10 NoRegion.

End CollisionSpec.

Module EditMenuSpec.
Import EditMenu.

(** Inputs at positions 0 and 2, a group of two inputs at position 1. *)
Definition menu_0_group_2 : list EditMenuElement :=
  [ inputE "text" "text";
    groupE "border" [inputE "borderColor" "borderColor"; inputE "borderWidth" "borderWidth"];
    inputE "opacity" "opacity" ].

End EditMenuSpec.

(** ** Further notions for the history engine *)

Module HistoryLawsSpec.
Import MapLayoutHistory HistorySpec.

(** The references a log entry holds on its two sides. *)
Definition entry_refs (e : MapLayoutHistoryEntry) : list CellRef :=
  match e with
  | swappedCellE _ w b => [w; b]
  | swappedCellsE _ w b => w ++ b
  | _ => []
  end.

End HistoryLawsSpec.

(** ** Sequences of pointer events *)

Module CollisionEvents.
Import CollisionManager.

(** The three events the constructor listens to, with [event.button],
    [event.offsetX] and [event.offsetY]. *)
Inductive Event :=
| Down (button : MouseButtons) (offsetX offsetY : Z)
| Move (offsetX offsetY : Z)
| Up (button : MouseButtons) (offsetX offsetY : Z).

Section WithRef.

Context {ref : Type}.

Definition handle (e : Event) (s : t ref) : t ref * list (Invocation ref) :=
  match e with
  | Down button offsetX offsetY => (mousedown button offsetX offsetY s, [])
  | Move offsetX offsetY => mousemove offsetX offsetY s
  | Up button offsetX offsetY => mouseup button offsetX offsetY s
  end.

(** The events one after the other, with all the invocations made. *)
Fixpoint run (evs : list Event) (s : t ref) : t ref * list (Invocation ref) :=
  match evs with
  | [] => (s, [])
  | e :: evs' =>
      let r1 := handle e s in
      let r2 := run evs' r1.1 in
      (r2.1, r1.2 ++ r2.2)
  end.

Definition is_down (e : Event) : bool :=
  match e with Down _ _ _ => true | _ => false end.

(** Whether button [b] is held after the events, when [h] says whether it
    was held before: the last press or release of [b] decides. *)
Fixpoint held (evs : list Event) (b : MouseButtons) (h : bool) : bool :=
  match evs with
  | [] => h
  | Down b' _ _ :: evs' => held evs' b (if Z.eqb b' b then true else h)
  | Up b' _ _ :: evs' => held evs' b (if Z.eqb b' b then false else h)
  | Move _ _ :: evs' => held evs' b h
  end.

(** The distances given to drag listener [l] in the invocations [tr],
    added up. *)
Fixpoint drag_sum (l : Listener) (tr : list (Invocation ref)) : Z * Z :=
  match tr with
  | [] => (0, 0)%Z
  | inv :: tr' =>
      let rest := drag_sum l tr' in
      match kind inv, payload inv with
      | drag, DragArgs diffX diffY _ =>
          if Nat.eqb (listener inv) l then (diffX + rest.1, diffY + rest.2)%Z else rest
      | _, _ => rest
      end
  end.

(** How often [l] is registered in a list of listeners. *)
Definition registered (l : Listener) (ls : list Listener) : Z :=
  Z.of_nat (length (filter (λ l', l' = l) ls)).

(** What the hover listeners are given when no region is under the
    pointer. *)
Definition no_region : Collision ref := mkCollision (-1) (-1) 0 0 NoRegion.

End WithRef.

End CollisionEvents.

(** ** The addresses the menu gives to its elements *)

Module AddressSpec.
Import EditMenu.

(** [i.toString()]: the address of the element at position [k] of the
    top level. *)
Definition item_ref (k : nat) : string := pretty k.

(** [`${i}_${subIndex}`]: the address of leaf [j] of the group at
    position [g]. *)
Definition group_item_ref (g j : nat) : string := pretty g +:+ "_" +:+ pretty j.

(** [`${ref}-`] and [`${ref}+`]: the two arrows of a selector. *)
Definition control_ref (r : string) (c : ascii) : string := r +:+ String c "".

Definition is_control (c : ascii) : bool := Ascii.eqb c "-" || Ascii.eqb c "+".

End AddressSpec.

(** ** The commands of the menu that change the grid (EditMenu) *)

Module EditMenuActions.
Import MapLayoutHistory.

(** [lockedCells.includes(index)] *)
Definition includes (l : list nat) (index : nat) : bool := existsb (Nat.eqb index) l.

(** *** deleteCells *)

Record Swap := mkSwap {
  swap_index : list nat;
  swap_was : list CellRef;
  swap_became : list CellRef
}.

(** The loop over the selection: a locked slot and a slot that holds
    nothing are passed over, for every other slot the cell in it and
    [null] are noted. *)
Fixpoint deleteCells_loop (lockedCells : list nat) (cells : list CellRef)
    (selection : list nat) (swap : Swap) : Swap :=
  match selection with
  | [] => swap
  | index :: selection' =>
      if includes lockedCells index
      then deleteCells_loop lockedCells cells selection' swap
      else
        match arr_get cells index with
        | RUndefined => deleteCells_loop lockedCells cells selection' swap
        | r =>
            deleteCells_loop lockedCells cells selection'
              (mkSwap (swap_index swap ++ [index]) (swap_was swap ++ [r])
                 (swap_became swap ++ [RNull]))
        end
  end.

(** [selection] is [state.selectedCells?.indexes || []].  What follows
    the call of [swapCells] (the selection is made again and the map is
    drawn) changes neither the grid nor the log. *)
Definition deleteCells (lockedCells selection : list nat) (s : t) : t * Completion :=
  let swap := deleteCells_loop lockedCells (cells s) selection (mkSwap [] [] []) in
  swapCells (swap_index swap) (swap_was swap) (swap_became swap) s.

(** The slots of a selection that [deleteCells] empties. *)
Definition deletable (lockedCells : list nat) (cells : list CellRef)
    (selection : list nat) : list nat :=
  filter (λ index, includes lockedCells index = false ∧ arr_get cells index ≠ RUndefined)
    selection.

(** *** generateSeatLabels *)

(** [cell.type === "seat"] *)
Definition is_seat (c : PureCell) : bool := bool_decide (type c = AString "seat").

(** [mapLayout.cells.map((cell, index) => [cell, index])
      .filter(([cell]) => cell !== null && cell.type === "seat")],
    for the cells from position [index] on: the seats with their
    positions.  [None] is the TypeError of reading [type] of a slot that
    holds [undefined].  (A hole left by a write past the end of the grid
    would be passed over instead; the statements about this command are
    about grids in which no slot is [undefined].) *)
Fixpoint seat_cells (h : Heap) (cells : list CellRef) (index : nat)
    : option (list (CellRef * nat)) :=
  match cells with
  | [] => Some []
  | cell :: cells' =>
      match cell with
      | RUndefined => None
      | RNull => seat_cells h cells' (S index)
      | RObj l =>
          rest ← seat_cells h cells' (S index);
          Some (if is_seat (h !!! l) then (cell, index) :: rest else rest)
      end
  end.

Record SetNames := mkSetNames {
  setNames_index : list nat;
  setNames_name : list attributeContent;
  setNames_oldNames : list attributeContent
}.

(** The loop over the seats: each is named by the next number, written
    on the cell object itself. *)
Fixpoint label_loop (cells : list (CellRef * nat)) (number : nat) (setNames : SetNames)
    (s : t) : t * SetNames :=
  match cells with
  | [] => (s, setNames)
  | (cell, index) :: cells' =>
      match cell with
      | RObj l =>
          let oldName := name (heap s !!! l) in
          let s := set_heap s (heap_set (heap s) l Kname (AString (pretty number))) in
          label_loop cells' (S number)
            (mkSetNames (setNames_index setNames ++ [index])
               (setNames_name setNames ++ [name (heap s !!! l)])
               (setNames_oldNames setNames ++ [oldName]))
            s
      | _ => label_loop cells' number setNames (console_error s "Error #357")
      end
  end.

(** The new names are given to [changeAttributes] as the old values and
    as the new ones. *)
Definition generateSeatLabels (s : t) : t * Completion :=
  match seat_cells (heap s) (cells s) 0 with
  | None => (s, ThrowTypeError)
  | Some cells =>
      let r := label_loop cells 1 (mkSetNames [] [] []) s in
      changeAttributes (setNames_index r.2) Kname (setNames_name r.2) (setNames_name r.2) r.1
  end.

(** The seats of a grid of values numbered in the order of the grid,
    from [number] on. *)
Fixpoint label_seats (number : nat) (v : list CellV) : list CellV :=
  match v with
  | [] => []
  | VObj c :: v' =>
      if is_seat c
      then VObj (set_attribute c Kname (AString (pretty number))) :: label_seats (S number) v'
      else VObj c :: label_seats number v'
  | x :: v' => x :: label_seats number v'
  end.

(** *** applyToMap *)

(** The part of [EditMenuState] that [applyToMap] reads;
    [selectedCells] is [state.selectedCells?.indexes]. *)
Record EditState := mkEditState {
  selectedCells : option (list nat);
  selectedType : string;
  cellStyleChanges : CellStyleOverride
}.

(** A property of [{...a, ...b}]: the one of [b] when [b] has it. *)
Definition over {A} (a b : option A) : option A :=
  match b with Some _ => b | None => a end.

(** [{...a, ...b}] on the properties of [CellStyleOverridePure] *)
Definition spread_pure (a b : CellStyleOverridePure) : CellStyleOverridePure :=
  {| backgroundColor := over (backgroundColor a) (backgroundColor b);
     borderColor := over (borderColor a) (borderColor b);
     borderWidth := over (borderWidth a) (borderWidth b);
     borderTop := over (borderTop a) (borderTop b);
     borderBottom := over (borderBottom a) (borderBottom b);
     borderLeft := over (borderLeft a) (borderLeft b);
     borderRight := over (borderRight a) (borderRight b);
     text := over (text a) (text b);
     textFont := over (textFont a) (textFont b);
     textWeight := over (textWeight a) (textWeight b);
     textSize := over (textSize a) (textSize b);
     textColor := over (textColor a) (textColor b);
     textOpacity := over (textOpacity a) (textOpacity b);
     textTranslateX := over (textTranslateX a) (textTranslateX b);
     textTranslateY := over (textTranslateY a) (textTranslateY b);
     textStrokeColor := over (textStrokeColor a) (textStrokeColor b);
     textStrokeLineWidth := over (textStrokeLineWidth a) (textStrokeLineWidth b);
     textRotationDegrees := over (textRotationDegrees a) (textRotationDegrees b);
     opacity := over (opacity a) (opacity b) |}.

(** [{}] *)
Definition empty_pure : CellStyleOverridePure :=
  {| backgroundColor := None; borderColor := None; borderWidth := None;
     borderTop := None; borderBottom := None; borderLeft := None; borderRight := None;
     text := None; textFont := None; textWeight := None; textSize := None;
     textColor := None; textOpacity := None; textTranslateX := None;
     textTranslateY := None; textStrokeColor := None; textStrokeLineWidth := None;
     textRotationDegrees := None; opacity := None |}.

(** The style object a cell with style [o] is given:
    [{...o, ...changes}], and then, for each of the two nested objects
    that [o] had, that object with the one of [changes] spread over it. *)
Definition restyle (o changes : CellStyleOverride) : CellStyleOverride :=
  let hover :=
    match hoverOverride o with
    | Some oldHoverOverride =>
        Some (spread_pure oldHoverOverride (default empty_pure (hoverOverride changes)))
    | None => over (hoverOverride o) (hoverOverride changes)
    end in
  let selected :=
    match selectedOverride o with
    | Some oldSelectedOverride =>
        Some (spread_pure oldSelectedOverride (default empty_pure (selectedOverride changes)))
    | None => over (selectedOverride o) (selectedOverride changes)
    end in
  {| ownStyle := spread_pure (ownStyle o) (ownStyle changes);
     hoverOverride := hover;
     selectedOverride := selected |}.

(** How the loop of [applyToMap] ends.  Style objects are records of the
    declared properties here; spreading a [styleOverride] that holds a
    string has no value among them, and the loop is then not followed
    further. *)
Inductive LoopResult :=
| LoopDone (s : t) (oldCells newCells : list CellRef)
| LoopThrew (s : t) (c : Completion)
| LoopUnmodelled.

(** The loop over the selection.  The copy of the cell is pushed onto
    [oldCells] first and then changed in place, so for a cell that was
    there [oldCells] and [newCells] get the same object. *)
Fixpoint applyToMap_loop (state : EditState) (cellIndexes : list nat)
    (oldCells newCells : list CellRef) (s : t) : LoopResult :=
  match cellIndexes with
  | [] => LoopDone s oldCells newCells
  | index :: cellIndexes' =>
      match deepClone_cell (heap s) (arr_get (cells s) index) with
      | None => LoopThrew s ThrowSyntaxError
      | Some (h1, cell) =>
          let oldCells := oldCells ++ [cell] in
          let '(h2, l) :=
            match cell with
            | RObj l => (heap_set h1 l Ktype (AString (selectedType state)), l)
            | _ =>
                alloc h1 {| name := AUndefined;
                            type := AString (selectedType state);
                            styleOverride := AStyle (cellStyleChanges state) |}
            end in
          match styleOverride (h2 !!! l) with
          | AStyle o =>
              let h3 := heap_set h2 l KstyleOverride
                          (AStyle (restyle o (cellStyleChanges state))) in
              applyToMap_loop state cellIndexes' oldCells (newCells ++ [RObj l])
                (set_heap s h3)
          | AUndefined | ANull => LoopThrew (set_heap s h2) ThrowTypeError
          | AString _ => LoopUnmodelled
          end
      end
  end.

(** [None] when the loop is not followed to its end. *)
Definition applyToMap (state : EditState) (s : t) : option (t * Completion) :=
  match selectedCells state with
  | None => Some (s, Return)
  | Some cellIndexes =>
      match applyToMap_loop state cellIndexes [] [] s with
      | LoopDone s' oldCells newCells => Some (swapCells cellIndexes oldCells newCells s')
      | LoopThrew s' c => Some (s', c)
      | LoopUnmodelled => None
      end
  end.

(** The cell [applyToMap] makes of the content of a slot: a new cell of
    the selected type with the changes as its style for an empty slot,
    the cell with the selected type and its style changed for a cell that
    has a style. *)
Definition restyled (state : EditState) (v : CellV) : CellV :=
  match v with
  | VNull =>
      VObj {| name := AUndefined;
              type := AString (selectedType state);
              styleOverride :=
                AStyle (restyle (cellStyleChanges state) (cellStyleChanges state)) |}
  | VObj c =>
      match styleOverride c with
      | AStyle o =>
          VObj {| name := name c;
                  type := AString (selectedType state);
                  styleOverride := AStyle (restyle o (cellStyleChanges state)) |}
      | _ => v
      end
  | VUndefined => v
  end.

(** A slot [applyToMap] can change: it is empty, or holds a cell that
    has a style object. *)
Definition styled (v : CellV) : bool :=
  match v with
  | VNull => true
  | VObj c => match styleOverride c with AStyle _ => true | _ => false end
  | VUndefined => false
  end.

(** What [applyToMap] notes as the old content of a slot. *)
Definition noted_old (state : EditState) (v : CellV) : CellV :=
  match v with VNull => VNull | _ => restyled state v end.

(** *** Scrolling ([canvas.onwheel]) *)

Record Scroll := mkScroll {
  offset : Z;
  lastFrameHeight : Z
}.

(** The handler, for [event.deltaY] and [canvas.height]: it acts only
    when the last frame was higher than the canvas.  The drawing that
    follows is not part of the model. *)
Definition onwheel (deltaY height : Z) (scroll : Scroll) : Scroll :=
  if (lastFrameHeight scroll >? height)%Z then
    let offset := (offset scroll - deltaY)%Z in
    let offset := Z.min 0 offset in
    let offset := Z.max (- lastFrameHeight scroll + height) offset in
    mkScroll offset (lastFrameHeight scroll)
  else scroll.

(** *** isPropertyCommonToAllCells *)

(** [CellState] *)
Inductive CellState := state_hover | state_selected | state_default.

(** [keyof CellStyleOverridePure] *)
Inductive StyleKey :=
| KbackgroundColor | KborderColor | KborderWidth | KborderTop | KborderBottom
| KborderLeft | KborderRight | Ktext | KtextFont | KtextWeight | KtextSize
| KtextColor | KtextOpacity | KtextTranslateX | KtextTranslateY | KtextStrokeColor
| KtextStrokeLineWidth | KtextRotationDegrees | Kopacity.

(** [string | number | boolean | undefined] *)
Inductive StyleValue :=
| SVundefined
| SVstring (s : string)
| SVnumber (n : Z)
| SVboolean (b : bool).

#[global] Instance StyleValue_eq_dec : EqDecision StyleValue.
Proof. solve_decision. Defined.

Definition style_value {A} (f : A → StyleValue) (o : option A) : StyleValue :=
  match o with Some a => f a | None => SVundefined end.

(** [style[property]] *)
Definition style_get (o : CellStyleOverridePure) (property : StyleKey) : StyleValue :=
  match property with
  | KbackgroundColor => style_value SVstring (backgroundColor o)
  | KborderColor => style_value SVstring (borderColor o)
  | KborderWidth => style_value SVnumber (borderWidth o)
  | KborderTop => style_value SVboolean (borderTop o)
  | KborderBottom => style_value SVboolean (borderBottom o)
  | KborderLeft => style_value SVboolean (borderLeft o)
  | KborderRight => style_value SVboolean (borderRight o)
  | Ktext => style_value SVstring (text o)
  | KtextFont => style_value SVstring (textFont o)
  | KtextWeight => style_value SVstring (textWeight o)
  | KtextSize => style_value SVnumber (textSize o)
  | KtextColor => style_value SVstring (textColor o)
  | KtextOpacity => style_value SVnumber (textOpacity o)
  | KtextTranslateX => style_value SVnumber (textTranslateX o)
  | KtextTranslateY => style_value SVnumber (textTranslateY o)
  | KtextStrokeColor => style_value SVstring (textStrokeColor o)
  | KtextStrokeLineWidth => style_value SVnumber (textStrokeLineWidth o)
  | KtextRotationDegrees => style_value SVnumber (textRotationDegrees o)
  | Kopacity => style_value SVnumber (opacity o)
  end.

(** The loop over the selected slots.  [None] is the TypeError of
    reading a property of a [styleOverride] that is [null].  The three
    comparisons with [value] end in [continue]; so does the end of the
    loop body. *)
Fixpoint isPropertyCommon_loop (property : StyleKey) (value : StyleValue)
    (styleState : CellState) (h : Heap) (cells : list CellRef) (indexes : list nat)
    : option bool :=
  match indexes with
  | [] => Some true
  | index :: indexes' =>
      let continue := isPropertyCommon_loop property value styleState h cells indexes' in
      match arr_get cells index with
      | RNull | RUndefined => Some false
      | RObj l =>
          match styleOverride (h !!! l) with
          | AUndefined => Some false
          | ANull => None
          | AString _ =>
              match styleState with
              | state_default => if bool_decide (SVundefined = value) then continue else continue
              | _ => Some false
              end
          | AStyle o =>
              match styleState with
              | state_default =>
                  if bool_decide (style_get (ownStyle o) property = value)
                  then continue else continue
              | state_hover =>
                  match hoverOverride o with
                  | None => Some false
                  | Some hoverOverride =>
                      if bool_decide (style_get hoverOverride property = value)
                      then continue else continue
                  end
              | state_selected =>
                  match selectedOverride o with
                  | None => Some false
                  | Some selectedOverride =>
                      if bool_decide (style_get selectedOverride property = value)
                      then continue else continue
                  end
              end
          end
      end
  end.

(** [selection] is [state.selectedCells], with its [indexes]. *)
Definition isPropertyCommonToAllCells (selection : option (list nat))
    (property : StyleKey) (value : StyleValue) (styleState : CellState)
    (h : Heap) (cells : list CellRef) : option bool :=
  match selection with
  | None => Some false
  | Some indexes => isPropertyCommon_loop property value styleState h cells indexes
  end.

(** The cell in a slot has the style object that [styleState] names. *)
Definition has_override (styleState : CellState) (v : CellV) : bool :=
  match v with
  | VObj c =>
      match styleOverride c, styleState with
      | AStyle _, state_default | AString _, state_default => true
      | AStyle o, state_hover => bool_decide (hoverOverride o ≠ None)
      | AStyle o, state_selected => bool_decide (selectedOverride o ≠ None)
      | _, _ => false
      end
  | _ => false
  end.

(** A cell whose [styleOverride] is [null]. *)
Definition null_style (v : CellV) : bool :=
  match v with
  | VObj c => bool_decide (styleOverride c = ANull)
  | _ => false
  end.

(** A style with a red background, a cell that has it, and the state of
    a menu that is to turn two slots into walls with thick borders. *)
Definition red_background : CellStyleOverride :=
  {| ownStyle :=
       {| backgroundColor := Some "red"; borderColor := None; borderWidth := None;
          borderTop := None; borderBottom := None; borderLeft := None;
          borderRight := None; text := None; textFont := None; textWeight := None;
          textSize := None; textColor := None; textOpacity := None;
          textTranslateX := None; textTranslateY := None; textStrokeColor := None;
          textStrokeLineWidth := None; textRotationDegrees := None; opacity := None |};
     hoverOverride := None;
     selectedOverride := None |}.

Definition thick_border : CellStyleOverride :=
  {| ownStyle :=
       {| backgroundColor := None; borderColor := None; borderWidth := Some 3%Z;
          borderTop := None; borderBottom := None; borderLeft := None;
          borderRight := None; text := None; textFont := None; textWeight := None;
          textSize := None; textColor := None; textOpacity := None;
          textTranslateX := None; textTranslateY := None; textStrokeColor := None;
          textStrokeLineWidth := None; textRotationDegrees := None; opacity := None |};
     hoverOverride := None;
     selectedOverride := None |}.

Definition red_seat : PureCell :=
  {| name := AString "a"; type := AString "seat"; styleOverride := AStyle red_background |}.

Definition walls_with_border : EditState :=
  mkEditState (Some [0; 1]) "wall" thick_border.

End EditMenuActions.

(** * Properties of the history engine *)

Module HistoryProofs.
Import MapLayoutHistory HistorySpec.

#[local] Arguments addHistoryEntry : simpl never.

(** ** The loops leave the log, the cursor and the slots alone *)

Lemma undo_changeAttributes_log index attribute was k n s :
  history (undo_changeAttributes index attribute was k n s) = history s ∧
  i (undo_changeAttributes index attribute was k n s) = i s ∧
  cells (undo_changeAttributes index attribute was k n s) = cells s.
Proof.
  revert k s. induction n as [|n IH]; intros k s; simpl; [done|].
  destruct (index !! k) as [cellIndex|]; [|done].
  destruct (arr_get (cells s) cellIndex); [done|done|].
  match goal with |- context [undo_changeAttributes _ _ _ _ _ ?s'] =>
    destruct (IH (S k) s') as (-> & -> & ->) end.
  by case_decide.
Qed.

Lemma redo_changeAttributes_log index attribute became k n s :
  history (redo_changeAttributes index attribute became k n s).1 = history s ∧
  i (redo_changeAttributes index attribute became k n s).1 = i s ∧
  cells (redo_changeAttributes index attribute became k n s).1 = cells s ∧
  console (redo_changeAttributes index attribute became k n s).1 = console s.
Proof.
  revert k s. induction n as [|n IH]; intros k s; simpl; [done|].
  destruct (index !! k) as [cellIndex|]; [|done].
  destruct (arr_get (cells s) cellIndex); [done|done|].
  match goal with |- context [redo_changeAttributes _ _ _ _ _ ?s'] =>
    by destruct (IH (S k) s') as (-> & -> & -> & ->) end.
Qed.

Lemma redo_changeAttributes_exit index attribute became k n s :
  k + n = length index →
  (redo_changeAttributes index attribute became k n s).2 = Completed ↔
  forallb (λ c, is_obj (arr_get (cells s) c)) (drop k index) = true.
Proof.
  revert k s. induction n as [|n IH]; intros k s Hk; simpl.
  - by rewrite drop_ge by lia.
  - destruct (index !! k) as [cellIndex|] eqn:Hx.
    2:{ apply lookup_ge_None in Hx. lia. }
    rewrite (drop_S _ _ _ Hx). simpl.
    destruct (arr_get (cells s) cellIndex) eqn:Hc; simpl; [done|done|].
    by rewrite IH by lia.
Qed.

Lemma swapCells_loop_log index to k n s :
  history (swapCells_loop index to k n s).1 = history s ∧
  i (swapCells_loop index to k n s).1 = i s.
Proof.
  revert k s. induction n as [|n IH]; intros k s; simpl; [done|].
  destruct (index !! k) as [cellIndex|]; [|done].
  destruct (deepClone_cell (heap s) (arr_get to k)) as [[h' r']|]; [|done].
  match goal with |- context [swapCells_loop _ _ _ _ ?s'] =>
    by destruct (IH (S k) s') as (-> & ->) end.
Qed.

Lemma changeAttributes_loop_log index attribute to k n s :
  history (changeAttributes_loop index attribute to k n s).1 = history s ∧
  i (changeAttributes_loop index attribute to k n s).1 = i s ∧
  cells (changeAttributes_loop index attribute to k n s).1 = cells s.
Proof.
  revert k s. induction n as [|n IH]; intros k s; simpl; [done|].
  destruct (index !! k) as [cellIndex|]; [|done].
  destruct (arr_get (cells s) cellIndex); [done|done|].
  match goal with |- context [changeAttributes_loop _ _ _ _ _ ?s'] =>
    by destruct (IH (S k) s') as (-> & -> & ->) end.
Qed.

(** ** addHistoryEntry *)

Ltac pushed_or_thrown :=
  first [ left; eexists; by repeat split | right; by repeat split ].

Lemma addHistoryEntry_cases entry s :
  (∃ e, (addHistoryEntry entry s).2 = Return ∧
        history (addHistoryEntry entry s).1 = kept s ++ [e] ∧
        i (addHistoryEntry entry s).1 = length (kept s) + 1 ∧
        cells (addHistoryEntry entry s).1 = cells s) ∨
  ((addHistoryEntry entry s).2 = ThrowSyntaxError ∧
   history (addHistoryEntry entry s).1 = kept s ∧
   i (addHistoryEntry entry s).1 = i s ∧
   cells (addHistoryEntry entry s).1 = cells s).
Proof.
  unfold addHistoryEntry, kept.
  destruct entry as [index a was became|index a was became|index was became|index was became];
    simpl.
  - destruct (deepClone_attr was); [destruct (deepClone_attr became)|];
      case_decide; simpl; rewrite ?length_app; simpl; pushed_or_thrown.
  - case_decide; simpl; rewrite ?length_app; simpl; pushed_or_thrown.
  - case_decide; simpl.
    all: destruct (deepClone_cell _ was) as [[h1 w]|]; simpl; [|pushed_or_thrown].
    all: destruct (deepClone_cell h1 became) as [[h2 b]|]; simpl; [|pushed_or_thrown].
    all: rewrite ?length_app; simpl; pushed_or_thrown.
  - case_decide; simpl.
    all: destruct (deepClone_cells _ was) as [h1 w].
    all: destruct (deepClone_cells h1 became) as [h2 b]; simpl.
    all: rewrite ?length_app; simpl; pushed_or_thrown.
Qed.

(** A commit made while entries can be redone keeps the first of them:
    the log is cut after position [i], not before it. *)
Lemma addHistoryEntry_keeps_entry_at_cursor entry s :
  i s < length (history s) →
  (addHistoryEntry entry s).2 = Return →
  history (addHistoryEntry entry s).1 !! i s = history s !! i s.
Proof.
  intros Hi Hr.
  destruct (addHistoryEntry_cases entry s) as [(e & _ & -> & _)|(Hthrow & _)].
  2:{ congruence. }
  unfold kept. case_decide.
  - rewrite lookup_app_l by (rewrite length_take; lia).
    rewrite lookup_take_lt by lia. done.
  - by rewrite lookup_app_l by lia.
Qed.

(** ** undo and redo on the log and the cursor *)

Lemma undo_log s :
  history (undo s).1 = history s ∧
  i (undo s).1 = (if decide (history s = [] ∨ i s = 0) then i s else i s - 1).
Proof.
  unfold undo. destruct (decide (length (history s) = 0)) as [Hl|Hl].
  { simpl. split; [done|]. rewrite decide_True; [done|].
    left. by apply length_zero_iff_nil. }
  assert (history s ≠ []) as Hne by (intros Heq; by rewrite Heq in Hl).
  set (s1 := if decide (i s ≠ 0) then set_i s (i s - 1) else s).
  assert (history s1 = history s ∧
          i s1 = (if decide (history s = [] ∨ i s = 0) then i s else i s - 1))
    as [Hh Hi].
  { subst s1. destruct (decide (i s ≠ 0)); simpl.
    - split; [done|]. rewrite decide_False; [done|]. intros [?|?]; done.
    - split; [done|]. rewrite decide_True; [done|]. right. lia. }
  rewrite <- Hi, <- Hh. clearbody s1. clear Hh Hi.
  destruct (history s1 !! i s1) as [[index a w b|index a w b|index w b|index w b]|];
    simpl; try done.
  - by destruct (arr_get (cells s1) index).
  - by destruct (undo_changeAttributes_log index a w 0 (length index) s1) as (-> & -> & _).
Qed.

Lemma redo_log s :
  history (redo s).1 = history s.
Proof.
  unfold redo. destruct (decide (length (history s) = 0)); [done|].
  destruct (history s !! i s) as [[index a w b|index a w b|index w b|index w b]|];
    simpl; try done.
  - by destruct (arr_get (cells s) index).
  - pose proof (redo_changeAttributes_log index a b 0 (length index) s) as (Hh & _).
    by destruct (redo_changeAttributes index a b 0 (length index) s) as [s' []].
Qed.

Lemma redo_cursor_none s :
  history s !! i s = None → i (redo s).1 = i s.
Proof.
  intros Hn. unfold redo. destruct (decide (length (history s) = 0)); [done|].
  by rewrite Hn.
Qed.

Lemma redo_cursor_some s e :
  history s !! i s = Some e →
  i (redo s).1 = (if targets_present (cells s) e then i s + 1 else i s).
Proof.
  intros He. unfold redo.
  destruct (decide (length (history s) = 0)) as [Hl|Hl].
  { apply length_zero_iff_nil in Hl. by rewrite Hl in He. }
  rewrite He. destruct e as [index a w b|index a w b|index w b|index w b]; simpl; try done.
  - by destruct (arr_get (cells s) index).
  - pose proof (redo_changeAttributes_log index a b 0 (length index) s) as (_ & Hi & _).
    pose proof (redo_changeAttributes_exit index a b 0 (length index) s eq_refl) as Hex.
    rewrite drop_0 in Hex.
    destruct (redo_changeAttributes index a b 0 (length index) s) as [s' ex]; simpl in *.
    destruct (forallb _ index).
    + rewrite (proj2 Hex eq_refl). simpl. lia.
    + destruct ex; simpl; [|done|done]. by pose proof (proj1 Hex eq_refl).
Qed.

(** ** The commit operations on the log and the cursor *)

Lemma commit_returns c s s' :
  is_commit c = true → call c s = (s', Return) →
  i s' = length (history s') ∧ history s' ≠ [].
Proof.
  intros Hc Hcall.
  assert (∀ entry s0, addHistoryEntry entry s0 = (s', Return) →
            i s' = length (history s') ∧ history s' ≠ []) as Hadd.
  { intros entry s0 Heq.
    destruct (addHistoryEntry_cases entry s0) as [(e & _ & Hh & Hi & _)|(Ht & _)].
    - rewrite Heq in Hh, Hi. simpl in *. rewrite Hh, Hi, length_app. simpl.
      split; [done|]. by destruct (kept s0).
    - rewrite Heq in Ht. done. }
  destruct c as [| |index from to|index from to|index a from to|index a from to];
    simpl in *; try done.
  - unfold swapCell in Hcall. by eapply Hadd.
  - unfold swapCells in Hcall.
    destruct (swapCells_loop index to 0 (length index) s) as [s1 []]; try done.
    by eapply Hadd.
  - unfold changeAttribute in Hcall.
    destruct (arr_get (cells s) index); try done. by eapply Hadd.
  - unfold changeAttributes in Hcall.
    destruct (changeAttributes_loop index a to 0 (length index) s) as [s1 []]; try done.
    by eapply Hadd.
Qed.

Lemma addHistoryEntry_cursor entry s :
  i s ≤ length (history s) →
  i (addHistoryEntry entry s).1 ≤ length (history (addHistoryEntry entry s).1).
Proof.
  intros Hi.
  destruct (addHistoryEntry_cases entry s) as [(e & _ & -> & -> & _)|(_ & -> & -> & _)].
  - rewrite length_app. simpl. lia.
  - unfold kept. case_decide; [rewrite length_take|]; lia.
Qed.

Lemma call_cursor c s :
  i s ≤ length (history s) →
  i (call c s).1 ≤ length (history (call c s).1).
Proof.
  intros Hi.
  destruct c as [| |index from to|index from to|index a from to|index a from to]; simpl.
  - destruct (undo_log s) as [-> ->]. case_decide; lia.
  - rewrite redo_log. destruct (history s !! i s) as [e|] eqn:He.
    + rewrite (redo_cursor_some s e He). apply lookup_lt_Some in He.
      destruct (targets_present _ _); lia.
    + by rewrite redo_cursor_none.
  - by apply addHistoryEntry_cursor.
  - unfold swapCells.
    pose proof (swapCells_loop_log index to 0 (length index) s) as [Hh Hc].
    destruct (swapCells_loop index to 0 (length index) s) as [s1 []]; cbn [fst snd] in *.
    + apply addHistoryEntry_cursor. by rewrite Hh, Hc.
    + by rewrite Hh, Hc.
    + by rewrite Hh, Hc.
  - unfold changeAttribute. destruct (arr_get (cells s) index); try done.
    by apply addHistoryEntry_cursor.
  - unfold changeAttributes.
    pose proof (changeAttributes_loop_log index a to 0 (length index) s) as (Hh & Hc & _).
    destruct (changeAttributes_loop index a to 0 (length index) s) as [s1 []]; cbn [fst snd] in *.
    + apply addHistoryEntry_cursor. by rewrite Hh, Hc.
    + by rewrite Hh, Hc.
    + by rewrite Hh, Hc.
Qed.

Lemma calls_cursor cs s :
  i s ≤ length (history s) →
  i (calls cs s) ≤ length (history (calls cs s)).
Proof.
  revert s. induction cs as [|c cs IH]; intros s Hi; [done|].
  apply IH. by apply call_cursor.
Qed.

(** ** Claims about the log and the cursor *)

(** C2 (branch truncation).  The claim: a commit made while the cursor is
    before the end of the log first cuts the log to [i] entries.  The code
    cuts it to [i + 1] entries, and only when more than that are present.
    Here a cell named "a" is swapped for one named "b", the swap is undone
    (cursor 0, one entry), and the cell is swapped for one named "c": the
    log then holds two entries instead of one, the undone entry is still
    at position 0, and two undos followed by one redo put the cell named
    "b" of the discarded entry back into the grid. *)
Theorem commit_after_undo_keeps_undone_entry :
  let s0 := create [cell_a; cell_b; cell_c; cell_a] [RObj 0] in
  let s1 := calls [SwapCell 0 (RObj 3) (RObj 1); Undo] s0 in
  let s2 := calls [SwapCell 0 (RObj 3) (RObj 2)] s1 in
  (i s1 = 0 ∧ length (history s1) = 1) ∧
  (length (history s2) = 2 ∧ i s2 = 2 ∧ history s2 !! 0 = history s1 !! 0) ∧
  view s2 = [VObj cell_c] ∧
  view (calls [Undo; Undo; Redo] s2) = [VObj cell_b].
Proof. vm_compute. done. Qed.

(** C3 (batch atomicity).  The claim: a batched attribute change with an
    empty target leaves the grid as it was.  The code writes the targets
    one after the other and throws a TypeError at the empty one: with the
    targets 0 (a cell) and 1 (empty) the name of cell 0 is already changed
    when the call ends.  No entry is logged. *)
Theorem changeAttributes_stops_half_way :
  let s0 := create [cell_a] [RObj 0; RNull] in
  let r := changeAttributes [0; 1] Kname [AString "a"; AString "x"]
             [AString "b"; AString "y"] s0 in
  r.2 = ThrowTypeError ∧
  view s0 = [VObj cell_a; VNull] ∧
  view r.1 = [VObj cell_b; VNull] ∧
  history r.1 = [] ∧ console r.1 = [].
Proof. vm_compute. done. Qed.

(** C4 (attribute change on an empty cell).  The claim: the call is a
    reported no-op that does not throw.  The code: whenever the slot holds
    [null] or nothing, [changeAttribute] ends with a TypeError; nothing is
    written, logged or reported. *)
Theorem changeAttribute_missing_cell_throws index attribute from to s :
  is_obj (arr_get (cells s) index) = false →
  changeAttribute index attribute from to s = (s, ThrowTypeError).
Proof.
  intros Hc. unfold changeAttribute. by destruct (arr_get (cells s) index).
Qed.

Lemma changeAttribute_missing_cell_throws_witness :
  changeAttribute 0 Kname (AString "a") (AString "b") (create [] [RNull])
  = (create [] [RNull], ThrowTypeError).
Proof. apply changeAttribute_missing_cell_throws. reflexivity. Defined.

(** C9, as the code has it.  With an empty log [undo] and [redo] change
    nothing and report nothing.  With the cursor at the end of a log that
    is not empty, [redo] changes neither grid, log nor cursor, and it
    reports an error.  With the cursor at 0 in a log that is not empty,
    [undo] does what it does from cursor 1: the cursor stays 0 and the old
    side of the first entry is written once more. *)
Theorem exhausted_history :
  (∀ s, history s = [] → undo s = (s, ReturnFalse) ∧ redo s = (s, Return)) ∧
  (∀ s, history s ≠ [] → i s = length (history s) →
        redo s = (console_error s
                    "Cannot redo when no history entry is present for desired step.",
                  Return)) ∧
  (∀ s, history s ≠ [] → i s = 0 →
        undo s = undo (set_i s 1) ∧ i (undo s).1 = 0 ∧ history (undo s).1 = history s).
Proof.
  split; [|split].
  - intros s Hs. unfold undo, redo. rewrite Hs. simpl. done.
  - intros s Hne Hi. unfold redo.
    destruct (decide (length (history s) = 0)) as [Hl|_].
    { by apply length_zero_iff_nil in Hl. }
    rewrite (proj2 (lookup_ge_None (history s) (i s))); [done|lia].
  - intros s Hne Hi. split; [|split].
    + destruct s as [h c hs n con]. simpl in *. subst n.
      destruct hs as [|e hs]; [done|]. reflexivity.
    + destruct (undo_log s) as [_ ->]. case_decide; lia.
    + by destruct (undo_log s) as [-> _].
Qed.

Lemma exhausted_history_witness :
  (let s := create [] [RNull] in
   history s = [] ∧ undo s = (s, ReturnFalse) ∧ redo s = (s, Return)) ∧
  (let s := calls [SwapCell 0 RNull RNull] (create [] [RNull]) in
   history s ≠ [] ∧ i s = length (history s) ∧
   redo s = (console_error s
               "Cannot redo when no history entry is present for desired step.",
             Return)) ∧
  (let s := calls [SwapCell 0 RNull RNull; Undo] (create [] [RNull]) in
   history s ≠ [] ∧ i s = 0 ∧
   undo s = undo (set_i s 1) ∧ i (undo s).1 = 0 ∧ history (undo s).1 = history s).
Proof.
  destruct exhausted_history as (Hempty & Hend & Hstart).
  split; [|split].
  - split; [reflexivity|]. by apply Hempty.
  - split; [done|]. split; [reflexivity|]. by apply Hend.
  - split; [done|]. split; [reflexivity|]. by apply Hstart.
Defined.

(** C9 as stated fails.  After one swap the cursor is at the end of the
    log; [redo] then writes a message with [console.error].  And with the
    cursor at 0, [undo] can change the grid: the first entry changes the
    names of cells 0 and 1, cell 1 is then emptied, and after the undos a
    [redo] stops at the empty cell 1 with cell 0 already renamed and the
    cursor still 0; the next [undo] names cell 0 back. *)
Lemma exhausted_history_counterexample :
  (let s := calls [SwapCell 0 RNull RNull] (create [] [RNull]) in
   i s = length (history s) ∧
   console (redo s).1 =
     console s ++ ["Cannot redo when no history entry is present for desired step."]) ∧
  (let s := calls [ChangeAttributes [0; 1] Kname [AString "a"; AString "b"]
                     [AString "c"; AString "d"];
                   Undo; SwapCell 1 RNull RNull; Undo; Undo; Redo]
              (create [cell_a; cell_b] [RObj 0; RObj 1]) in
   i s = 0 ∧ view s = [VObj cell_c; VNull] ∧ view (undo s).1 = [VObj cell_a; VNull]).
Proof. vm_compute. done. Qed.

(** C10, as the code has it.  After any sequence of calls on a new
    instance the cursor is at most the length of the log.  [undo] takes
    one from a cursor that is not 0 (when the log is not empty); [redo]
    leaves the cursor when there is no entry at it, and also when the
    entry at it writes an attribute to a slot that holds no cell, and adds
    one otherwise; a commit that returns puts the cursor at the end of the
    log. *)
Theorem cursor_bounds :
  (∀ h c cs, i (calls cs (create h c)) ≤ length (history (calls cs (create h c)))) ∧
  (∀ s, i (undo s).1 = if decide (history s = [] ∨ i s = 0) then i s else i s - 1) ∧
  (∀ s, history s !! i s = None → i (redo s).1 = i s) ∧
  (∀ s e, history s !! i s = Some e →
          i (redo s).1 = (if targets_present (cells s) e then i s + 1 else i s) ∧
          i s + 1 ≤ length (history s)) ∧
  (∀ c s s', is_commit c = true → call c s = (s', Return) → i s' = length (history s')).
Proof.
  split; [|split; [|split; [|split]]].
  - intros h c cs. apply calls_cursor. simpl. lia.
  - intros s. by destruct (undo_log s).
  - apply redo_cursor_none.
  - intros s e He. split; [by apply redo_cursor_some|].
    apply lookup_lt_Some in He. lia.
  - intros c s s' Hc Hcall. by destruct (commit_returns c s s' Hc Hcall).
Qed.

Lemma cursor_bounds_witness :
  (let s := calls [SwapCell 0 RNull RNull; Undo; Undo; Redo; Redo] (create [] [RNull]) in
   i s ≤ length (history s)) ∧
  (let s := create [] [RNull] in
   history s !! i s = None ∧ i (redo s).1 = i s) ∧
  (let s := calls [SwapCell 0 RNull RNull; Undo] (create [] [RNull]) in
   history s !! i s = Some (swappedCellE 0 RNull RNull) ∧
   i (redo s).1 = 1 ∧ i s + 1 ≤ length (history s)) ∧
  (let s := create [] [RNull] in
   call (SwapCell 0 RNull RNull) s
   = (mk [] [RNull] [swappedCellE 0 RNull RNull] 1 [], Return) ∧
   i (mk [] [RNull] [swappedCellE 0 RNull RNull] 1 []) = 1).
Proof.
  destruct cursor_bounds as (Hinv & _ & Hnone & Hsome & Hcommit).
  split; [apply Hinv|]. split; [|split].
  - split; [reflexivity|]. by apply Hnone.
  - split; [reflexivity|].
    apply (Hsome (calls [SwapCell 0 RNull RNull; Undo] (create [] [RNull]))
             (swappedCellE 0 RNull RNull)).
    reflexivity.
  - split; [reflexivity|].
    apply (Hcommit (SwapCell 0 RNull RNull) (create [] [RNull])); reflexivity.
Defined.

(** C10 as stated fails in one clause: an entry at the cursor does not
    make [redo] move the cursor.  A name is changed, the change undone,
    the cell emptied and both steps undone; the entry at cursor 0 is the
    change of name, its cell is empty, and [redo] returns with the cursor
    still 0. *)
Lemma cursor_bounds_counterexample :
  let s := calls [ChangeAttribute 0 Kname (AString "a") (AString "b"); Undo;
                  SwapCell 0 RNull RNull; Undo; Undo]
             (create [cell_a] [RObj 0]) in
  history s !! i s = Some (changeAttributeE 0 Kname (AString "a") (AString "b")) ∧
  i s = 0 ∧ i (redo s).1 = 0.
Proof. vm_compute. done. Qed.

End HistoryProofs.

(** * The undo/redo inverse law *)

Module InverseLaw.
Import MapLayoutHistory HistorySpec HistoryProofs.

#[local] Arguments addHistoryEntry : simpl never.

(** ** Attributes *)

Lemma set_attribute_set c a x y :
  set_attribute (set_attribute c a x) a y = set_attribute c a y.
Proof. by destruct a. Qed.

Lemma set_attribute_get c a :
  set_attribute c a (get_attribute c a) = c.
Proof. by destruct c, a. Qed.

(** ** Write lists *)

Lemma apply_writes_cons w ws v :
  apply_writes (w :: ws) v = apply_writes ws (alter w.2 w.1 v).
Proof. done. Qed.

Lemma apply_writes_length ws v :
  length (apply_writes ws v) = length v.
Proof.
  revert v. induction ws as [|w ws IH]; intros v; [done|].
  rewrite apply_writes_cons, IH. apply length_alter.
Qed.

(** A slot no write names keeps its content. *)
Lemma apply_writes_other ws v j :
  j ∉ ws.*1 → apply_writes ws v !! j = v !! j.
Proof.
  revert v. induction ws as [|[k f] ws IH]; intros v Hj; [done|].
  rewrite apply_writes_cons, IH.
  - apply list_lookup_alter_ne. simpl. intros ->. apply Hj. simpl. left.
  - intros Hin. apply Hj. simpl. by right.
Qed.

Section Reset.

Variable Q : nat → CellV → Prop.
Variable v0 : list CellV.

Lemma apply_writes_reset ws v j :
  length v = length v0 →
  (∀ k x, v !! k = Some x → Q k x) →
  Forall (resets Q v0) ws → Forall (stays Q) ws →
  apply_writes ws v !! j = if decide (j ∈ ws.*1) then v0 !! j else v !! j.
Proof.
  revert v. induction ws as [|[k f] ws IH]; intros v Hlen HQ Hr Hs.
  { done. }
  apply Forall_cons in Hr as [[Hk Hf] Hr]. apply Forall_cons in Hs as [Hst Hs].
  simpl in Hk, Hf, Hst.
  rewrite apply_writes_cons. simpl.
  rewrite IH; [|by rewrite length_alter| |done|done].
  2:{ intros k' x Hx. destruct (decide (k = k')) as [<-|Hne].
      - rewrite list_lookup_alter in Hx. rewrite decide_True in Hx by done.
        destruct (v !! k) as [y|] eqn:Hy; [|done]. simpl in Hx.
        injection Hx as <-. apply Hst. by apply HQ.
      - rewrite list_lookup_alter_ne in Hx by done. by apply HQ. }
  destruct (decide (j ∈ ws.*1)) as [Hin|Hin].
  - rewrite decide_True; [done|]. by right.
  - destruct (decide (j = k)) as [->|Hne].
    + rewrite decide_True by left.
      rewrite list_lookup_alter, decide_True by done.
      destruct (v !! k) as [y|] eqn:Hy.
      * simpl. symmetry. apply Hf. by apply HQ.
      * apply lookup_ge_None in Hy. lia.
    + rewrite decide_False.
      * by apply list_lookup_alter_ne.
      * intros [?|?]%elem_of_cons; done.
Qed.

(** Writes that keep [Q], followed by resetting writes to the same
    slots, give [v0] back. *)
Lemma apply_writes_inverse rs us :
  (∀ k x, v0 !! k = Some x → Q k x) →
  Forall (stays Q) rs → Forall (resets Q v0) us → Forall (stays Q) us →
  rs.*1 = us.*1 →
  apply_writes us (apply_writes rs v0) = v0.
Proof.
  intros HQ Hrs Hur Hus Hidx.
  assert (∀ ws v, Forall (stays Q) ws → (∀ k x, v !! k = Some x → Q k x) →
            ∀ k x, apply_writes ws v !! k = Some x → Q k x) as Hkeep.
  { induction ws as [|[k f] ws IH]; intros v Hs Hv; [done|].
    apply Forall_cons in Hs as [Hst Hs]. simpl in Hst.
    rewrite apply_writes_cons. apply IH; [done|]. simpl.
    intros k' x Hx. destruct (decide (k = k')) as [<-|Hne].
    - rewrite list_lookup_alter in Hx. rewrite decide_True in Hx by done.
      destruct (v !! k) as [y|] eqn:Hy; [|done]. simpl in Hx.
      injection Hx as <-. apply Hst. by apply Hv.
    - rewrite list_lookup_alter_ne in Hx by done. by apply Hv. }
  apply list_eq. intros j.
  rewrite (apply_writes_reset us (apply_writes rs v0) j); try done.
  - case_decide as Hj; [done|]. apply apply_writes_other. by rewrite Hidx.
  - apply apply_writes_length.
  - by apply Hkeep.
Qed.

End Reset.

(** ** The store *)

Lemma allocated_extends h h' r :
  h `prefix_of` h' → allocated h r → allocated h' r.
Proof.
  intros [k ->] Ha. destruct r; simpl in *; try done.
  rewrite length_app. lia.
Qed.

Lemma deref_extends h h' r :
  h `prefix_of` h' → allocated h r → deref h' r = deref h r.
Proof.
  intros [k ->] Ha. destruct r as [| |l]; [done|done|].
  simpl in *. by rewrite lookup_total_app_l.
Qed.

Lemma deref_fmap_extends h h' (rs : list CellRef) :
  h `prefix_of` h' → Forall (allocated h) rs → deref h' <$> rs = deref h <$> rs.
Proof.
  intros Hp Ha. apply list_eq. intros j. rewrite !list_lookup_fmap.
  destruct (rs !! j) as [r|] eqn:Hr; [|done]. simpl. f_equal.
  apply deref_extends; [done|]. eapply Forall_lookup_1; done.
Qed.

Lemma heap_set_length h l a x : length (heap_set h l a x) = length h.
Proof. apply length_alter. Qed.

Lemma heap_set_other h l l' a x : l ≠ l' → heap_set h l a x !!! l' = h !!! l'.
Proof. intros. by apply list_lookup_total_alter_ne. Qed.

Lemma heap_set_same h l a x :
  l < length h → heap_set h l a x !!! l = set_attribute (h !!! l) a x.
Proof.
  intros. unfold heap_set.
  by rewrite (list_lookup_total_alter_eq (λ c, set_attribute c a x)).
Qed.

Lemma elem_of_ref_locs rs l : l ∈ ref_locs rs ↔ RObj l ∈ rs.
Proof.
  unfold ref_locs. rewrite list_elem_of_omap. split.
  - intros ([| |l'] & Hin & Heq); try done. by injection Heq as ->.
  - intros Hin. by exists (RObj l).
Qed.

(** Writing an attribute of the object in slot [k] is seen in slot [k]
    only, when no object is in two slots. *)
Lemma view_heap_set h (c : list CellRef) k l a x :
  unshared c → Forall (allocated h) c → c !! k = Some (RObj l) →
  deref (heap_set h l a x) <$> c = alter (vset a x) k (deref h <$> c).
Proof.
  intros Hu Ha Hk. apply list_eq. intros j.
  rewrite list_lookup_fmap.
  destruct (decide (k = j)) as [<-|Hne].
  - rewrite list_lookup_alter, decide_True by done.
    rewrite list_lookup_fmap, Hk. simpl. f_equal. f_equal.
    apply heap_set_same. by apply (Forall_lookup_1 _ _ _ _ Ha Hk).
  - rewrite list_lookup_alter_ne by done. rewrite list_lookup_fmap.
    destruct (c !! j) as [[| |l']|] eqn:Hj; try done.
    simpl. f_equal. f_equal. apply heap_set_other.
    intros <-. apply Hne. by apply (Hu k j l).
Qed.

(** ** deepClone *)

Lemma made_nil h : made h h [].
Proof. split; [done|]. split; [constructor|]. by intros l Hl%elem_of_nil. Qed.

Lemma made_app h h1 h2 ls1 ls2 :
  made h h1 ls1 → made h1 h2 ls2 → made h h2 (ls1 ++ ls2).
Proof.
  intros (Hp1 & Hn1 & Hl1) (Hp2 & Hn2 & Hl2).
  pose proof (prefix_length _ _ Hp1). pose proof (prefix_length _ _ Hp2).
  split; [by etrans|]. split.
  - apply NoDup_app. split; [done|]. split; [|done].
    intros l H1%Hl1 H2%Hl2. lia.
  - intros l [H1%Hl1|H2%Hl2]%elem_of_app; lia.
Qed.

Lemma deepClone_cell_spec h r :
  r ≠ RUndefined → allocated h r →
  ∃ h' r', deepClone_cell h r = Some (h', r') ∧
           made h h' (ref_locs [r']) ∧ allocated h' r' ∧ deref h' r' = deref h r.
Proof.
  intros Hr Ha. destruct r as [| |l]; [done| |].
  - exists h, RNull. split; [done|]. split; [apply made_nil|done].
  - exists (h ++ [h !!! l]), (RObj (length h)). split; [done|].
    split; [|split].
    + split; [by apply prefix_app_r|]. split; [apply NoDup_singleton|].
      intros l' ->%list_elem_of_singleton. rewrite length_app. simpl. lia.
    + simpl. rewrite length_app. simpl. lia.
    + simpl. f_equal. rewrite lookup_total_app_r by done.
      by rewrite Nat.sub_diag.
Qed.

Lemma deepClone_cells_spec h rs :
  Forall (allocated h) rs →
  ∃ h' rs', deepClone_cells h rs = (h', rs') ∧
            made h h' (ref_locs rs') ∧ Forall (allocated h') rs' ∧
            length rs' = length rs ∧
            (Forall (λ r, r ≠ RUndefined) rs → deref h' <$> rs' = deref h <$> rs).
Proof.
  revert h. induction rs as [|r rs IH]; intros h Ha.
  { exists h, []. split; [done|]. split; [apply made_nil|]. done. }
  apply Forall_cons in Ha as [Har Ha].
  destruct r as [| |l]; cbn [deepClone_cells alloc].
  - destruct (IH h Ha) as (h2 & rs2 & -> & Hm2 & Ha2 & Hlen & Hd2).
    exists h2, (RNull :: rs2). split; [done|]. split; [done|]. split; [|split].
    + by apply Forall_cons.
    + simpl. by rewrite Hlen.
    + by intros [Hr _]%Forall_cons.
  - destruct (IH h Ha) as (h2 & rs2 & -> & Hm2 & Ha2 & Hlen & Hd2).
    exists h2, (RNull :: rs2). split; [done|]. split; [done|]. split; [|split].
    + by apply Forall_cons.
    + simpl. by rewrite Hlen.
    + intros [_ Hrs]%Forall_cons. rewrite !fmap_cons. f_equal. by apply Hd2.
  - destruct (deepClone_cell_spec h (RObj l)) as (h1 & r1 & Heq & Hm1 & Ha1 & Hd1);
      try done.
    simpl in Heq. injection Heq as <- <-.
    destruct (IH (h ++ [h !!! l])) as (h2 & rs2 & -> & Hm2 & Ha2 & Hlen & Hd2).
    { eapply Forall_impl; [done|]. intros r'. apply allocated_extends. apply Hm1. }
    exists h2, (RObj (length h) :: rs2). split; [done|]. split; [|split; [|split]].
    + change (ref_locs (RObj (length h) :: rs2))
        with (ref_locs [RObj (length h)] ++ ref_locs rs2).
      by eapply made_app.
    + apply Forall_cons. split; [|done]. eapply allocated_extends; [|done]. apply Hm2.
    + simpl. by rewrite Hlen.
    + intros [_ Hrs]%Forall_cons. rewrite !fmap_cons. f_equal.
      * rewrite (deref_extends (h ++ [h !!! l]) h2) by (done || apply Hm2). done.
      * rewrite Hd2 by done. apply deref_fmap_extends; [apply Hm1|done].
Qed.

(** ** The loops, unrolled *)

Lemma arr_get_obj (c : list CellRef) k l :
  arr_get c k = RObj l ↔ c !! k = Some (RObj l).
Proof.
  unfold arr_get. destruct (c !! k) as [r|]; simpl; [|done].
  split; [by intros ->|by intros [= ->]].
Qed.

Lemma arr_set_lt (c : list CellRef) k r :
  k < length c → arr_set c k r = <[k:=r]> c.
Proof. intros. unfold arr_set. by rewrite decide_True. Qed.

Lemma zip_drop_lookup {A B} (l1 : list A) (l2 : list B) k x y :
  l1 !! k = Some x → l2 !! k = Some y →
  drop k (zip l1 l2) = (x, y) :: drop (S k) (zip l1 l2).
Proof.
  intros H1 H2. apply drop_S.
  rewrite lookup_zip_with, H1. simpl. by rewrite H2.
Qed.

Section Loops.

Variables (index : list nat) (a : PureCellKey).

Lemma undo_changeAttributes_unrolled was k n s :
  k + n = length index → length was = length index →
  Forall (λ j, is_obj (arr_get (cells s) j) = true) (drop k index) →
  heap (undo_changeAttributes index a was k n s)
  = set_attrs (cells s) a (drop k (zip index was)) (heap s).
Proof.
  revert k s. induction n as [|n IH]; intros k s Hk Hlen Hobj.
  { simpl. rewrite drop_ge; [done|]. rewrite length_zip. lia. }
  simpl. destruct (index !! k) as [j|] eqn:Hj.
  2:{ apply lookup_ge_None in Hj. lia. }
  destruct (was !! k) as [x|] eqn:Hx.
  2:{ apply lookup_ge_None in Hx. lia. }
  rewrite (drop_S _ _ _ Hj) in Hobj. apply Forall_cons in Hobj as [Hjo Hobj].
  rewrite (zip_drop_lookup _ _ _ _ _ Hj Hx). simpl.
  destruct (arr_get (cells s) j) as [| |l] eqn:Hc; [done|done|].
  unfold attr_get. rewrite Hx. simpl.
  rewrite IH; [|lia|done|].
  - simpl. by case_decide.
  - simpl. by case_decide.
Qed.

Lemma redo_changeAttributes_unrolled became k n s :
  k + n = length index → length became = length index →
  Forall (λ j, is_obj (arr_get (cells s) j) = true) (drop k index) →
  redo_changeAttributes index a became k n s
  = (set_heap s (set_attrs (cells s) a (drop k (zip index became)) (heap s)), Completed).
Proof.
  revert k s. induction n as [|n IH]; intros k s Hk Hlen Hobj.
  { simpl. rewrite drop_ge; [by destruct s|]. rewrite length_zip. lia. }
  simpl. destruct (index !! k) as [j|] eqn:Hj.
  2:{ apply lookup_ge_None in Hj. lia. }
  destruct (became !! k) as [x|] eqn:Hx.
  2:{ apply lookup_ge_None in Hx. lia. }
  rewrite (drop_S _ _ _ Hj) in Hobj. apply Forall_cons in Hobj as [Hjo Hobj].
  rewrite (zip_drop_lookup _ _ _ _ _ Hj Hx). simpl.
  destruct (arr_get (cells s) j) as [| |l] eqn:Hc; [done|done|].
  unfold attr_get. rewrite Hx. simpl.
  by rewrite IH; [|lia|done|done].
Qed.

Lemma changeAttributes_loop_unrolled to k n s :
  k + n = length index → length to = length index →
  Forall (λ j, is_obj (arr_get (cells s) j) = true) (drop k index) →
  changeAttributes_loop index a to k n s
  = (set_heap s (set_attrs (cells s) a (drop k (zip index to)) (heap s)), Completed).
Proof.
  revert k s. induction n as [|n IH]; intros k s Hk Hlen Hobj.
  { simpl. rewrite drop_ge; [by destruct s|]. rewrite length_zip. lia. }
  simpl. destruct (index !! k) as [j|] eqn:Hj.
  2:{ apply lookup_ge_None in Hj. lia. }
  destruct (to !! k) as [x|] eqn:Hx.
  2:{ apply lookup_ge_None in Hx. lia. }
  rewrite (drop_S _ _ _ Hj) in Hobj. apply Forall_cons in Hobj as [Hjo Hobj].
  rewrite (zip_drop_lookup _ _ _ _ _ Hj Hx). simpl.
  destruct (arr_get (cells s) j) as [| |l] eqn:Hc; [done|done|].
  unfold attr_get. rewrite Hx. simpl.
  by rewrite IH; [|lia|done|done].
Qed.

Lemma write_cells_unrolled side k n c :
  k + n = length index → length side = length index →
  Forall (λ j, j < length c) (drop k index) →
  write_cells index side k n c = set_slots (drop k (zip index side)) c.
Proof.
  revert k c. induction n as [|n IH]; intros k c Hk Hlen Hin.
  { simpl. rewrite drop_ge; [done|]. rewrite length_zip. lia. }
  simpl. destruct (index !! k) as [j|] eqn:Hj.
  2:{ apply lookup_ge_None in Hj. lia. }
  destruct (side !! k) as [x|] eqn:Hx.
  2:{ apply lookup_ge_None in Hx. lia. }
  rewrite (drop_S _ _ _ Hj) in Hin. apply Forall_cons in Hin as [Hjl Hin].
  rewrite (zip_drop_lookup _ _ _ _ _ Hj Hx). simpl.
  unfold arr_get at 1. rewrite Hx. simpl. rewrite arr_set_lt by done.
  rewrite IH; [done|lia|done|].
  eapply Forall_impl; [done|]. intros j' ?. by rewrite length_insert.
Qed.

End Loops.

(** ** The loops on the grid of values *)

Lemma set_attrs_view c a ws h :
  unshared c → Forall (allocated h) c →
  Forall (λ w, is_obj (arr_get c w.1) = true) ws →
  deref (set_attrs c a ws h) <$> c = apply_writes (attr_write a <$> ws) (deref h <$> c) ∧
  length (set_attrs c a ws h) = length h ∧
  (∀ l, RObj l ∉ c → set_attrs c a ws h !!! l = h !!! l).
Proof.
  intros Hu. revert h. induction ws as [|[k x] ws IH]; intros h Ha Hobj; [done|].
  apply Forall_cons in Hobj as [Hk Hobj]. simpl in Hk.
  unfold set_attrs. simpl.
  destruct (arr_get c k) as [| |l] eqn:Hc; [done|done|].
  apply arr_get_obj in Hc.
  destruct (IH (heap_set h l a x)) as (Hv & Hl & Ho); [|done|].
  { eapply Forall_impl; [done|]. intros [| |l']; simpl; try done.
    by rewrite heap_set_length. }
  fold (set_attrs c a ws (heap_set h l a x)).
  split; [|split].
  - rewrite Hv. by rewrite (view_heap_set h c k l a x).
  - by rewrite Hl, heap_set_length.
  - intros l' Hl'. rewrite Ho by done. apply heap_set_other.
    intros ->. apply Hl'. by eapply list_elem_of_lookup_2.
Qed.

Lemma set_slots_view h ws (c : list CellRef) :
  deref h <$> set_slots ws c = apply_writes (cell_write h <$> ws) (deref h <$> c).
Proof.
  revert c. induction ws as [|[k r] ws IH]; intros c; [done|].
  change (set_slots ((k, r) :: ws) c) with (set_slots ws (<[k:=r]> c)).
  rewrite IH, fmap_cons, apply_writes_cons. cbn [cell_write fst snd].
  by rewrite list_fmap_insert, list_insert_alter.
Qed.

Lemma set_slots_length ws (c : list CellRef) :
  length (set_slots ws c) = length c.
Proof.
  revert c. induction ws as [|[k r] ws IH]; intros c; [done|].
  change (set_slots ((k, r) :: ws) c) with (set_slots ws (<[k:=r]> c)).
  by rewrite IH, length_insert.
Qed.

(** Slots filled with objects that are new to the grid and all
    different: still no object is in two slots. *)
Lemma set_slots_unshared ws (c : list CellRef) :
  unshared c → NoDup (ref_locs ws.*2) →
  (∀ l, l ∈ ref_locs ws.*2 → RObj l ∉ c) →
  unshared (set_slots ws c) ∧
  (∀ r, r ∈ set_slots ws c → r ∈ c ∨ r ∈ ws.*2).
Proof.
  revert c. induction ws as [|[k r] ws IH]; intros c Hu Hn Hnew.
  { split; [done|]. intros r Hr. by left. }
  change (set_slots ((k, r) :: ws) c) with (set_slots ws (<[k:=r]> c)).
  cbn [fmap list_fmap snd] in *.
  assert (NoDup (ref_locs ws.*2) ∧ ∀ l, r = RObj l → l ∉ ref_locs ws.*2) as [Hn' Hr].
  { destruct r as [| |l]; simpl in Hn; [by split|by split|].
    apply NoDup_cons in Hn as [? ?]. split; [done|]. by intros ? [= <-]. }
  destruct (IH (<[k:=r]> c)) as [Hu' Hsub]; [| done | |].
  - intros j1 j2 l H1 H2.
    destruct (decide (r = RObj l)) as [->|Hne].
    + assert (∀ j, <[k:=RObj l]> c !! j = Some (RObj l) → j = k) as Hk.
      { intros j Hj. destruct (decide (k = j)) as [<-|Hkj]; [done|].
        rewrite list_lookup_insert_ne in Hj by done. exfalso.
        apply (Hnew l); [simpl; left|]. by eapply list_elem_of_lookup_2. }
      by rewrite (Hk j1 H1), (Hk j2 H2).
    + assert (∀ j, <[k:=r]> c !! j = Some (RObj l) → c !! j = Some (RObj l)) as Hk.
      { intros j Hj. destruct (decide (k = j)) as [<-|Hkj].
        - apply list_lookup_insert_Some in Hj as [(_ & Heq & _)|[? _]]; done.
        - by rewrite list_lookup_insert_ne in Hj. }
      by apply (Hu j1 j2 l); apply Hk.
  - intros l Hl Hin. apply list_elem_of_lookup in Hin as [j Hj].
    destruct (decide (k = j)) as [<-|Hkj].
    + apply list_lookup_insert_Some in Hj as [(_ & Heq & _)|[? _]]; [|done].
      by apply (Hr l).
    + rewrite list_lookup_insert_ne in Hj by done.
      apply (Hnew l); [|by eapply list_elem_of_lookup_2].
      destruct r; simpl; try done. by right.
  - split; [done|]. intros r' Hr'. destruct (Hsub r' Hr') as [Hin|Hin].
    + apply list_elem_of_lookup in Hin as [j Hj].
      destruct (decide (k = j)) as [<-|Hkj].
      * apply list_lookup_insert_Some in Hj as [(_ & Heq & _)|[? _]]; [|done].
        right. rewrite Heq. left.
      * rewrite list_lookup_insert_ne in Hj by done. left.
        by eapply list_elem_of_lookup_2.
    + right. simpl. by right.
Qed.

(** ** What one step of undo or redo does *)

(** A state whose store and grid come from those of [s] by attribute
    writes [A] or by slot writes [S] that bring in objects of [P]. *)
Lemma effect_apart s s' P P' key A S :
  apart s P → P ≡ₚ ref_locs S.*2 ++ P' →
  A = [] ∨ S = [] →
  Forall (λ w, is_obj (arr_get (cells s) w.1) = true) A →
  heap s' = set_attrs (cells s) key A (heap s) →
  cells s' = set_slots S (cells s) →
  view s' = apply_writes ((attr_write key <$> A) ++ (cell_write (heap s) <$> S)) (view s) ∧
  apart s' P' ∧
  length (heap s') = length (heap s) ∧
  (∀ l, RObj l ∉ cells s → heap s' !!! l = heap s !!! l).
Proof.
  intros [Hu Hc Hn Hal Hsep] HP Hone Hobj Hh Hcs.
  assert (NoDup (ref_locs S.*2) ∧ NoDup P' ∧
          (∀ l, l ∈ ref_locs S.*2 → l ∈ P ∧ l ∉ P') ∧ (∀ l, l ∈ P' → l ∈ P))
    as (HnS & HnP' & HS & HP').
  { rewrite HP in Hn. apply NoDup_app in Hn as (? & Hd & ?).
    split; [done|]. split; [done|]. split.
    - intros l Hl. split; [|by apply Hd]. rewrite HP. apply elem_of_app. by left.
    - intros l Hl. rewrite HP. apply elem_of_app. by right. }
  destruct (set_attrs_view (cells s) key A (heap s) Hu Hc Hobj) as (Hv & Hlen & Hoth).
  destruct (set_slots_unshared S (cells s) Hu HnS) as [Hu' Hsub].
  { intros l Hl Hin. apply (Hsep l Hin). by apply HS. }
  unfold view. rewrite Hh, Hcs.
  split; [|split; [|split]]; [| |done|done].
  - destruct Hone as [-> | ->].
    + simpl. apply set_slots_view.
    + simpl. rewrite app_nil_r. apply Hv.
  - split.
    + by rewrite Hcs.
    + rewrite Hh, Hcs. apply Forall_forall. intros r Hr.
      destruct r as [| |l]; simpl; [done|done|]. rewrite Hlen.
      destruct (Hsub _ Hr) as [Hin|Hin].
      * by apply (proj1 (Forall_forall _ _) Hc (RObj l)).
      * apply Hal. apply HS. by apply elem_of_ref_locs.
    + done.
    + intros l Hl. rewrite Hh, Hlen. by apply Hal, HP'.
    + rewrite Hcs. intros l Hr Hl.
      destruct (Hsub _ Hr) as [Hin|Hin].
      * by apply (Hsep l Hin), HP'.
      * apply elem_of_ref_locs in Hin. by apply (HS l Hin).
Qed.

Lemma view_obj s k c :
  view s !! k = Some (VObj c) → ∃ l, cells s !! k = Some (RObj l) ∧ arr_get (cells s) k = RObj l.
Proof.
  unfold view. rewrite list_lookup_fmap.
  destruct (cells s !! k) as [[| |l]|] eqn:Hk; try done.
  intros _. exists l. split; [done|]. by apply arr_get_obj.
Qed.

Lemma view_length s : length (view s) = length (cells s).
Proof. unfold view. apply length_fmap. Qed.

(** What [targets_ok] gives for the two kinds of writes. *)
Lemma targets_ok_writes s e :
  targets_ok (view s) e →
  Forall (λ w, is_obj (arr_get (cells s) w.1) = true) (undo_attrs e) ∧
  Forall (λ w, is_obj (arr_get (cells s) w.1) = true) (redo_attrs e) ∧
  ref_locs (undo_slots e).*2 = was_locs e ∧
  ref_locs (redo_slots e).*2 = became_locs e.
Proof.
  assert (∀ (xs : list attributeContent) index,
            Forall (λ k, ∃ c, view s !! k = Some (VObj c)) index →
            Forall (λ w, is_obj (arr_get (cells s) w.1) = true) (zip index xs)) as Hz.
  { intros xs index Hf. apply Forall_forall. intros [k x] Hin.
    apply elem_of_zip_l in Hin. simpl in *.
    destruct (proj1 (Forall_forall _ _) Hf k Hin) as [c Hc].
    destruct (view_obj s k c Hc) as (l & _ & ->). done. }
  destruct e as [index a w b|index a w b|index w b|index w b]; simpl.
  - intros [c Hc]. destruct (view_obj s index c Hc) as (l & _ & Hl).
    repeat split; try done; apply Forall_singleton; simpl; by rewrite Hl.
  - intros (Hw & Hb & Hf). repeat split; try done; by apply Hz.
  - intros _. repeat split; done.
  - intros (Hw & Hb & Hf). repeat split; try done.
    + by rewrite snd_zip by lia.
    + by rewrite snd_zip by lia.
Qed.

Lemma undo_effect s k e :
  i s = S k → history s !! k = Some e → targets_ok (view s) e →
  i (undo s).1 = k ∧ history (undo s).1 = history s ∧
  heap (undo s).1 = set_attrs (cells s) (entry_key e) (undo_attrs e) (heap s) ∧
  cells (undo s).1 = set_slots (undo_slots e) (cells s).
Proof.
  intros Hi He Hok.
  destruct (undo_log s) as [Hh Hc]. split; [|split; [done|]].
  { rewrite Hc, decide_False; [lia|]. intros [Hn|?]; [|lia]. by rewrite Hn in He. }
  clear Hh Hc. unfold undo.
  destruct (decide (length (history s) = 0)) as [Hl|_].
  { apply length_zero_iff_nil in Hl. by rewrite Hl in He. }
  rewrite decide_True by lia. simpl. rewrite Hi. simpl. rewrite Nat.sub_0_r, He.
  destruct e as [index a w b|index a w b|index w b|index w b]; simpl in Hok |- *.
  - destruct Hok as [c Hc]. destruct (view_obj s index c Hc) as (l & _ & Hl).
    unfold set_attrs. simpl. by rewrite Hl.
  - destruct Hok as (Hw & Hb & Hf).
    destruct (undo_changeAttributes_log index a w 0 (length index) (set_i s k))
      as (_ & _ & ->).
    split; [|done].
    rewrite undo_changeAttributes_unrolled; [by rewrite drop_0|done|done|].
    rewrite drop_0. eapply Forall_impl; [done|]. intros j [c Hc]. simpl.
    by destruct (view_obj s j c Hc) as (l & _ & ->).
  - rewrite view_length in Hok. by rewrite arr_set_lt.
  - destruct Hok as (Hw & Hb & Hf). split; [done|].
    rewrite write_cells_unrolled; [by rewrite drop_0|done|done|].
    rewrite drop_0. eapply Forall_impl; [done|]. intros j. by rewrite view_length.
Qed.

Lemma redo_effect s e :
  history s !! i s = Some e → targets_ok (view s) e →
  (redo s).2 = Return ∧
  i (redo s).1 = i s + 1 ∧ history (redo s).1 = history s ∧
  heap (redo s).1 = set_attrs (cells s) (entry_key e) (redo_attrs e) (heap s) ∧
  cells (redo s).1 = set_slots (redo_slots e) (cells s).
Proof.
  intros He Hok. unfold redo.
  destruct (decide (length (history s) = 0)) as [Hl|_].
  { apply length_zero_iff_nil in Hl. by rewrite Hl in He. }
  rewrite He.
  destruct e as [index a w b|index a w b|index w b|index w b]; simpl in Hok |- *.
  - destruct Hok as [c Hc]. destruct (view_obj s index c Hc) as (l & _ & Hl).
    unfold set_attrs. simpl. by rewrite Hl.
  - destruct Hok as (Hw & Hb & Hf).
    rewrite redo_changeAttributes_unrolled; [by rewrite drop_0|done|done|].
    rewrite drop_0. eapply Forall_impl; [done|]. intros j [c Hc]. simpl.
    by destruct (view_obj s j c Hc) as (l & _ & ->).
  - rewrite view_length in Hok. by rewrite arr_set_lt.
  - destruct Hok as (Hw & Hb & Hf). repeat split; try done.
    rewrite write_cells_unrolled; [by rewrite drop_0|done|done|].
    rewrite drop_0. eapply Forall_impl; [done|]. intros j. by rewrite view_length.
Qed.

(** ** What one commit does *)

Lemma apart_perm s P P' : P ≡ₚ P' → apart s P → apart s P'.
Proof.
  intros HP [Hu Hc Hn Hal Hsep]. split; [done|done| | |].
  - by rewrite <- HP.
  - intros l Hl. apply Hal. by rewrite HP.
  - intros l Hr Hl. apply (Hsep l Hr). by rewrite HP.
Qed.

Lemma hist_locs_snoc es e :
  hist_locs (es ++ [e]) ≡ₚ hist_locs es ++ (was_locs e ++ became_locs e).
Proof.
  unfold hist_locs. rewrite !bind_app. simpl. rewrite !app_nil_r.
  rewrite <- !(assoc_L (++)). f_equiv.
  rewrite !(assoc_L (++)). f_equiv. apply Permutation_app_comm.
Qed.

(** New objects next to a grid and a list of objects that were there
    before; the objects [lsR] among the new ones may be in the grid. *)
Lemma apart_made s s' P lsR ls :
  apart s P → made (heap s) (heap s') (lsR ++ ls) →
  unshared (cells s') →
  (∀ l, RObj l ∈ cells s' → (l < length (heap s) ∧ l ∉ P) ∨ l ∈ lsR) →
  apart s' (P ++ ls).
Proof.
  intros [Hu Hc Hn Hal Hsep] (Hpre & Hnl & Hls) Hu' Hc'.
  pose proof (prefix_length _ _ Hpre) as Hlen.
  apply NoDup_app in Hnl as (HnR & Hdis & Hnls).
  split; [done| | | |].
  - apply Forall_forall. intros [| |l] Hr; simpl; [done|done|].
    destruct (Hc' l Hr) as [[? _]|Hin]; [lia|].
    apply (Hls l). apply elem_of_app. by left.
  - apply NoDup_app. split; [done|]. split; [|done].
    intros l H1%Hal H2. assert (length (heap s) ≤ l); [|lia].
    apply (Hls l). apply elem_of_app. by right.
  - intros l [H1%Hal|H2]%elem_of_app; [lia|].
    apply (Hls l). apply elem_of_app. by right.
  - intros l Hr [H1|H2]%elem_of_app.
    + destruct (Hc' l Hr) as [[_ ?]|Hin]; [done|].
      apply Hal in H1. assert (length (heap s) ≤ l); [|lia].
      apply (Hls l). apply elem_of_app. by left.
    + destruct (Hc' l Hr) as [[? _]|Hin].
      * assert (length (heap s) ≤ l); [|lia].
        apply (Hls l). apply elem_of_app. by right.
      * by apply (Hdis l).
Qed.

Lemma apply_attr_writes_obj a A v k c :
  v !! k = Some (VObj c) →
  ∃ c', apply_writes (attr_write a <$> A) v !! k = Some (VObj c').
Proof.
  revert v c. induction A as [|[j x] A IH]; intros v c Hk; [by exists c|].
  rewrite fmap_cons, apply_writes_cons. cbn [attr_write fst snd].
  destruct (decide (j = k)) as [->|Hne].
  - eapply IH. rewrite list_lookup_alter, decide_True by done. by rewrite Hk.
  - eapply IH. by rewrite list_lookup_alter_ne.
Qed.

Lemma attr_write_stays a v0 w : stays (attr_varies a v0) (attr_write a w).
Proof.
  destruct w as [k z]. intros x. cbn [attr_write fst snd]. intros [Hx|(c & y & Hc & ->)].
  - destruct x as [| |c]; [by left|by left|]. right. by exists c, z.
  - right. exists c, z. split; [done|]. simpl. by rewrite set_attribute_set.
Qed.

Lemma attr_write_resets a v0 k z c :
  v0 !! k = Some (VObj c) → get_attribute c a = z →
  resets (attr_varies a v0) v0 (attr_write a (k, z)).
Proof.
  intros Hc <-. split; cbn [attr_write fst snd].
  - by apply lookup_lt_Some in Hc.
  - intros x [Hx|(c' & y & Hc' & ->)].
    + rewrite Hc in Hx. injection Hx as <-. rewrite Hc. simpl.
      by rewrite set_attribute_get.
    + rewrite Hc in Hc'. injection Hc' as <-. rewrite Hc. simpl.
      by rewrite set_attribute_set, set_attribute_get.
Qed.

(** The attribute commits: the new values are written, the old values
    given are those of the grid. *)
Lemma attr_step s s' P a index from to :
  apart s P →
  length from = length index → length to = length index →
  Forall2 (λ k x, ∃ c, view s !! k = Some (VObj c) ∧ get_attribute c a = x) index from →
  heap s' = set_attrs (cells s) a (zip index to) (heap s) →
  cells s' = cells s →
  apart s' P ∧
  (∀ l, l ∈ P → heap s' !!! l = heap s !!! l) ∧
  Forall (λ k, ∃ c, view s !! k = Some (VObj c)) index ∧
  Forall (λ k, ∃ c, view s' !! k = Some (VObj c)) index ∧
  apply_writes (attr_write a <$> zip index to) (view s) = view s' ∧
  apply_writes (attr_write a <$> zip index from) (view s') = view s.
Proof.
  intros Hap Hlf Hlt Hacc Hh Hc.
  assert (Forall (λ k, ∃ c, view s !! k = Some (VObj c)) index) as Hobj.
  { apply Forall_forall. intros k Hk.
    apply list_elem_of_lookup in Hk as [j Hj].
    destruct (Forall2_lookup_l _ _ _ _ _ Hacc Hj) as (x & _ & c & Hc' & _). by exists c. }
  assert (Forall (λ w, is_obj (arr_get (cells s) w.1) = true) (zip index to)) as HA.
  { apply Forall_forall. intros [k x] Hin. apply elem_of_zip_l in Hin. simpl in *.
    destruct (proj1 (Forall_forall _ _) Hobj k Hin) as [c Hc'].
    by destruct (view_obj s k c Hc') as (l & _ & ->). }
  destruct (effect_apart s s' P P a (zip index to) [] Hap (reflexivity P)
              (or_intror eq_refl) HA Hh Hc) as (Hv & Hap' & Hlen & Hoth).
  rewrite app_nil_r in Hv.
  split; [done|]. split.
  { intros l Hl. apply Hoth. intros Hr. by apply (apart_sep _ _ Hap l Hr). }
  split; [done|]. split.
  { rewrite Hv. eapply Forall_impl; [done|]. intros k [c Hc'].
    by apply (apply_attr_writes_obj a _ _ k c). }
  split; [done|]. rewrite Hv.
  apply (apply_writes_inverse (attr_varies a (view s))).
  - intros k x Hx. by left.
  - apply Forall_forall. intros w (w' & -> & _)%list_elem_of_fmap. apply attr_write_stays.
  - apply Forall_forall. intros w ([k x] & -> & Hin)%list_elem_of_fmap.
    apply list_elem_of_lookup in Hin as [j Hj].
    apply lookup_zip_with_Some in Hj as (k' & x' & [= <- <-] & Hk & Hx).
    destruct (Forall2_lookup_l _ _ _ _ _ Hacc Hk) as (x'' & Hx'' & c & Hc' & Hg).
    rewrite Hx in Hx''. injection Hx'' as <-.
    by apply (attr_write_resets a (view s) k x c).
  - apply Forall_forall. intros w (w' & -> & _)%list_elem_of_fmap. apply attr_write_stays.
  - rewrite <- !list_fmap_compose.
    change (fst ∘ attr_write a) with (fst : nat * attributeContent → nat).
    rewrite !fst_zip by lia. done.
Qed.

Lemma cell_writes_ext h1 h2 (index : list nat) (r1 r2 : list CellRef) :
  deref h1 <$> r1 = deref h2 <$> r2 →
  cell_write h1 <$> zip index r1 = cell_write h2 <$> zip index r2.
Proof.
  revert r1 r2. induction index as [|k index IH]; intros r1 r2 Heq; [done|].
  destruct r1 as [|x1 r1], r2 as [|x2 r2]; try done.
  rewrite !fmap_cons in Heq. injection Heq as Hx Hr.
  simpl. unfold cell_write at 1 3. simpl. rewrite Hx. f_equal. by apply IH.
Qed.

(** The swap commits: the references [R] are put into the slots, the
    log gets the new objects [W] and [B]. *)
Lemma swap_step s s' P lsR index R W B :
  apart s P →
  made (heap s) (heap s') (lsR ++ (ref_locs W ++ ref_locs B)) →
  cells s' = set_slots (zip index R) (cells s) →
  length R = length index → length W = length index → length B = length index →
  NoDup (ref_locs R) →
  (∀ l, l ∈ ref_locs R →
     (RObj l ∉ cells s) ∧ ((l < length (heap s) ∧ l ∉ P) ∨ l ∈ lsR)) →
  Forall2 (λ k w, view s !! k = Some (deref (heap s') w)) index W →
  deref (heap s') <$> B = deref (heap s') <$> R →
  apart s' (P ++ (ref_locs W ++ ref_locs B)) ∧
  (∀ l, l ∈ P → heap s' !!! l = heap s !!! l) ∧
  apply_writes (cell_write (heap s') <$> zip index B) (view s) = view s' ∧
  apply_writes (cell_write (heap s') <$> zip index W) (view s') = view s.
Proof.
  intros Hap Hmade Hc HlR HlW HlB HnR HR HW HB.
  pose proof Hap as [Hu Hca Hn Hal Hsep].
  pose proof Hmade as (Hpre & _ & _).
  destruct (set_slots_unshared (zip index R) (cells s) Hu) as [Hu' Hsub].
  { by rewrite snd_zip by lia. }
  { rewrite snd_zip by lia. intros l Hl. by apply HR. }
  rewrite snd_zip in Hsub by lia.
  assert (view s' = apply_writes (cell_write (heap s') <$> zip index B) (view s)) as Hv.
  { unfold view. rewrite Hc, set_slots_view.
    rewrite (deref_fmap_extends (heap s) (heap s')) by done.
    f_equal. by apply cell_writes_ext. }
  split; [|split; [|split]].
  - apply (apart_made s s' P lsR); [done|done|by rewrite Hc|].
    rewrite Hc. intros l Hr. destruct (Hsub _ Hr) as [Hl|Hl].
    + left. split.
      * by apply (proj1 (Forall_forall _ _) Hca (RObj l)).
      * by apply Hsep.
    + apply elem_of_ref_locs in Hl. by destruct (HR l Hl) as [_ ?].
  - intros l Hl%Hal. destruct Hpre as [k ->]. by apply lookup_total_app_l.
  - done.
  - rewrite Hv. apply (apply_writes_inverse (λ _ _, True)).
    + done.
    + by apply Forall_forall.
    + apply Forall_forall. intros w ([k x] & -> & Hkx)%list_elem_of_fmap.
      apply list_elem_of_lookup in Hkx as [j Hj].
      apply lookup_zip_with_Some in Hj as (k' & x' & [= <- <-] & Hk & Hx).
      destruct (Forall2_lookup_l _ _ _ _ _ HW Hk) as (x'' & Hx'' & Hvk).
      rewrite Hx in Hx''. injection Hx'' as <-.
      split; cbn [cell_write fst snd].
      * apply lookup_lt_Some in Hvk. done.
      * by intros _ _.
    + by apply Forall_forall.
    + rewrite <- !list_fmap_compose.
      change (fst ∘ cell_write (heap s')) with (fst : nat * CellRef → nat).
      rewrite !fst_zip by lia. done.
Qed.

(** ** addHistoryEntry at the end of the log *)

Lemma deepClone_attrs_id xs :
  Forall (λ x, x ≠ AUndefined) xs → deepClone_attrs xs = xs.
Proof.
  intros Hx. unfold deepClone_attrs. rewrite <- (list_fmap_id xs) at 2.
  apply Forall_fmap_ext_1. eapply Forall_impl; [done|]. by intros [].
Qed.

Lemma addHistoryEntry_attr s index a w b :
  i s = length (history s) → w ≠ AUndefined → b ≠ AUndefined →
  addHistoryEntry (changeAttributeE index a w b) s
  = (mk (heap s) (cells s) (history s ++ [changeAttributeE index a w b])
       (length (history s ++ [changeAttributeE index a w b])) (console s), Return).
Proof.
  intros Hi Hw Hb. unfold addHistoryEntry.
  rewrite decide_False by lia.
  destruct w; [done|..]; destruct b; try done.
Qed.

Lemma addHistoryEntry_attrs s index a w b :
  i s = length (history s) →
  Forall (λ x, x ≠ AUndefined) w → Forall (λ x, x ≠ AUndefined) b →
  addHistoryEntry (changeAttributesE index a w b) s
  = (mk (heap s) (cells s) (history s ++ [changeAttributesE index a w b])
       (length (history s ++ [changeAttributesE index a w b])) (console s), Return).
Proof.
  intros Hi Hw Hb. unfold addHistoryEntry.
  rewrite decide_False by lia. by rewrite !deepClone_attrs_id.
Qed.

Lemma addHistoryEntry_cell s index w b :
  i s = length (history s) →
  w ≠ RUndefined → b ≠ RUndefined → allocated (heap s) w → allocated (heap s) b →
  ∃ h' w' b',
    addHistoryEntry (swappedCellE index w b) s
    = (mk h' (cells s) (history s ++ [swappedCellE index w' b'])
         (length (history s ++ [swappedCellE index w' b'])) (console s), Return) ∧
    made (heap s) h' (ref_locs [w'] ++ ref_locs [b']) ∧
    deref h' w' = deref (heap s) w ∧ deref h' b' = deref (heap s) b.
Proof.
  intros Hi Hw Hb Haw Hab. unfold addHistoryEntry.
  rewrite decide_False by lia.
  destruct (deepClone_cell_spec (heap s) w Hw Haw) as (h1 & w' & -> & Hm1 & Ha1 & Hd1).
  destruct (deepClone_cell_spec h1 b Hb) as (h2 & b' & -> & Hm2 & Ha2 & Hd2).
  { eapply allocated_extends; [apply Hm1|done]. }
  exists h2, w', b'. split; [done|]. split; [by eapply made_app|]. split.
  - rewrite (deref_extends h1 h2); [done|apply Hm2|done].
  - rewrite Hd2. apply deref_extends; [apply Hm1|done].
Qed.

Lemma addHistoryEntry_cells s index w b :
  i s = length (history s) →
  Forall (λ r, r ≠ RUndefined ∧ allocated (heap s) r) w →
  Forall (λ r, r ≠ RUndefined ∧ allocated (heap s) r) b →
  ∃ h' w' b',
    addHistoryEntry (swappedCellsE index w b) s
    = (mk h' (cells s) (history s ++ [swappedCellsE index w' b'])
         (length (history s ++ [swappedCellsE index w' b'])) (console s), Return) ∧
    made (heap s) h' (ref_locs w' ++ ref_locs b') ∧
    length w' = length w ∧ length b' = length b ∧
    deref h' <$> w' = deref (heap s) <$> w ∧ deref h' <$> b' = deref (heap s) <$> b.
Proof.
  intros Hi Hw Hb. unfold addHistoryEntry.
  rewrite decide_False by lia.
  apply Forall_and in Hw as [Hwu Hwa]. apply Forall_and in Hb as [Hbu Hba].
  destruct (deepClone_cells_spec (heap s) w Hwa) as (h1 & w' & -> & Hm1 & Ha1 & Hl1 & Hd1).
  destruct (deepClone_cells_spec h1 b) as (h2 & b' & -> & Hm2 & Ha2 & Hl2 & Hd2).
  { eapply Forall_impl; [done|]. intros r. apply allocated_extends. apply Hm1. }
  exists h2, w', b'. split; [done|]. split; [by eapply made_app|].
  split; [done|]. split; [done|]. split.
  - rewrite (deref_fmap_extends h1 h2); [by apply Hd1|apply Hm2|done].
  - rewrite Hd2 by done. apply deref_fmap_extends; [apply Hm1|done].
Qed.

Lemma swapCells_loop_unrolled index to k n s :
  k + n = length index → length to = length index →
  Forall (λ r, r ≠ RUndefined) (drop k to) →
  Forall (λ j, j < length (cells s)) (drop k index) →
  swapCells_loop index to k n s
  = (set_cells (set_heap s (deepClone_cells (heap s) (drop k to)).1)
       (set_slots (zip (drop k index) (deepClone_cells (heap s) (drop k to)).2) (cells s)),
     Completed).
Proof.
  revert k s. induction n as [|n IH]; intros k s Hk Hlen Hu Hin.
  { simpl. rewrite !drop_ge by lia. by destruct s. }
  cbn [swapCells_loop]. destruct (index !! k) as [j|] eqn:Hj.
  2:{ apply lookup_ge_None in Hj. lia. }
  destruct (to !! k) as [r|] eqn:Hr.
  2:{ apply lookup_ge_None in Hr. lia. }
  rewrite (drop_S _ _ _ Hj) in Hin |- *. rewrite (drop_S _ _ _ Hr) in Hu |- *.
  apply Forall_cons in Hin as [Hjl Hin]. apply Forall_cons in Hu as [Hru Hu].
  unfold arr_get. rewrite Hr. change (default RUndefined (Some r)) with r.
  destruct r as [| |l]; [done| |]; cbn [deepClone_cell deepClone_cells alloc].
  - rewrite IH; [|lia|done|done|].
    2:{ cbn. rewrite arr_set_lt by done. eapply Forall_impl; [done|].
        intros j' ?. by rewrite length_insert. }
    cbn. rewrite arr_set_lt by done.
    by destruct (deepClone_cells (heap s) (drop (S k) to)).
  - rewrite IH; [|lia|done|done|].
    2:{ cbn. rewrite arr_set_lt by done. eapply Forall_impl; [done|].
        intros j' ?. by rewrite length_insert. }
    cbn. rewrite arr_set_lt by done.
    by destruct (deepClone_cells (heap s ++ [heap s !!! l]) (drop (S k) to)).
Qed.

(** ** One accurate commit *)

Lemma changeAttribute_step s index a from to :
  i s = length (history s) → apart s (hist_locs (history s)) →
  accurate s (ChangeAttribute index a from to) →
  ∃ e, (changeAttribute index a from to s).2 = Return ∧
       committed s (changeAttribute index a from to s).1 e.
Proof.
  intros Hi Hap (Hf & Ht & c & Hc & Hg).
  destruct (view_obj s index c Hc) as (l & Hl & Hal).
  unfold changeAttribute. rewrite Hal.
  rewrite addHistoryEntry_attr by done. cbn [fst snd set_heap heap cells history i].
  set (s' := mk _ _ _ _ _).
  exists (changeAttributeE index a from to). split; [done|].
  destruct (attr_step s s' (hist_locs (history s)) a [index] [from] [to])
    as (Hap' & Hh & Ho & Ho' & Hr & Hu); try done.
  { apply Forall2_cons. split; [by exists c|constructor]. }
  { unfold set_attrs. simpl. by rewrite Hal. }
  split; [done|]. split; [done|]. split.
  { eapply apart_perm; [symmetry; apply hist_locs_snoc|].
    simpl. rewrite app_nil_r. exact Hap'. }
  split; [done|]. split; [by exists c|]. split.
  { apply (Forall_singleton (λ k, ∃ c, view s' !! k = Some (VObj c))) in Ho'. exact Ho'. }
  unfold redo_writes, undo_writes. cbn [redo_attrs undo_attrs redo_slots undo_slots
    entry_key fmap list_fmap].
  by rewrite !app_nil_r.
Qed.

Lemma changeAttributes_step s index a from to :
  i s = length (history s) → apart s (hist_locs (history s)) →
  accurate s (ChangeAttributes index a from to) →
  ∃ e, (changeAttributes index a from to s).2 = Return ∧
       committed s (changeAttributes index a from to s).1 e.
Proof.
  intros Hi Hap (Hlt & Hf & Ht & Hacc).
  pose proof (Forall2_length _ _ _ Hacc) as Hlf.
  assert (Forall (λ k, ∃ c, view s !! k = Some (VObj c)) index) as Hobj.
  { apply Forall_forall. intros k Hk.
    apply list_elem_of_lookup in Hk as [j Hj].
    destruct (Forall2_lookup_l _ _ _ _ _ Hacc Hj) as (x & _ & c & Hc' & _). by exists c. }
  unfold changeAttributes.
  rewrite changeAttributes_loop_unrolled; [|done|done|].
  2:{ rewrite drop_0. eapply Forall_impl; [done|]. intros j [c Hc]. simpl.
      by destruct (view_obj s j c Hc) as (l & _ & ->). }
  rewrite drop_0. rewrite addHistoryEntry_attrs by done.
  cbn [fst snd set_heap heap cells history i].
  set (s' := mk _ _ _ _ _).
  exists (changeAttributesE index a from to). split; [done|].
  destruct (attr_step s s' (hist_locs (history s)) a index from to)
    as (Hap' & Hh & Ho & Ho' & Hr & Hu); try done.
  split; [done|]. split; [done|]. split.
  { eapply apart_perm; [symmetry; apply hist_locs_snoc|].
    simpl. rewrite app_nil_r. exact Hap'. }
  split; [done|]. split; [done|]. split; [done|].
  unfold redo_writes, undo_writes. cbn [redo_attrs undo_attrs redo_slots undo_slots
    entry_key fmap list_fmap].
  by rewrite !app_nil_r.
Qed.

Lemma swapCell_step s index from to :
  i s = length (history s) → apart s (hist_locs (history s)) →
  accurate s (SwapCell index from to) →
  ∃ e, (swapCell index from to s).2 = Return ∧
       committed s (swapCell index from to s).1 e.
Proof.
  intros Hi Hap (Hf & Ht & Haf & Hat & Hv & Hnew).
  assert (index < length (cells s)) as Hlt.
  { rewrite <- view_length. by eapply lookup_lt_Some. }
  unfold swapCell. rewrite arr_set_lt by done.
  destruct (addHistoryEntry_cell (set_cells s (<[index:=to]> (cells s))) index from to)
    as (h' & w' & b' & -> & Hm & Hdw & Hdb); try done.
  cbn [fst snd set_cells heap cells history i] in *.
  set (s' := mk _ _ _ _ _).
  exists (swappedCellE index w' b'). split; [done|].
  pose proof Hm as (Hpre & _ & _).
  destruct (swap_step s s' (hist_locs (history s)) [] [index] [to] [w'] [b'])
    as (Hap' & Hh & Hr & Hu); try done.
  { destruct to; simpl; [constructor|constructor|apply NoDup_singleton]. }
  { intros l Hl. apply elem_of_ref_locs in Hl.
    apply list_elem_of_singleton in Hl as <-.
    destruct (Hnew l eq_refl) as (Hc & Hw & Hb). split.
    - by rewrite <- elem_of_ref_locs.
    - left. split; [done|]. unfold hist_locs. by intros [?|?]%elem_of_app. }
  { apply Forall2_cons. split; [|constructor]. simpl. by rewrite Hdw. }
  { simpl. f_equal. rewrite Hdb. symmetry. by apply deref_extends. }
  split; [done|]. split; [done|]. split.
  { eapply apart_perm; [symmetry; apply hist_locs_snoc|done]. }
  split; [done|]. split; [cbn [targets_ok]; by rewrite view_length|]. split.
  { cbn [targets_ok]. rewrite view_length. simpl. by rewrite length_insert. }
  done.
Qed.

Lemma swapCells_step s index from to :
  i s = length (history s) → apart s (hist_locs (history s)) →
  accurate s (SwapCells index from to) →
  ∃ e, (swapCells index from to s).2 = Return ∧
       committed s (swapCells index from to s).1 e.
Proof.
  intros Hi Hap (Hlf & Hlt & Hf & Ht & Hacc).
  pose proof Hap as [_ Hca _ Hal _].
  assert (Forall (λ k, k < length (cells s)) index) as Hin.
  { apply Forall_forall. intros k Hk.
    apply list_elem_of_lookup in Hk as [j Hj].
    destruct (Forall2_lookup_l _ _ _ _ _ Hacc Hj) as (x & _ & Hx).
    rewrite <- view_length. by eapply lookup_lt_Some. }
  unfold swapCells.
  rewrite swapCells_loop_unrolled; [|done|done| |by rewrite drop_0].
  2:{ rewrite drop_0. eapply Forall_impl; [done|]. by intros r [? _]. }
  rewrite !drop_0.
  destruct (deepClone_cells_spec (heap s) to) as (h1 & R & -> & Hm1 & Ha1 & Hl1 & Hd1).
  { eapply Forall_impl; [done|]. by intros r [_ ?]. }
  cbn [fst snd].
  pose proof Hm1 as (Hpre1 & HnR & HR).
  destruct (addHistoryEntry_cells
              (set_cells (set_heap s h1) (set_slots (zip index R) (cells s)))
              index from to)
    as (h' & W & B & -> & Hm & HlW & HlB & Hdw & Hdb).
  { done. }
  { eapply Forall_impl; [done|]. intros r [? ?]. split; [done|].
    by eapply allocated_extends. }
  { eapply Forall_impl; [done|]. intros r [? ?]. split; [done|].
    by eapply allocated_extends. }
  cbn [fst snd set_cells set_heap heap cells history i] in *.
  set (s' := mk _ _ _ _ _).
  exists (swappedCellsE index W B). split; [done|].
  pose proof Hm as (Hpre & _ & _).
  assert (deref h' <$> W = deref (heap s) <$> from) as HdW.
  { rewrite Hdw. apply deref_fmap_extends; [done|].
    eapply Forall_impl; [done|]. by intros r [_ ?]. }
  destruct (swap_step s s' (hist_locs (history s)) (ref_locs R) index R W B)
    as (Hap' & Hh & Hr & Hu); try done; try lia.
  { by eapply made_app. }
  { intros l Hl. split; [|by right].
    intros Hc. apply HR in Hl.
    pose proof (proj1 (Forall_forall _ _) Hca _ Hc) as Hlt'. simpl in Hlt'. lia. }
  { apply Forall2_same_length_lookup. split; [lia|].
    intros j k w Hk Hw.
    destruct (Forall2_lookup_l _ _ _ _ _ Hacc Hk) as (r & Hr & Hx).
    rewrite Hx. f_equal.
    assert ((deref h' <$> W) !! j = (deref (heap s) <$> from) !! j) as Hj
      by (by rewrite HdW).
    rewrite !list_lookup_fmap, Hw, Hr in Hj. by injection Hj. }
  { change (heap s') with h'. rewrite Hdb.
    rewrite (deref_fmap_extends h1 h' R) by done.
    rewrite Hd1.
    - apply deref_fmap_extends; [done|]. eapply Forall_impl; [done|]. by intros r [_ ?].
    - eapply Forall_impl; [done|]. by intros r [? _]. }
  split; [done|]. split; [done|]. split.
  { eapply apart_perm; [symmetry; apply hist_locs_snoc|done]. }
  split; [done|]. split.
  { cbn [targets_ok]. rewrite view_length. split; [lia|]. split; [lia|done]. }
  split; [|done].
  cbn [targets_ok]. rewrite view_length. simpl. rewrite set_slots_length.
  split; [lia|]. split; [lia|done].
Qed.

Lemma commit_step s c :
  i s = length (history s) → apart s (hist_locs (history s)) →
  accurate s c →
  ∃ e, (call c s).2 = Return ∧ committed s (call c s).1 e.
Proof.
  intros Hi Hap Hacc. destruct c; simpl in Hacc |- *; try done.
  - by apply swapCell_step.
  - by apply swapCells_step.
  - by apply changeAttribute_step.
  - by apply changeAttributes_step.
Qed.

(** ** Along the log *)

Lemma cell_writes_agree h h' (S : list (nat * CellRef)) :
  (∀ l, l ∈ ref_locs S.*2 → h' !!! l = h !!! l) →
  cell_write h' <$> S = cell_write h <$> S.
Proof.
  intros Hag. apply list_fmap_ext. intros j [k r] Hj.
  unfold cell_write. simpl. f_equal.
  destruct r as [| |l]; simpl; [done|done|]. rewrite Hag; [done|].
  apply elem_of_ref_locs. apply list_elem_of_fmap. exists (k, RObj l).
  split; [done|]. by eapply list_elem_of_lookup_2.
Qed.

Lemma undo_slots_locs e l : l ∈ ref_locs (undo_slots e).*2 → l ∈ was_locs e.
Proof.
  destruct e as [index a w b|index a w b|index w b|index w b]; simpl; try done.
  rewrite !elem_of_ref_locs. intros Hin.
  apply list_elem_of_fmap in Hin as ([k r] & -> & Hin). by apply elem_of_zip_r in Hin.
Qed.

Lemma redo_slots_locs e l : l ∈ ref_locs (redo_slots e).*2 → l ∈ became_locs e.
Proof.
  destruct e as [index a w b|index a w b|index w b|index w b]; simpl; try done.
  rewrite !elem_of_ref_locs. intros Hin.
  apply list_elem_of_fmap in Hin as ([k r] & -> & Hin). by apply elem_of_zip_r in Hin.
Qed.

Lemma undo_writes_agree h h' e :
  (∀ l, l ∈ was_locs e → h' !!! l = h !!! l) → undo_writes h' e = undo_writes h e.
Proof.
  intros Hag. unfold undo_writes. f_equal. apply cell_writes_agree.
  intros l Hl. by apply Hag, undo_slots_locs.
Qed.

Lemma redo_writes_agree h h' e :
  (∀ l, l ∈ became_locs e → h' !!! l = h !!! l) → redo_writes h' e = redo_writes h e.
Proof.
  intros Hag. unfold redo_writes. f_equal. apply cell_writes_agree.
  intros l Hl. by apply Hag, redo_slots_locs.
Qed.

Lemma elem_of_hist_locs es k e l :
  es !! k = Some e → l ∈ was_locs e ∨ l ∈ became_locs e → l ∈ hist_locs es.
Proof.
  intros He Hl. apply list_elem_of_lookup_2 in He.
  unfold hist_locs. rewrite elem_of_app, !list_elem_of_bind.
  destruct Hl; [left|right]; by exists e.
Qed.

(** The timeline of a log does not change with objects that are not
    in the log. *)
Lemma timeline_agree h h' es vs :
  (∀ l, l ∈ hist_locs es → h' !!! l = h !!! l) →
  timeline h es vs → timeline h' es vs.
Proof.
  intros Hag [Hlen Hlink]. split; [done|].
  intros k e v v' He Hv Hv'.
  destruct (Hlink k e v v' He Hv Hv') as (? & ? & Hr & Hu).
  rewrite (redo_writes_agree h h'), (undo_writes_agree h h'); [done| |].
  - intros l Hl. apply Hag. eapply elem_of_hist_locs; [done|by left].
  - intros l Hl. apply Hag. eapply elem_of_hist_locs; [done|by right].
Qed.

Lemma timeline_snoc h es vs e v v' :
  timeline h es vs → vs !! length es = Some v →
  targets_ok v e → targets_ok v' e →
  apply_writes (redo_writes h e) v = v' →
  apply_writes (undo_writes h e) v' = v →
  timeline h (es ++ [e]) (vs ++ [v']).
Proof.
  intros [Hlen Hlink] Hv Ht Ht' Hr Hu. split.
  { rewrite !length_app. simpl. lia. }
  intros k e0 v0 v0' He0 Hv0 Hv0'.
  destruct (decide (k < length es)) as [Hk|Hk].
  - rewrite lookup_app_l in He0 by done.
    rewrite lookup_app_l in Hv0 by lia. rewrite lookup_app_l in Hv0' by lia.
    by apply (Hlink k).
  - assert (k = length es) as ->.
    { apply lookup_lt_Some in He0. rewrite length_app in He0. simpl in He0. lia. }
    rewrite lookup_app_r in He0 by done. rewrite Nat.sub_diag in He0.
    injection He0 as <-.
    rewrite lookup_app_l in Hv0 by lia. rewrite Hv in Hv0. injection Hv0 as <-.
    rewrite lookup_app_r in Hv0' by lia.
    replace (S (length es) - length vs) with 0 in Hv0' by lia.
    injection Hv0' as <-. done.
Qed.

(** The commits, one after the other. *)
Lemma commits_timeline cs s vs v0 :
  i s = length (history s) → apart s (hist_locs (history s)) →
  timeline (heap s) (history s) vs →
  vs !! 0 = Some v0 → vs !! length (history s) = Some (view s) →
  accurate_commits s cs →
  Forall (λ c, c = Return) (completions cs s) ∧
  length (history (calls cs s)) = length (history s) + length cs ∧
  i (calls cs s) = length (history (calls cs s)) ∧
  apart (calls cs s) (hist_locs (history (calls cs s))) ∧
  ∃ vs', timeline (heap (calls cs s)) (history (calls cs s)) vs' ∧
         vs' !! 0 = Some v0 ∧
         vs' !! length (history (calls cs s)) = Some (view (calls cs s)).
Proof.
  revert s vs. induction cs as [|c cs IH]; intros s vs Hi Hap Ht H0 HN Hacc.
  { simpl. split; [constructor|]. split; [lia|]. split; [done|]. split; [done|].
    by exists vs. }
  destruct Hacc as [Hc Hcs].
  destruct (commit_step s c Hi Hap Hc)
    as (e & Hret & Hh & Hi' & Hap' & Hag & Hok & Hok' & Hr & Hu).
  destruct (IH (call c s).1 (vs ++ [view (call c s).1])) as (Hf & Hl & Hi'' & Hap'' & Hvs);
    try done.
  - rewrite Hh. apply (timeline_snoc _ _ _ _ (view s)); try done.
    by apply (timeline_agree (heap s)).
  - rewrite lookup_app_l; [done|]. by apply lookup_lt_Some in H0.
  - rewrite Hh, length_app. simpl. destruct Ht as [Hlen _].
    rewrite lookup_app_r by lia. by replace (length (history s) + 1 - length vs) with 0 by lia.
  - change (calls (c :: cs) s) with (calls cs (call c s).1).
    split; [by constructor|]. split.
    { rewrite Hl, Hh, length_app. simpl. lia. }
    done.
Qed.

Lemma entry_one_kind e :
  (undo_attrs e = [] ∨ undo_slots e = []) ∧ (redo_attrs e = [] ∨ redo_slots e = []).
Proof. destruct e; simpl; split; ((by left) || (by right)). Qed.

Lemma to_undo_S es k e :
  es !! k = Some e → to_undo (S k) es ≡ₚ was_locs e ++ to_undo k es.
Proof.
  intros He. unfold to_undo. rewrite (take_S_r _ _ _ He), bind_app. simpl.
  rewrite app_nil_r, (assoc_L (++)). f_equiv. apply Permutation_app_comm.
Qed.

Lemma to_redo_S es k e :
  es !! k = Some e → to_redo k es = became_locs e ++ to_redo (S k) es.
Proof. intros He. unfold to_redo. by rewrite (drop_S _ _ _ He). Qed.

(** One [undo] takes the state one step back on the timeline. *)
Lemma undo_at_step h es vs s k :
  timeline h es vs →
  at_step h es vs (to_undo (S k) es) s (S k) →
  at_step h es vs (to_undo k es) (undo s).1 k.
Proof.
  intros [Hlen Hlink] (Hh & Hi & Hk & Hv & Hap & Hag).
  destruct (lookup_lt_is_Some_2 es k) as [e He]; [lia|].
  destruct (lookup_lt_is_Some_2 vs k) as [v Hvk]; [lia|].
  destruct (Hlink k e v (view s) He Hvk Hv) as (_ & Hok & _ & Hu).
  rewrite <- Hh in He.
  destruct (undo_effect s k e Hi He Hok) as (Hi' & Hh' & Hheap & Hcells).
  destruct (targets_ok_writes s e Hok) as (HA & _ & Hw & _).
  rewrite Hh in He.
  destruct (effect_apart s (undo s).1 (to_undo (S k) es) (to_undo k es)
              (entry_key e) (undo_attrs e) (undo_slots e))
    as (Hview & Hap' & _ & Hoth); try done.
  { rewrite Hw. by apply to_undo_S. }
  { apply entry_one_kind. }
  assert (∀ l, l ∈ to_undo k es → l ∈ to_undo (S k) es) as Hsub.
  { intros l Hl. rewrite (to_undo_S es k e He). apply elem_of_app. by right. }
  split; [by rewrite Hh'|]. split; [done|]. split; [lia|]. split; [|split; [done|]].
  - rewrite Hview. fold (undo_writes (heap s) e).
    rewrite (undo_writes_agree h (heap s)); [by rewrite Hu|].
    intros l Hl. apply Hag. rewrite (to_undo_S es k e He). apply elem_of_app. by left.
  - intros l Hl. rewrite Hoth; [by apply Hag, Hsub|].
    intros Hr. by apply (apart_sep _ _ Hap l Hr), Hsub.
Qed.

(** One [redo] takes the state one step forth on the timeline. *)
Lemma redo_at_step h es vs s k :
  timeline h es vs → k < length es →
  at_step h es vs (to_redo k es) s k →
  (redo s).2 = Return ∧ at_step h es vs (to_redo (S k) es) (redo s).1 (S k).
Proof.
  intros [Hlen Hlink] Hlt (Hh & Hi & Hk & Hv & Hap & Hag).
  destruct (lookup_lt_is_Some_2 es k) as [e He]; [lia|].
  destruct (lookup_lt_is_Some_2 vs (S k)) as [v' Hvk]; [lia|].
  destruct (Hlink k e (view s) v' He Hv Hvk) as (Hok & _ & Hr & _).
  rewrite <- Hh, <- Hi in He.
  destruct (redo_effect s e He Hok) as (Hret & Hi' & Hh' & Hheap & Hcells).
  destruct (targets_ok_writes s e Hok) as (_ & HA & _ & Hb).
  rewrite Hh, Hi in He.
  destruct (effect_apart s (redo s).1 (to_redo k es) (to_redo (S k) es)
              (entry_key e) (redo_attrs e) (redo_slots e))
    as (Hview & Hap' & _ & Hoth); try done.
  { rewrite Hb. by rewrite (to_redo_S es k e He). }
  { apply entry_one_kind. }
  assert (∀ l, l ∈ to_redo (S k) es → l ∈ to_redo k es) as Hsub.
  { intros l Hl. rewrite (to_redo_S es k e He). apply elem_of_app. by right. }
  split; [done|].
  split; [by rewrite Hh'|]. split; [lia|]. split; [lia|]. split; [|split; [done|]].
  - rewrite Hview. fold (redo_writes (heap s) e).
    rewrite (redo_writes_agree h (heap s)); [by rewrite Hr|].
    intros l Hl. apply Hag. rewrite (to_redo_S es k e He). apply elem_of_app. by left.
  - intros l Hl. rewrite Hoth; [by apply Hag, Hsub|].
    intros Hr'. by apply (apart_sep _ _ Hap l Hr'), Hsub.
Qed.

Lemma undos_at_step h es vs s m k :
  timeline h es vs →
  at_step h es vs (to_undo (k + m) es) s (k + m) →
  at_step h es vs (to_undo k es) (undos m s) k.
Proof.
  intros Ht. revert k. induction m as [|m IH]; intros k Hs.
  { by rewrite Nat.add_0_r in Hs. }
  change (undos (S m) s) with (undo (undos m s)).1.
  apply (undo_at_step h es vs); [done|]. apply IH.
  by replace (S k + m) with (k + S m) by lia.
Qed.

Lemma redos_at_step h es vs s m k :
  timeline h es vs → k + m ≤ length es →
  at_step h es vs (to_redo k es) s k →
  at_step h es vs (to_redo (k + m) es) (redos m s) (k + m).
Proof.
  intros Ht. induction m as [|m IH]; intros Hk Hs.
  { by rewrite Nat.add_0_r. }
  change (redos (S m) s) with (redo (redos m s)).1.
  replace (k + S m) with (S (k + m)) by lia.
  apply (redo_at_step h es vs); [done|lia|]. apply IH; [lia|done].
Qed.

(** ** The law *)

(** C1, as the code has it.  Start from a new log over a grid in which
    no cell object is in two slots, and make commits that are accurate:
    the old values given are those of the grid, no value is [undefined],
    batched arguments have one length, and a new cell given to [swapCell]
    is an object that neither the grid nor the log holds.  Then every
    commit returns, as many undos as there were commits give back the grid
    of before the commits, and as many redos after them give back the grid
    of after the commits. *)
Theorem undo_redo_inverse s cs :
  history s = [] → i s = 0 →
  unshared (cells s) → Forall (allocated (heap s)) (cells s) →
  accurate_commits s cs →
  Forall (λ c, c = Return) (completions cs s) ∧
  view (undos (length cs) (calls cs s)) = view s ∧
  view (redos (length cs) (undos (length cs) (calls cs s))) = view (calls cs s).
Proof.
  intros Hh Hi Hu Ha Hacc.
  destruct (commits_timeline cs s [view s] (view s))
    as (Hret & Hlen & Hi' & Hap & vs & Ht & H0 & HN); try done.
  { rewrite Hh, Hi. done. }
  { rewrite Hh. split; [done|done|constructor|by intros l Hl%elem_of_nil|].
    by intros l _ Hl%elem_of_nil. }
  { rewrite Hh. split; [done|]. intros k e v v' He. by rewrite lookup_nil in He. }
  { by rewrite Hh. }
  rewrite Hh in Hlen. simpl in Hlen.
  set (sN := calls cs s) in *. set (es := history sN) in *. set (n := length cs) in *.
  assert (at_step (heap sN) es vs (to_undo n es) sN n) as Hs.
  { split; [done|]. split; [lia|]. split; [lia|]. split; [by rewrite <- Hlen|].
    split; [|done]. unfold to_undo. rewrite take_ge by lia. exact Hap. }
  pose proof (undos_at_step (heap sN) es vs sN n 0 Ht Hs) as Hu0.
  pose proof (redos_at_step (heap sN) es vs (undos n sN) n 0 Ht (Nat.eq_le_incl _ _ (eq_sym Hlen))
                Hu0) as Hr0.
  destruct Hu0 as (_ & _ & _ & Hv0 & _). destruct Hr0 as (_ & _ & _ & HvN & _).
  simpl in HvN. rewrite Hlen in HN.
  split; [done|]. split; congruence.
Qed.

Lemma undo_redo_inverse_witness :
  accurate_commits sample_state sample_commits ∧
  view (undos 4 (calls sample_commits sample_state)) = view sample_state ∧
  view (redos 4 (undos 4 (calls sample_commits sample_state)))
  = view (calls sample_commits sample_state).
Proof.
  assert (accurate_commits sample_state sample_commits) as Hacc.
  { cbn [accurate_commits sample_commits].
    split.
    { split; [done|]. split; [done|]. split; [done|]. split; [simpl; lia|].
      split; [done|]. intros l [= <-].
      split; [|split]; [|apply not_elem_of_nil..].
      cbn. by intros Hin%list_elem_of_singleton. }
    split.
    { split; [done|]. split; [done|]. eexists. split; reflexivity. }
    split.
    { split; [done|]. split; [done|].
      split; [repeat constructor; (done || simpl; lia)|].
      split; [repeat constructor; (done || simpl; lia)|].
      repeat constructor. }
    split; [|done].
    split; [done|]. split; [by repeat constructor|]. split; [by repeat constructor|].
    repeat constructor. eexists. split; reflexivity. }
  split; [exact Hacc|].
  apply (undo_redo_inverse sample_state sample_commits); try done.
  - intros j1 j2 l H1 H2.
    destruct j1 as [|[|j1]], j2 as [|[|j2]]; done.
  - repeat constructor.
Defined.

(** C1 as stated fails.  The commits below all return.  In the first
    grid the cell named "a" is swapped for one named "b" with an old cell
    named "c" given: one undo puts "c" into the grid.  In the second a
    cell without a name is named "1" by a batched change that gives the
    old name [undefined], as it is: the log keeps [null] for it and one
    undo leaves the name [null].  In the third the same new object is
    given to [swapCell] for two slots and then renamed through one of
    them, which renames both; three undos and three redos leave only one
    of them renamed.  In the fourth one object is in both slots of the
    grid from the start; it is renamed through slot 0 and slot 0 is then
    swapped, and two undos name only slot 0 back. *)
Lemma undo_redo_inverse_counterexample :
  (let s := create [cell_a; cell_b; cell_c] [RObj 0] in
   let cs := [SwapCell 0 (RObj 2) (RObj 1)] in
   completions cs s = [Return] ∧
   view s = [VObj cell_a] ∧ view (undos 1 (calls cs s)) = [VObj cell_c]) ∧
  (let s := create [mkCell seat] [RObj 0] in
   let cs := [ChangeAttributes [0] Kname [AUndefined] [AString "1"]] in
   completions cs s = [Return] ∧
   view s = [VObj (mkCell seat)] ∧
   view (undos 1 (calls cs s)) = [VObj (set_attribute (mkCell seat) Kname ANull)]) ∧
  (let s := create [cell_a; cell_a; cell_b] [RObj 0; RObj 1] in
   let cs := [SwapCell 0 (RObj 0) (RObj 2); SwapCell 1 (RObj 1) (RObj 2);
              ChangeAttribute 0 Kname (AString "b") (AString "z")] in
   completions cs s = [Return; Return; Return] ∧
   view (calls cs s) = [VObj (namedCell seat "z"); VObj (namedCell seat "z")] ∧
   view (redos 3 (undos 3 (calls cs s))) = [VObj (namedCell seat "z"); VObj cell_b]) ∧
  (let s := create [cell_a; cell_c] [RObj 0; RObj 0] in
   let cs := [ChangeAttribute 0 Kname (AString "a") (AString "b");
              SwapCell 0 (RObj 0) (RObj 1)] in
   completions cs s = [Return; Return] ∧
   view s = [VObj cell_a; VObj cell_a] ∧
   view (undos 2 (calls cs s)) = [VObj cell_a; VObj cell_b]).
Proof. vm_compute. done. Qed.

End InverseLaw.

(** * Properties of the collision dispatcher *)

Module CollisionProofs.
Import CollisionManager CollisionSpec.

Section WithRef.

Context {ref : Type}.

Implicit Types (s : t ref) (c : Collision ref).

(** The test written in the three handlers is the closed-interval test. *)
Lemma inside_iff c px py :
  Is_true ((x c <=? px)%Z && (x c + width c >=? px)%Z &&
           (y c <=? py)%Z && (y c + height c >=? py)%Z)
  ↔ contains c px py.
Proof.
  unfold contains. rewrite !andb_True, !Is_true_true.
  rewrite !Z.leb_le, !Z.geb_le. lia.
Qed.

Lemma inside_filter (cs : list (Collision ref)) px py :
  filter (λ c, Is_true ((x c <=? px)%Z && (x c + width c >=? px)%Z &&
                        (y c <=? py)%Z && (y c + height c >=? py)%Z)) cs
  = filter (λ c, contains c px py) cs.
Proof.
  apply list_filter_iff. intros c. apply inside_iff.
Qed.

Lemma mouseup_active_anchored s px py :
  drag_start s = (px, py) →
  mouseup_active px py s = filter (λ c, contains c px py) (collisions s).
Proof.
  intros Hs. unfold mouseup_active. rewrite Hs. simpl.
  rewrite !Z.eqb_refl. simpl. apply inside_filter.
Qed.

Lemma mouseup_active_moved s px py :
  drag_start s ≠ (px, py) → mouseup_active px py s = [].
Proof.
  intros Hs. unfold mouseup_active.
  destruct (drag_start s) as [sx sy]. simpl.
  destruct (Z.eqb_spec px sx) as [->|]; [|done].
  destruct (Z.eqb_spec py sy) as [->|]; [|done].
  done.
Qed.

Lemma filter_nil_iff (cs : list (Collision ref)) px py :
  filter (λ c, contains c px py) cs = [] ↔ ¬ ∃ c, c ∈ cs ∧ contains c px py.
Proof.
  split.
  - intros Hf (c & Hc & Hin).
    assert (c ∈ filter (λ c, contains c px py) cs) as Hm
      by (apply list_elem_of_filter; done).
    rewrite Hf in Hm. by apply elem_of_nil in Hm.
  - intros Hn. destruct (filter _ cs) as [|c l] eqn:Hf; [done|].
    exfalso. apply Hn. exists c.
    assert (c ∈ filter (λ c, contains c px py) cs) as Hm
      by (rewrite Hf; apply list_elem_of_here).
    apply list_elem_of_filter in Hm. tauto.
Qed.

(** C6, as the code has it.  On [mouseup] the click listeners are called
    when the release is at the anchor, once for every region that contains
    the point and in the order of the regions; the drag-end listeners are
    called when no region was clicked, that is when the release is away
    from the anchor, and also when it is at the anchor and no region
    contains it. *)
Theorem mouseup_dispatch s button px py :
  let tr := (mouseup button px py s).2 in
  let ended := notify_drag dragend (listeners_dragend s)
                 (px - (drag_latest s).1) (py - (drag_latest s).2) (mouseButtonsDown s) in
  (drag_start s = (px, py) → (∃ c, c ∈ collisions s ∧ contains c px py) →
     tr = notify click (filter (λ c, contains c px py) (collisions s))
            (listeners_click s) (mouseButtonsDown s)) ∧
  (drag_start s = (px, py) → ¬ (∃ c, c ∈ collisions s ∧ contains c px py) →
     tr = ended) ∧
  (drag_start s ≠ (px, py) → tr = ended).
Proof.
  simpl. unfold mouseup. simpl. repeat split.
  - intros Hs Hhit. rewrite (mouseup_active_anchored s px py Hs).
    destruct (filter _ (collisions s)) as [|c l] eqn:Hf.
    { apply filter_nil_iff in Hf. done. }
    simpl. by rewrite app_nil_r.
  - intros Hs Hhit. rewrite (mouseup_active_anchored s px py Hs).
    apply filter_nil_iff in Hhit. rewrite Hhit. done.
  - intros Hs. rewrite (mouseup_active_moved s px py Hs). done.
Qed.

End WithRef.

Local Open Scope Z_scope.

Lemma mouseup_dispatch_witness :
  (let s := mousedown 0 5 5
              (registerCollisions [mkCollision 0 0 10 10 (Ref "0")]
                 (addEventListener click 1%nat (addEventListener dragend 2%nat init))) in
   drag_start s = (5, 5) ∧
   (mouseup 0 5 5 s).2
   = notify click (filter (λ c, contains c 5 5) (collisions s))
       (listeners_click s) (mouseButtonsDown s)) ∧
  (let s := mousedown 0 50 50
              (registerCollisions [mkCollision 0 0 10 10 (Ref "0")]
                 (addEventListener click 1%nat (addEventListener dragend 2%nat init))) in
   drag_start s = (50, 50) ∧
   (mouseup 0 50 50 s).2 = notify_drag dragend [2%nat] 0 0 [0]) ∧
  (let s := mousedown 0 5 5
              (registerCollisions [mkCollision 0 0 10 10 (Ref "0")]
                 (addEventListener click 1%nat (addEventListener dragend 2%nat init))) in
   drag_start s ≠ (8, 5) ∧
   (mouseup 0 8 5 s).2 = notify_drag dragend [2%nat] 3 0 [0]).
Proof.
  split; [|split].
  - split; [reflexivity|].
    apply (proj1 (mouseup_dispatch _ 0 5 5)); [reflexivity|].
    eexists. split; [apply list_elem_of_here|]. unfold contains. simpl. lia.
  - split; [reflexivity|].
    refine (eq_trans (proj1 (proj2 (mouseup_dispatch _ 0 50 50)) _ _) _);
      [reflexivity| |reflexivity].
    intros (c & Hc & Hin). apply list_elem_of_singleton in Hc as ->.
    unfold contains in Hin. simpl in Hin. lia.
  - split; [done|].
    refine (eq_trans (proj2 (proj2 (mouseup_dispatch _ 0 8 5)) _) _);
      [done|reflexivity].
Defined.

(** C6 as stated fails: pressed and released at (5,5) with no region
    there, the drag-end listener is called although nothing moved. *)
Lemma mouseup_dispatch_counterexample :
  let s := mousedown 0 5 5 (addEventListener (ref:=string) dragend 2%nat init) in
  drag_start s = (5, 5)%Z ∧
  (mouseup 0 5 5 s).2 = [mkInvocation dragend 2%nat (DragArgs 0 0 [0])] ∧
  invoked dragend 2%nat (mouseup 0 5 5 s).2.
Proof.
  repeat split. eexists. apply list_elem_of_here.
Qed.

(** C7.  The regions hovered on [mousemove], the regions clicked on a
    [mouseup] at the anchor and the regions clicked by [leftClick] are the
    registered regions that contain the point, with closed intervals on
    both axes: the region at (10,10) of width 20 and height 10 contains
    (10,10), (30,20) and (20,15), and neither (9,15) nor (20,21). *)
Theorem hit_test_containment :
  (∀ ref (s : t ref) px py c,
     c ∈ activeHoverCollisions (mousemove px py s).1 ↔ c ∈ collisions s ∧ contains c px py) ∧
  (∀ ref (s : t ref) button px py c,
     c ∈ mouseup_active px py (mousedown button px py s)
     ↔ c ∈ collisions s ∧ contains c px py) ∧
  (∀ ref LEFT (s : t ref) px py c,
     c ∈ activeClickCollisions (leftClick LEFT px py s).1
     ↔ c ∈ collisions s ∧ contains c px py) ∧
  (∀ ref (c : Collision ref) px py,
     contains c px py ↔ (x c <= px <= x c + width c)%Z ∧ (y c <= py <= y c + height c)%Z) ∧
  (∀ ref,
     contains (region_10_10_20_10 (ref:=ref)) 10 10 ∧
     contains (region_10_10_20_10 (ref:=ref)) 30 20 ∧
     contains (region_10_10_20_10 (ref:=ref)) 20 15 ∧
     ¬ contains (region_10_10_20_10 (ref:=ref)) 9 15 ∧
     ¬ contains (region_10_10_20_10 (ref:=ref)) 20 21).
Proof.
  split; [|split; [|split; [|split]]].
  - intros ref s px py c. simpl. rewrite list_elem_of_filter, inside_iff. tauto.
  - intros ref s button px py c. rewrite mouseup_active_anchored by done.
    simpl. rewrite list_elem_of_filter. tauto.
  - intros ref LEFT s px py c. simpl. rewrite list_elem_of_filter, inside_iff. tauto.
  - done.
  - intros ref. unfold contains, region_10_10_20_10. simpl. lia.
Qed.

End CollisionProofs.

(** * Properties of the element addresses *)

Module EditMenuProofs.
Import EditMenu EditMenuSpec.

Lemma imap_index_from {A B} (f : nat → B) (l : list A) n :
  imap (λ k _, f (n + k)) l = f <$> seq n (length l).
Proof.
  revert n. induction l as [|a l IH]; intros n; [done|].
  rewrite imap_cons. cbn [length seq fmap list_fmap]. rewrite Nat.add_0_r. f_equal.
  etrans; [|apply (IH (S n))]. apply imap_ext. intros k x _. simpl. f_equal. lia.
Qed.

Lemma imap_index_only {A B} (f : nat → B) (l : list A) :
  imap (λ k _, f k) l = f <$> seq 0 (length l).
Proof. apply (imap_index_from f l 0). Qed.

(** The top-level addresses offered by [getNextInputRef] count the input
    elements; they are not the positions of these elements. *)
Lemma availableRefs_counts elements :
  availableRefs elements
  = pretty <$> seq 0 (length (filter (λ e, Is_true (is_input e)) elements)).
Proof. apply imap_index_only. Qed.

(** C5 (navigation order).  The claim: with input elements at positions 0
    and 2 and a group of two inputs at position 1, [next] goes 0, 2, 1_0,
    1_1 and back to 0.  The code numbers the top-level inputs by their
    position among the inputs, so the addresses it steps through are 0, 1,
    1_0, 1_1: from "0" it goes to "1", which names the group, and the
    address "2" of the second input is not found. *)
Theorem next_numbers_inputs_after_filtering :
  canonicalRefs menu_0_group_2 = ["0"; "2"; "1_0"; "1_1"] ∧
  allRefs menu_0_group_2 = ["0"; "1"; "1_0"; "1_1"] ∧
  getNextInputRef menu_0_group_2 "0" = Some "1" ∧
  getNextInputRef menu_0_group_2 "1" = Some "1_0" ∧
  getNextInputRef menu_0_group_2 "1_0" = Some "1_1" ∧
  getNextInputRef menu_0_group_2 "1_1" = Some "0" ∧
  getNextInputRef menu_0_group_2 "2" = None.
Proof. vm_compute. done. Qed.

(** C8 (malformed addresses).  The claim: an address whose item part is
    not a number resolves to nothing.  The code reads the item part with
    [parseInt], which stops at the first character that is not a digit:
    "1a" is read as 1 and resolves to the element at position 1.  The
    addresses "1_2_3" and "_5" are rejected. *)
Theorem item_part_read_leniently :
  let elements := [labelE "title"; inputE "text" "text"] in
  parseRef "1a" = Some (mkParsedRef None 1 None) ∧
  getInputByRef elements "1a" = ResElement (inputE "text" "text") ∧
  getInputByRef elements "1" = ResElement (inputE "text" "text") ∧
  parseRef "1_2_3" = None ∧ getInputByRef elements "1_2_3" = ResNull ∧
  parseRef "_5" = None ∧ getInputByRef elements "_5" = ResNull.
Proof. vm_compute. done. Qed.

End EditMenuProofs.

(** * Further properties of the history engine *)

Module HistoryLaws.
Import MapLayoutHistory HistorySpec HistoryLawsSpec HistoryProofs InverseLaw.

#[local] Arguments addHistoryEntry : simpl never.

Lemma kept_take s : kept s = take (i s + 1) (history s).
Proof. unfold kept. case_decide; [done|]. by rewrite take_ge by lia. Qed.

Lemma addHistoryEntry_log entry s :
  ((addHistoryEntry entry s).2 = Return →
   ∃ e, history (addHistoryEntry entry s).1 = take (i s + 1) (history s) ++ [e] ∧
        i (addHistoryEntry entry s).1 = length (history (addHistoryEntry entry s).1)) ∧
  ((addHistoryEntry entry s).2 ≠ Return →
   i (addHistoryEntry entry s).1 = i s ∧
   history (addHistoryEntry entry s).1 = take (i s + 1) (history s)).
Proof.
  destruct (addHistoryEntry_cases entry s) as [(e & Hr & Hh & Hi & _)|(Hr & Hh & Hi & _)];
    rewrite kept_take in *.
  - split; [|by rewrite Hr]. intros _. exists e. split; [done|].
    rewrite Hh, Hi, !length_app. simpl. lia.
  - split; [by rewrite Hr|]. done.
Qed.

(** The log after a commit.  A commit that returns has kept the entries
    up to and with the one at the cursor, appended one entry and put the
    cursor at the end.  A commit that throws has appended nothing and left
    the cursor where it was; the log is as it was, or, when the throw came
    while the entry was copied, cut after the entry at the cursor. *)
Theorem commit_log c s :
  is_commit c = true →
  ((call c s).2 = Return →
   ∃ e, history (call c s).1 = take (i s + 1) (history s) ++ [e] ∧
        i (call c s).1 = length (history (call c s).1)) ∧
  ((call c s).2 ≠ Return →
   i (call c s).1 = i s ∧
   (history (call c s).1 = history s ∨
    history (call c s).1 = take (i s + 1) (history s))).
Proof.
  intros Hc.
  assert (∀ entry s0, history s0 = history s → i s0 = i s →
    ((addHistoryEntry entry s0).2 = Return →
     ∃ e, history (addHistoryEntry entry s0).1 = take (i s + 1) (history s) ++ [e] ∧
          i (addHistoryEntry entry s0).1 = length (history (addHistoryEntry entry s0).1)) ∧
    ((addHistoryEntry entry s0).2 ≠ Return →
     i (addHistoryEntry entry s0).1 = i s ∧
     (history (addHistoryEntry entry s0).1 = history s ∨
      history (addHistoryEntry entry s0).1 = take (i s + 1) (history s)))) as Hadd.
  { intros entry s0 Hh Hi. destruct (addHistoryEntry_log entry s0) as [H1 H2].
    rewrite Hh, Hi in *. split; [done|]. intros Hn. destruct (H2 Hn). split; [done|by right]. }
  destruct c as [| |index from to|index from to|index a from to|index a from to];
    simpl in *; try done.
  - unfold swapCell. by apply Hadd.
  - unfold swapCells.
    pose proof (swapCells_loop_log index to 0 (length index) s) as [Hh Hi].
    destruct (swapCells_loop index to 0 (length index) s) as [s1 []]; cbn [fst snd] in *.
    + by apply Hadd.
    + split; [done|]. intros _. split; [done|by left].
    + split; [done|]. intros _. split; [done|by left].
  - unfold changeAttribute. destruct (arr_get (cells s) index); cbn [fst snd].
    + split; [done|]. intros _. split; [done|by left].
    + split; [done|]. intros _. split; [done|by left].
    + by apply Hadd.
  - unfold changeAttributes.
    pose proof (changeAttributes_loop_log index a to 0 (length index) s) as (Hh & Hi & _).
    destruct (changeAttributes_loop index a to 0 (length index) s) as [s1 []];
      cbn [fst snd] in *.
    + by apply Hadd.
    + split; [done|]. intros _. split; [done|by left].
    + split; [done|]. intros _. split; [done|by left].
Qed.

Lemma commit_log_witness :
  (let s := create [] [RNull] in
   let c := SwapCell 0 RNull RNull in
   is_commit c = true ∧ (call c s).2 = Return ∧
   ∃ e, history (call c s).1 = take (i s + 1) (history s) ++ [e] ∧
        i (call c s).1 = length (history (call c s).1)) ∧
  (let s := calls [SwapCell 0 RNull RNull; SwapCell 0 RNull RNull; SwapCell 0 RNull RNull;
                   Undo; Undo; Undo] (create [] [RNull]) in
   let c := SwapCell 0 RUndefined RNull in
   is_commit c = true ∧ (call c s).2 ≠ Return ∧
   i (call c s).1 = i s ∧
   (history (call c s).1 = history s ∨
    history (call c s).1 = take (i s + 1) (history s))).
Proof.
  split.
  - split; [reflexivity|]. split; [reflexivity|].
    apply (commit_log (SwapCell 0 RNull RNull) (create [] [RNull]) eq_refl). reflexivity.
  - split; [reflexivity|]. split; [by vm_compute|].
    apply (commit_log (SwapCell 0 RUndefined RNull)
             (calls [SwapCell 0 RNull RNull; SwapCell 0 RNull RNull; SwapCell 0 RNull RNull;
                     Undo; Undo; Undo] (create [] [RNull])) eq_refl).
    by vm_compute.
Defined.

(** ** When a commit returns *)

Lemma addHistoryEntry_cells_returns index was became s :
  (addHistoryEntry (swappedCellsE index was became) s).2 = Return.
Proof.
  unfold addHistoryEntry.
  destruct (deepClone_cells _ was) as [h1 w].
  by destruct (deepClone_cells h1 became) as [h2 b].
Qed.

Lemma addHistoryEntry_attrs_returns index a was became s :
  (addHistoryEntry (changeAttributesE index a was became) s).2 = Return.
Proof. done. Qed.

Lemma swapCells_loop_exit index to k n s :
  k + n = length index →
  (swapCells_loop index to k n s).2 = Completed ↔
  Forall (λ j, arr_get to j ≠ RUndefined) (seq k n).
Proof.
  revert k s. induction n as [|n IH]; intros k s Hk; simpl.
  { split; [constructor|done]. }
  destruct (lookup_lt_is_Some_2 index k) as [j Hj]; [lia|]. rewrite Hj.
  rewrite Forall_cons.
  destruct (arr_get to k) as [| |l]; simpl.
  - split; [done|]. by intros [? _].
  - rewrite IH by lia. intuition congruence.
  - rewrite IH by lia. intuition congruence.
Qed.

Lemma changeAttributes_loop_exit index a to k n s :
  k + n = length index →
  (changeAttributes_loop index a to k n s).2 = Completed ↔
  forallb (λ j, is_obj (arr_get (cells s) j)) (drop k index) = true.
Proof.
  revert k s. induction n as [|n IH]; intros k s Hk; simpl.
  { rewrite drop_ge by lia. done. }
  destruct (lookup_lt_is_Some_2 index k) as [j Hj]; [lia|].
  rewrite Hj, (drop_S _ _ _ Hj). simpl.
  destruct (arr_get (cells s) j) as [| |l]; simpl; [done..|].
  by rewrite IH by lia.
Qed.

(** When a commit returns.  [swapCell] returns unless the old or the new
    cell given is [undefined]; [swapCells] unless one of the new cells is
    missing or [undefined] (the old cells are not looked at);
    [changeAttribute] when the slot holds an object and neither value is
    [undefined]; [changeAttributes] when every slot named holds an object,
    whatever the values are. *)
Theorem commit_returns_iff s :
  (∀ index from to,
     (swapCell index from to s).2 = Return ↔ from ≠ RUndefined ∧ to ≠ RUndefined) ∧
  (∀ index from to,
     (swapCells index from to s).2 = Return ↔
     Forall (λ k, arr_get to k ≠ RUndefined) (seq 0 (length index))) ∧
  (∀ index a from to,
     (changeAttribute index a from to s).2 = Return ↔
     is_obj (arr_get (cells s) index) = true ∧ from ≠ AUndefined ∧ to ≠ AUndefined) ∧
  (∀ index a from to,
     (changeAttributes index a from to s).2 = Return ↔
     forallb (λ k, is_obj (arr_get (cells s) k)) index = true).
Proof.
  split; [|split; [|split]].
  - intros index from to. unfold swapCell, addHistoryEntry.
    destruct from, to; cbn; intuition congruence.
  - intros index from to. unfold swapCells.
    rewrite <- (swapCells_loop_exit index to 0 (length index) s eq_refl).
    destruct (swapCells_loop index to 0 (length index) s) as [s1 []]; cbn [fst snd].
    + by rewrite addHistoryEntry_cells_returns.
    + done.
    + done.
  - intros index a from to. unfold changeAttribute.
    destruct (arr_get (cells s) index); cbn [fst snd is_obj]; [intuition congruence..|].
    unfold addHistoryEntry. destruct from, to; cbn; intuition congruence.
  - intros index a from to. unfold changeAttributes.
    rewrite <- (drop_0 index) at 3.
    rewrite <- (changeAttributes_loop_exit index a to 0 (length index) s eq_refl).
    destruct (changeAttributes_loop index a to 0 (length index) s) as [s1 []];
      cbn [fst snd]; done.
Qed.

Lemma commit_returns_iff_witness :
  let s := create [cell_a] [RObj 0; RNull] in
  (swapCell 1 RNull (RObj 0) s).2 = Return ∧
  (swapCells [0; 1] [] [RNull; RObj 0] s).2 = Return ∧
  (changeAttribute 0 Kname (AString "a") (AString "b") s).2 = Return ∧
  (changeAttributes [0] Kname [AUndefined] [AUndefined] s).2 = Return ∧
  (RUndefined ≠ RUndefined ∧ RNull ≠ RUndefined → False) ∧
  ¬ Forall (λ k, arr_get [RNull] k ≠ RUndefined) (seq 0 (length [0; 1])) ∧
  (is_obj (arr_get (cells s) 1) = true ∧ AString "a" ≠ AUndefined ∧ AString "b" ≠ AUndefined
   → False) ∧
  forallb (λ k, is_obj (arr_get (cells s) k)) [0; 1] ≠ true.
Proof.
  intros s.
  destruct (commit_returns_iff s) as (H1 & H2 & H3 & H4).
  split; [apply H1; done|].
  split; [apply H2; repeat constructor; done|].
  split; [apply H3; done|].
  split; [apply H4; done|].
  split; [intros Hx; by pose proof (proj2 (H1 0 RUndefined RNull) Hx)|].
  split; [intros Hx; by pose proof (proj2 (H2 [0; 1] [] [RNull]) Hx)|].
  split; [intros Hx; by pose proof (proj2 (H3 1 Kname (AString "a") (AString "b")) Hx)|].
  intros Hx. by pose proof (proj2 (H4 [0; 1] Kname [] []) Hx).
Defined.

(** ** What the operations do to the grid and to the store *)

Lemma arr_set_length_ge (c : list CellRef) k v : length c ≤ length (arr_set c k v).
Proof.
  unfold arr_set. case_decide; [by rewrite length_insert|].
  rewrite !length_app. lia.
Qed.

Lemma arr_set_elem (c : list CellRef) k v r :
  r ∈ arr_set c k v → r ∈ c ∨ r = RUndefined ∨ r = v.
Proof.
  unfold arr_set. case_decide.
  - intros Hr. apply list_elem_of_lookup in Hr as [j Hj].
    destruct (decide (j = k)) as [->|Hne].
    + rewrite list_lookup_insert_eq in Hj by done. injection Hj as <-. by right; right.
    + rewrite list_lookup_insert_ne in Hj by done. left. by eapply list_elem_of_lookup_2.
  - rewrite !elem_of_app. intros [Hr|[Hr|Hr]].
    + by left.
    + apply elem_of_replicate in Hr as [-> _]. by right; left.
    + apply list_elem_of_singleton in Hr. by right; right.
Qed.

Lemma arr_get_elem (side : list CellRef) k :
  arr_get side k ∈ side ∨ arr_get side k = RUndefined.
Proof.
  unfold arr_get. destruct (side !! k) as [r|] eqn:Hk; simpl; [left|by right].
  by eapply list_elem_of_lookup_2.
Qed.

Lemma write_cells_grid index side k n (c : list CellRef) :
  length c ≤ length (write_cells index side k n c) ∧
  ∀ r, r ∈ write_cells index side k n c → r ∈ c ∨ r = RUndefined ∨ r ∈ side.
Proof.
  revert k c. induction n as [|n IH]; intros k c; simpl.
  { split; [done|]. intros r Hr. by left. }
  destruct (index !! k) as [j|]; [|split; [done|by left]].
  destruct (IH (S k) (arr_set c j (arr_get side k))) as [Hl Hin].
  split; [pose proof (arr_set_length_ge c j (arr_get side k)); lia|].
  intros r Hr. destruct (Hin r Hr) as [Hc|[->|Hs]]; [|by right; left|by right; right].
  destruct (arr_set_elem _ _ _ _ Hc) as [?|[->| ->]]; [by left|by right; left|].
  destruct (arr_get_elem side k) as [?| ->]; [by right; right|by right; left].
Qed.

Lemma undo_changeAttributes_heap index a was k n s :
  length (heap (undo_changeAttributes index a was k n s)) = length (heap s).
Proof.
  revert k s. induction n as [|n IH]; intros k s; simpl; [done|].
  destruct (index !! k) as [j|]; [|done].
  destruct (arr_get (cells s) j) as [| |l]; [done..|].
  rewrite IH. case_decide; simpl; by rewrite heap_set_length.
Qed.

Lemma redo_changeAttributes_heap index a became k n s :
  length (heap (redo_changeAttributes index a became k n s).1) = length (heap s).
Proof.
  revert k s. induction n as [|n IH]; intros k s; simpl; [done|].
  destruct (index !! k) as [j|]; [|done].
  destruct (arr_get (cells s) j) as [| |l]; [done..|].
  rewrite IH. simpl. by rewrite heap_set_length.
Qed.

Lemma changeAttributes_loop_heap index a to k n s :
  length (heap (changeAttributes_loop index a to k n s).1) = length (heap s).
Proof.
  revert k s. induction n as [|n IH]; intros k s; simpl; [done|].
  destruct (index !! k) as [j|]; [|done].
  destruct (arr_get (cells s) j) as [| |l]; [done..|].
  rewrite IH. simpl. by rewrite heap_set_length.
Qed.

Lemma undo_redo_grid c s :
  is_commit c = false →
  history (call c s).1 = history s ∧
  length (heap (call c s).1) = length (heap s) ∧
  length (cells s) ≤ length (cells (call c s).1) ∧
  ∀ r, r ∈ cells (call c s).1 →
       r ∈ cells s ∨ r = RUndefined ∨ ∃ e, e ∈ history s ∧ r ∈ entry_refs e.
Proof.
  intros Hc. destruct c; try done; simpl.
  - split; [by destruct (undo_log s)|].
    unfold undo. destruct (decide (length (history s) = 0)); [by split; [|split; [|left]]|].
    set (s1 := if decide (i s ≠ 0) then set_i s (i s - 1) else s).
    assert (heap s1 = heap s ∧ cells s1 = cells s ∧ history s1 = history s) as (Hh & Hcs & Hhs).
    { subst s1. by case_decide. }
    rewrite <- Hh, <- Hcs, <- Hhs. clearbody s1.
    destruct (history s1 !! i s1) as [e|] eqn:He; [|by split; [|split; [|left]]].
    apply list_elem_of_lookup_2 in He.
    destruct e as [index a w b|index a w b|index w b|index w b]; simpl.
    + destruct (arr_get (cells s1) index); simpl; rewrite ?heap_set_length;
        by split; [|split; [|left]].
    + destruct (undo_changeAttributes_log index a w 0 (length index) s1) as (_ & _ & Hcc).
      rewrite Hcc, undo_changeAttributes_heap. by split; [|split; [|left]].
    + split; [done|]. split; [apply arr_set_length_ge|].
      intros r Hr. destruct (arr_set_elem _ _ _ _ Hr) as [?|[->| ->]];
        [by left|by right; left|].
      right; right. eexists. split; [done|]. simpl. constructor.
    + destruct (write_cells_grid index w 0 (length index) (cells s1)) as [Hl Hin].
      split; [done|]. split; [done|].
      intros r Hr. destruct (Hin r Hr) as [?|[->|?]]; [by left|by right; left|].
      right; right. eexists. split; [done|]. simpl. apply elem_of_app. by left.
  - split; [apply redo_log|].
    unfold redo. destruct (decide (length (history s) = 0)); [by split; [|split; [|left]]|].
    destruct (history s !! i s) as [e|] eqn:He; [|by split; [|split; [|left]]].
    apply list_elem_of_lookup_2 in He.
    destruct e as [index a w b|index a w b|index w b|index w b]; simpl.
    + destruct (arr_get (cells s) index); simpl; rewrite ?heap_set_length;
        by split; [|split; [|left]].
    + pose proof (redo_changeAttributes_log index a b 0 (length index) s) as (_ & _ & Hcs & _).
      pose proof (redo_changeAttributes_heap index a b 0 (length index) s) as Hh.
      destruct (redo_changeAttributes index a b 0 (length index) s) as [s' []];
        cbn [fst snd] in *; simpl; rewrite Hcs, Hh; by split; [|split; [|left]].
    + split; [done|]. split; [apply arr_set_length_ge|].
      intros r Hr. destruct (arr_set_elem _ _ _ _ Hr) as [?|[->| ->]];
        [by left|by right; left|].
      right; right. eexists. split; [done|]. simpl. do 2 constructor.
    + destruct (write_cells_grid index b 0 (length index) (cells s)) as [Hl Hin].
      split; [done|]. split; [done|].
      intros r Hr. destruct (Hin r Hr) as [?|[->|?]]; [by left|by right; left|].
      right; right. eexists. split; [done|]. simpl. apply elem_of_app. by right.
Qed.

(** [undo] and [redo] make no cell object and copy none: the log and the
    size of the store stay as they are, the grid keeps its slots, and
    every reference in the grid afterwards was in the grid before or is
    one the log holds (or is the [undefined] of a hole).  The cells an
    undo or a redo brings back are the log's own objects. *)
Theorem undo_redo_reuse_log_objects c s :
  is_commit c = false →
  history (call c s).1 = history s ∧
  length (heap (call c s).1) = length (heap s) ∧
  length (cells s) ≤ length (cells (call c s).1) ∧
  ∀ r, r ∈ cells (call c s).1 →
       r ∈ cells s ∨ r = RUndefined ∨ ∃ e, e ∈ history s ∧ r ∈ entry_refs e.
Proof. apply undo_redo_grid. Qed.

Lemma undo_redo_reuse_log_objects_witness :
  let s := calls [SwapCell 0 (RObj 0) (RObj 1)] (create [cell_a; cell_b] [RObj 0]) in
  is_commit Undo = false ∧
  history (call Undo s).1 = history s ∧
  length (heap (call Undo s).1) = length (heap s) ∧
  length (cells s) ≤ length (cells (call Undo s).1) ∧
  RObj 2 ∈ cells (call Undo s).1 ∧
  (RObj 2 ∈ cells s ∨ RObj 2 = RUndefined ∨ ∃ e, e ∈ history s ∧ RObj 2 ∈ entry_refs e).
Proof.
  intros s. split; [reflexivity|].
  destruct (undo_redo_reuse_log_objects Undo s eq_refl) as (H1 & H2 & H3 & H4).
  split; [exact H1|]. split; [exact H2|]. split; [exact H3|].
  assert (RObj 2 ∈ cells (call Undo s).1) as Hin by (vm_compute; constructor).
  split; [exact Hin|]. exact (H4 _ Hin).
Defined.

(** ** Going back and forth along the log *)

Lemma calls_app cs cs' s : calls (cs ++ cs') s = calls cs' (calls cs s).
Proof. unfold calls. by rewrite foldl_app. Qed.

Lemma accurate_commits_app s cs cs' :
  accurate_commits s (cs ++ cs') ↔ accurate_commits s cs ∧ accurate_commits (calls cs s) cs'.
Proof.
  revert s. induction cs as [|c cs IH]; intros s; simpl.
  { intuition. }
  rewrite IH. change (calls (c :: cs) s) with (calls cs (call c s).1). intuition.
Qed.

Lemma apart_app_r s P P' : apart s (P ++ P') → apart s P'.
Proof.
  intros [H1 H2 H3 H4 H5]. apply NoDup_app in H3 as (_ & _ & H3).
  split; [done|done|done| |].
  - intros l Hl. apply H4, elem_of_app. by right.
  - intros l Hl Hin. apply (H5 l Hl), elem_of_app. by right.
Qed.

Lemma to_undo_redo k es : ∃ X, to_undo k es ≡ₚ X ++ to_redo k es.
Proof.
  exists ((take k es ≫= was_locs) ++ (take k es ≫= became_locs)).
  unfold to_undo, to_redo. rewrite <- (take_drop k es) at 2.
  by rewrite bind_app, !(assoc_L (++)).
Qed.

(** The grids along a sequence of accurate commits from a new log: the
    log has one entry for each commit and grid [m] of its course is the
    one the first [m] commits give. *)
Lemma commits_course s cs :
  history s = [] → i s = 0 →
  unshared (cells s) → Forall (allocated (heap s)) (cells s) →
  accurate_commits s cs →
  length (history (calls cs s)) = length cs ∧
  i (calls cs s) = length cs ∧
  apart (calls cs s) (hist_locs (history (calls cs s))) ∧
  ∃ vs, timeline (heap (calls cs s)) (history (calls cs s)) vs ∧
        ∀ m, m ≤ length cs → vs !! m = Some (view (calls (take m cs) s)).
Proof.
  intros Hh Hi Hu Ha. induction cs as [|c cs IH] using rev_ind; intros Hacc.
  { simpl. rewrite Hh, Hi. split; [done|]. split; [done|]. split.
    { split; [done|done|constructor|by intros l Hl%elem_of_nil|].
      by intros l _ Hl%elem_of_nil. }
    exists [view s]. split.
    - split; [done|]. intros k e v v' He. by rewrite lookup_nil in He.
    - intros m Hm. by replace m with 0 by (simpl in Hm; lia). }
  apply accurate_commits_app in Hacc as [Hcs [Hc _]].
  destruct (IH Hcs) as (Hlen & Hi' & Hap & vs & Ht & Hvs).
  rewrite calls_app. change (calls [c] (calls cs s)) with (call c (calls cs s)).1.
  set (sN := calls cs s) in *.
  destruct (commit_step sN c) as (e & _ & Hh' & Hi'' & Hap' & Hag & Hok & Hok' & Hr & Hu');
    [lia|done|done|].
  rewrite length_app. simpl.
  split; [rewrite Hh', length_app; simpl; lia|].
  split; [rewrite Hi'', Hh', length_app; simpl; lia|].
  split; [done|].
  exists (vs ++ [view (call c sN).1]). split.
  - rewrite Hh'. apply (timeline_snoc _ _ _ _ (view sN)); try done.
    + by apply (timeline_agree (heap sN)).
    + rewrite Hlen. rewrite Hvs by done. by rewrite take_ge by lia.
  - intros m Hm. destruct Ht as [Hl _]. rewrite Hlen in Hl.
    destruct (decide (m ≤ length cs)) as [Hle|Hgt].
    + rewrite lookup_app_l by lia. rewrite Hvs by done.
      by rewrite take_app_le by done.
    + rewrite lookup_app_r by lia. replace (m - length vs) with 0 by lia.
      rewrite take_ge by (rewrite length_app; simpl; lia).
      rewrite calls_app. done.
Qed.

Lemma undos_redos_course s cs k j :
  history s = [] → i s = 0 →
  unshared (cells s) → Forall (allocated (heap s)) (cells s) →
  accurate_commits s cs →
  j ≤ k → k ≤ length cs →
  view (undos k (calls cs s)) = view (calls (take (length cs - k) cs) s) ∧
  view (redos j (undos k (calls cs s))) = view (calls (take (length cs - k + j) cs) s).
Proof.
  intros Hh Hi Hu Ha Hacc Hj Hk.
  destruct (commits_course s cs Hh Hi Hu Ha Hacc) as (Hlen & Hi' & Hap & vs & Ht & Hvs).
  set (sN := calls cs s) in *. set (es := history sN) in *. set (n := length cs) in *.
  assert (at_step (heap sN) es vs (to_undo (n - k + k) es) sN (n - k + k)) as Hs.
  { replace (n - k + k) with n by lia.
    split; [done|]. split; [done|]. split; [lia|]. split; [by rewrite Hvs, take_ge by done|].
    split; [|done]. unfold to_undo. rewrite take_ge by lia. exact Hap. }
  pose proof (undos_at_step (heap sN) es vs sN k (n - k) Ht Hs) as Hu0.
  assert (at_step (heap sN) es vs (to_redo (n - k) es) (undos k sN) (n - k)) as Hr0.
  { destruct Hu0 as (H1 & H2 & H3 & H4 & H5 & H6).
    destruct (to_undo_redo (n - k) es) as [X HX].
    split; [done|]. split; [done|]. split; [done|]. split; [done|]. split.
    - apply (apart_app_r _ X). by apply (apart_perm _ _ _ HX).
    - intros l Hl. apply H6. rewrite HX. apply elem_of_app. by right. }
  pose proof (redos_at_step (heap sN) es vs (undos k sN) j (n - k) Ht) as Hr1.
  destruct Hr1 as (_ & _ & _ & Hv1 & _); [lia|done|].
  destruct Hu0 as (_ & _ & _ & Hv0 & _).
  rewrite Hvs in Hv0 by lia. rewrite Hvs in Hv1 by lia.
  split; congruence.
Qed.

(** Going back and part of the way forth.  Start from a new log over a
    grid in which no cell object is in two slots and make accurate
    commits.  Then [k] undos show the grid as it was after the first
    [length cs - k] commits, and [j] redos after them, [j] no more than
    [k], show the grid as it was after [j] commits more. *)
Theorem undo_redo_partial s cs k j :
  history s = [] → i s = 0 →
  unshared (cells s) → Forall (allocated (heap s)) (cells s) →
  accurate_commits s cs →
  j ≤ k → k ≤ length cs →
  view (undos k (calls cs s)) = view (calls (take (length cs - k) cs) s) ∧
  view (redos j (undos k (calls cs s))) = view (calls (take (length cs - k + j) cs) s).
Proof. apply undos_redos_course. Qed.

Lemma undo_redo_partial_witness :
  accurate_commits sample_state sample_commits ∧
  view (undos 3 (calls sample_commits sample_state))
  = view (calls (take (4 - 3) sample_commits) sample_state) ∧
  view (redos 2 (undos 3 (calls sample_commits sample_state)))
  = view (calls (take (4 - 3 + 2) sample_commits) sample_state).
Proof.
  assert (accurate_commits sample_state sample_commits) as Hacc.
  { cbn [accurate_commits sample_commits].
    split.
    { split; [done|]. split; [done|]. split; [done|]. split; [simpl; lia|].
      split; [done|]. intros l [= <-].
      split; [|split]; [|apply not_elem_of_nil..].
      cbn. by intros Hin%list_elem_of_singleton. }
    split.
    { split; [done|]. split; [done|]. eexists. split; reflexivity. }
    split.
    { split; [done|]. split; [done|].
      split; [repeat constructor; (done || simpl; lia)|].
      split; [repeat constructor; (done || simpl; lia)|].
      repeat constructor. }
    split; [|done].
    split; [done|]. split; [by repeat constructor|]. split; [by repeat constructor|].
    repeat constructor. eexists. split; reflexivity. }
  split; [exact Hacc|].
  apply (undo_redo_partial sample_state sample_commits 3 2); try done.
  - intros j1 j2 l H1 H2.
    destruct j1 as [|[|j1]], j2 as [|[|j2]]; done.
  - repeat constructor.
  - lia.
  - simpl. lia.
Defined.

(** The law stops there: a second round of undos and redos can show
    another grid.  Here the second of three commits renames the cell the
    first has put in; after three undos and three redos the renamed cell
    is the one of the log, and three undos and one redo more show it with
    the new name. *)
Lemma undo_redo_second_round :
  let s := create [cell_a; cell_b; cell_c] [RObj 0] in
  let cs := [SwapCell 0 (RObj 0) (RObj 1);
             ChangeAttribute 0 Kname (AString "b") (AString "z");
             SwapCell 0 (RObj 1) (RObj 2)] in
  view (calls (take 1 cs) s) = [VObj cell_b] ∧
  view (redos 1 (undos 3 (calls cs s))) = [VObj cell_b] ∧
  view (redos 1 (undos 3 (redos 3 (undos 3 (calls cs s))))) = [VObj (namedCell seat "z")].
Proof. vm_compute. done. Qed.

Lemma arr_get_set_same (c : list CellRef) k v : arr_get (arr_set c k v) k = v.
Proof.
  unfold arr_get, arr_set. case_decide.
  - by rewrite list_lookup_insert_eq.
  - rewrite lookup_app_r by lia. rewrite lookup_app_r by (rewrite length_replicate; lia).
    rewrite length_replicate. by replace (k - length c - (k - length c)) with 0 by lia.
Qed.

(** The reason is that [redo] puts the log's own object into the grid.
    When the entry at the cursor is a swap that puts an object into a
    slot and the next entry changes an attribute of that slot, two redos
    change the object the swap's entry holds: the log no longer has the
    cell that was committed. *)
Theorem redo_alters_logged_cell s k w l a x y :
  history s !! i s = Some (swappedCellE k w (RObj l)) →
  history s !! (i s + 1) = Some (changeAttributeE k a x y) →
  l < length (heap s) →
  history (redos 2 s) = history s ∧
  i (redos 2 s) = i s + 2 ∧
  deref (heap (redos 2 s)) (RObj l) = VObj (set_attribute (heap s !!! l) a y).
Proof.
  intros H0 H1 Hl.
  assert (length (history s) ≠ 0) as Hne.
  { apply lookup_lt_Some in H0. lia. }
  change (redos 2 s) with (redo (redo s).1).1.
  assert ((redo s).1 = set_i (set_cells s (arr_set (cells s) k (RObj l))) (i s + 1)) as ->.
  { unfold redo. rewrite decide_False by done. by rewrite H0. }
  unfold redo. cbn [history set_i set_cells i cells heap].
  rewrite decide_False by done. rewrite H1, arr_get_set_same. cbn.
  split; [done|]. split; [lia|]. by rewrite heap_set_same.
Qed.

Lemma redo_alters_logged_cell_witness :
  let s := undos 3 (calls [SwapCell 0 (RObj 0) (RObj 1);
                           ChangeAttribute 0 Kname (AString "b") (AString "z");
                           SwapCell 0 (RObj 1) (RObj 2)]
                      (create [cell_a; cell_b; cell_c] [RObj 0])) in
  history s !! i s = Some (swappedCellE 0 (RObj 3) (RObj 4)) ∧
  deref (heap s) (RObj 4) = VObj cell_b ∧
  deref (heap (redos 2 s)) (RObj 4) = VObj (namedCell seat "z").
Proof.
  intros s. split; [reflexivity|]. split; [reflexivity|].
  refine (eq_trans (proj2 (proj2 (redo_alters_logged_cell s 0 (RObj 3) 4 Kname
                                    (AString "b") (AString "z") _ _ _))) _).
  - reflexivity.
  - reflexivity.
  - vm_compute. lia.
  - reflexivity.
Defined.

(** ** What [swapCells] keeps *)

Lemma addHistoryEntry_swaps_eq s index w b :
  addHistoryEntry (swappedCellsE index w b) s
  = (mk (deepClone_cells (deepClone_cells (heap s) w).1 b).1 (cells s)
       (take (i s + 1) (history s)
        ++ [swappedCellsE index (deepClone_cells (heap s) w).2
              (deepClone_cells (deepClone_cells (heap s) w).1 b).2])
       (length (take (i s + 1) (history s)) + 1) (console s), Return).
Proof.
  unfold addHistoryEntry. case_decide; cbn [heap set_history].
  all: destruct (deepClone_cells (heap s) w) as [h1 w']; cbn [fst snd].
  all: destruct (deepClone_cells h1 b) as [h2 b']; cbn.
  - by rewrite length_app.
  - rewrite take_ge by lia. by rewrite length_app.
Qed.

Lemma set_slots_elem ws (c : list CellRef) r :
  r ∈ set_slots ws c → r ∈ c ∨ r ∈ ws.*2.
Proof.
  revert c. induction ws as [|[k x] ws IH]; intros c Hr; [by left|].
  change (set_slots ((k, x) :: ws) c) with (set_slots ws (<[k:=x]> c)) in Hr.
  destruct (IH _ Hr) as [Hin|Hin]; [|right; by right].
  apply list_elem_of_lookup in Hin as [j Hj].
  destruct (decide (j = k)) as [->|Hne].
  - apply list_lookup_insert_Some in Hj as [(_ & <- & _)|[? _]]; [|done].
    right. left.
  - rewrite list_lookup_insert_ne in Hj by done. left. by eapply list_elem_of_lookup_2.
Qed.

Lemma swapCells_result index from to s :
  Forall (allocated (heap s)) (cells s) →
  Forall (λ r, r ≠ RUndefined ∧ allocated (heap s) r) from →
  Forall (λ r, r ≠ RUndefined ∧ allocated (heap s) r) to →
  length to = length index → Forall (λ k, k < length (cells s)) index →
  ∃ h' g w b,
    swapCells index from to s
    = (mk h' (set_slots (zip index g) (cells s))
         (take (i s + 1) (history s) ++ [swappedCellsE index w b])
         (length (take (i s + 1) (history s)) + 1) (console s), Return) ∧
    made (heap s) h' (ref_locs g ++ (ref_locs w ++ ref_locs b)) ∧
    length g = length to ∧
    deref h' <$> g = deref (heap s) <$> to ∧
    deref h' <$> w = deref (heap s) <$> from ∧
    deref h' <$> b = deref (heap s) <$> to.
Proof.
  intros Ha Hf Ht Hlen Hrange.
  assert (Forall (λ r, r ≠ RUndefined) from ∧ Forall (allocated (heap s)) from) as [Hfu Hfa].
  { split; (eapply Forall_impl; [exact Hf|]); by intros r [? ?]. }
  assert (Forall (λ r, r ≠ RUndefined) to ∧ Forall (allocated (heap s)) to) as [Htu Hta].
  { split; (eapply Forall_impl; [exact Ht|]); by intros r [? ?]. }
  unfold swapCells. rewrite swapCells_loop_unrolled; [|done|done|by rewrite drop_0..].
  rewrite !drop_0.
  destruct (deepClone_cells_spec (heap s) to Hta) as (h2 & g & Hc2 & Hm2 & Hal2 & Hgl & Hg).
  rewrite Hc2. cbn [fst snd].
  rewrite addHistoryEntry_swaps_eq. cbn [heap cells history i console set_heap set_cells].
  assert (heap s `prefix_of` h2) as Hp2 by apply Hm2.
  destruct (deepClone_cells_spec h2 from) as (h3 & w & Hc3 & Hm3 & Hal3 & _ & Hw).
  { eapply Forall_impl; [exact Hfa|]. intros r. by apply allocated_extends. }
  rewrite Hc3. cbn [fst snd].
  assert (h2 `prefix_of` h3) as Hp3 by apply Hm3.
  destruct (deepClone_cells_spec h3 to) as (h4 & b & Hc4 & Hm4 & Hal4 & _ & Hb).
  { eapply Forall_impl; [exact Hta|]. intros r Hr.
    eapply allocated_extends; [exact Hp3|]. by eapply allocated_extends. }
  rewrite Hc4. cbn [fst snd].
  assert (h3 `prefix_of` h4) as Hp4 by apply Hm4.
  exists h4, g, w, b. split; [done|].
  split; [eapply made_app; [exact Hm2|]; by eapply made_app|].
  split; [done|]. split; [|split].
  - rewrite (deref_fmap_extends h2 h4) by (done || by trans h3). by apply Hg.
  - rewrite (deref_fmap_extends h3 h4) by done. rewrite Hw by done.
    by apply deref_fmap_extends.
  - rewrite Hb by done. apply deref_fmap_extends; [|done]. by trans h2.
Qed.

(** [swapCells] keeps none of the objects it is given.  With new cells
    for slots of the grid, none of them [undefined], it returns; the
    slots show the new cells in copies made for the grid, and the entry
    logged holds copies of its own of the old and of the new cells.  The
    objects of the log are new, no two the same, and not in the grid, and
    an object that is new in the grid is a new object: what the caller
    does with its cells afterwards reaches neither the grid nor the
    log. *)
Theorem swapCells_keeps_copies index from to s :
  Forall (allocated (heap s)) (cells s) →
  Forall (λ r, r ≠ RUndefined ∧ allocated (heap s) r) from →
  Forall (λ r, r ≠ RUndefined ∧ allocated (heap s) r) to →
  length to = length index → Forall (λ k, k < length (cells s)) index →
  ∃ w b,
    (swapCells index from to s).2 = Return ∧
    history (swapCells index from to s).1
    = take (i s + 1) (history s) ++ [swappedCellsE index w b] ∧
    heap s `prefix_of` heap (swapCells index from to s).1 ∧
    deref (heap (swapCells index from to s).1) <$> w = deref (heap s) <$> from ∧
    deref (heap (swapCells index from to s).1) <$> b = deref (heap s) <$> to ∧
    view (swapCells index from to s).1
    = apply_writes (cell_write (heap s) <$> zip index to) (view s) ∧
    (∀ l, RObj l ∈ cells (swapCells index from to s).1 →
          RObj l ∈ cells s ∨ length (heap s) ≤ l) ∧
    NoDup (ref_locs w ++ ref_locs b) ∧
    (∀ l, l ∈ ref_locs w ++ ref_locs b →
          length (heap s) ≤ l ∧ RObj l ∉ cells (swapCells index from to s).1).
Proof.
  intros Ha Hf Ht Hlen Hrange.
  destruct (swapCells_result index from to s Ha Hf Ht Hlen Hrange)
    as (h' & g & w & b & -> & (Hp & Hnd & Hfresh) & Hgl & Hg & Hw & Hb).
  exists w, b. cbn [fst snd history heap cells].
  apply NoDup_app in Hnd as (Hndg & Hsep & Hndwb).
  assert (∀ l, RObj l ∈ set_slots (zip index g) (cells s) →
               RObj l ∈ cells s ∨ l ∈ ref_locs g) as Hgrid.
  { intros l Hl. destruct (set_slots_elem _ _ _ Hl) as [?|Hin]; [by left|]. right.
    apply elem_of_ref_locs. rewrite snd_zip in Hin by lia. done. }
  split; [done|]. split; [done|]. split; [done|]. split; [done|]. split; [done|].
  split; [|split; [|split; [done|]]].
  - unfold view. cbn [heap cells]. rewrite set_slots_view.
    rewrite (deref_fmap_extends (heap s) h') by done.
    by rewrite (cell_writes_ext h' (heap s) index g to).
  - intros l Hl. destruct (Hgrid l Hl) as [?|Hin]; [by left|]. right.
    apply Hfresh, elem_of_app. by left.
  - intros l Hl. split; [apply Hfresh, elem_of_app; by right|].
    intros Hin. destruct (Hgrid l Hin) as [Hc|Hgl'].
    + rewrite Forall_forall in Ha. specialize (Ha _ Hc). simpl in Ha.
      assert (length (heap s) ≤ l) by (apply Hfresh, elem_of_app; by right). lia.
    + by apply (Hsep l).
Qed.

Lemma swapCells_keeps_copies_witness :
  let s := create [cell_a; cell_b] [RObj 0; RNull] in
  Forall (allocated (heap s)) (cells s) ∧
  ∃ w b,
    (swapCells [1] [RNull] [RObj 1] s).2 = Return ∧
    NoDup (ref_locs w ++ ref_locs b) ∧
    deref (heap (swapCells [1] [RNull] [RObj 1] s).1) <$> b = [VObj cell_b] ∧
    view (swapCells [1] [RNull] [RObj 1] s).1 = [VObj cell_a; VObj cell_b].
Proof.
  intros s.
  assert (Forall (allocated (heap s)) (cells s)) as Ha.
  { repeat constructor; simpl; lia. }
  split; [exact Ha|].
  destruct (swapCells_keeps_copies [1] [RNull] [RObj 1] s Ha)
    as (w & b & H1 & _ & _ & _ & H5 & H6 & _ & H8 & _).
  - repeat constructor; done.
  - repeat constructor; (done || simpl; lia).
  - reflexivity.
  - repeat constructor; simpl; lia.
  - exists w, b. split; [exact H1|]. split; [exact H8|].
    split; [exact (eq_trans H5 eq_refl)|exact (eq_trans H6 eq_refl)].
Defined.

(** ** Batched commits that fail *)

Lemma changeAttributes_loop_stops pre bad rest a to k n s :
  k ≤ length pre → k + n = length (pre ++ bad :: rest) → length pre ≤ length to →
  Forall (λ j, is_obj (arr_get (cells s) j) = true) (drop k pre) →
  is_obj (arr_get (cells s) bad) = false →
  changeAttributes_loop (pre ++ bad :: rest) a to k n s
  = (set_heap s (set_attrs (cells s) a (drop k (zip pre to)) (heap s)), Thrown).
Proof.
  revert k s. induction n as [|n IH]; intros k s Hk Hn Hto Hobj Hbad.
  { rewrite length_app in Hn. simpl in Hn. lia. }
  cbn [changeAttributes_loop].
  destruct (decide (k = length pre)) as [->|Hne].
  - rewrite list_lookup_middle by done.
    rewrite drop_ge by (rewrite length_zip; lia).
    destruct (arr_get (cells s) bad); [by destruct s..|done].
  - assert (k < length pre) as Hlt by lia.
    destruct (lookup_lt_is_Some_2 pre k Hlt) as [j Hj].
    destruct (lookup_lt_is_Some_2 to k) as [x Hx]; [lia|].
    rewrite lookup_app_l, Hj by done.
    rewrite (drop_S _ _ _ Hj) in Hobj. apply Forall_cons in Hobj as [Hjo Hobj].
    rewrite (zip_drop_lookup _ _ _ _ _ Hj Hx).
    destruct (arr_get (cells s) j) as [| |l] eqn:Hc; [done|done|].
    unfold attr_get. rewrite Hx. cbn [default].
    rewrite IH; [|lia|lia|done|done|done].
    cbn [cells heap set_heap].
    change (set_attrs (cells s) a ((j, x) :: drop (S k) (zip pre to)) (heap s))
      with (set_attrs (cells s) a (drop (S k) (zip pre to))
              (match arr_get (cells s) (j, x).1 with
               | RObj l => heap_set (heap s) l a (j, x).2
               | _ => heap s
               end)).
    cbn [fst snd]. by rewrite Hc.
Qed.

(** [changeAttributes] is not all or nothing.  When the slots named
    first hold cell objects and the next one does not, the call throws a
    TypeError after it has changed the cells of the slots before that
    one: these keep their new values, nothing is logged, and the cursor
    and the grid's slots are as they were. *)
Theorem changeAttributes_not_atomic pre bad rest a from to s :
  Forall (λ j, is_obj (arr_get (cells s) j) = true) pre →
  is_obj (arr_get (cells s) bad) = false →
  length pre ≤ length to →
  changeAttributes (pre ++ bad :: rest) a from to s
  = (set_heap s (set_attrs (cells s) a (zip pre to) (heap s)), ThrowTypeError).
Proof.
  intros Hobj Hbad Hto. unfold changeAttributes.
  rewrite (changeAttributes_loop_stops pre bad rest a to 0);
    [by rewrite drop_0|lia|done|done|by rewrite drop_0|done].
Qed.

Lemma changeAttributes_not_atomic_witness :
  let s := create [cell_a; cell_b; cell_c] [RObj 0; RObj 1; RNull; RObj 2] in
  let r := changeAttributes [0; 1; 2; 3] Kname [] [AString "x"; AString "y"; AString "z"] s in
  Forall (λ j, is_obj (arr_get (cells s) j) = true) [0; 1] ∧
  is_obj (arr_get (cells s) 2) = false ∧
  r.2 = ThrowTypeError ∧
  view r.1 = [VObj (namedCell seat "x"); VObj (namedCell seat "y"); VNull; VObj cell_c] ∧
  history r.1 = [].
Proof.
  intros s r.
  assert (Forall (λ j, is_obj (arr_get (cells s) j) = true) [0; 1]) as Hobj
    by (by repeat constructor).
  assert (r = (set_heap s (set_attrs (cells s) Kname
                             (zip [0; 1] [AString "x"; AString "y"; AString "z"]) (heap s)),
               ThrowTypeError)) as Hr.
  { apply (changeAttributes_not_atomic [0; 1] 2 [3] Kname [] _ s Hobj eq_refl).
    simpl. lia. }
  split; [exact Hobj|]. split; [reflexivity|].
  rewrite Hr. repeat split.
Defined.

End HistoryLaws.

(** * Further properties of the collision dispatcher *)

Module CollisionLaws.
Import CollisionManager CollisionSpec CollisionEvents CollisionProofs.

Section WithRef.

Context {ref : Type}.

Implicit Types (s : t ref) (c : Collision ref) (tr : list (Invocation ref)).

(** ** The buttons held *)

Lemma includes_elem b (l : list MouseButtons) : includes b l = true ↔ b ∈ l.
Proof.
  unfold includes. rewrite existsb_exists. split.
  - intros (b' & Hin & Heq). apply Z.eqb_eq in Heq as ->. by apply list_elem_of_In.
  - intros Hin. exists b. split; [by apply list_elem_of_In|apply Z.eqb_refl].
Qed.

Lemma remove_first_spec b (l : list MouseButtons) :
  NoDup l →
  NoDup (remove_first b l) ∧ ∀ b', b' ∈ remove_first b l ↔ b' ∈ l ∧ b' ≠ b.
Proof.
  induction 1 as [|a l Ha Hl IH]; simpl.
  { split; [constructor|]. intros b'. rewrite elem_of_nil. tauto. }
  destruct IH as [IH1 IH2]. destruct (Z.eqb_spec a b) as [->|Hne].
  - split; [done|]. intros b'. rewrite elem_of_cons. split.
    + intros Hin. split; [by right|]. by intros ->.
    + intros [[?|?] ?]; done.
  - split.
    + constructor; [|done]. rewrite IH2. tauto.
    + intros b'. rewrite !elem_of_cons, IH2. split.
      * intros [->|[? ?]]; [by split; [left|]|by split; [right|]].
      * intros [[->|?] ?]; [by left|by right].
Qed.

Lemma handle_held e s b :
  NoDup (mouseButtonsDown s) →
  NoDup (mouseButtonsDown (handle e s).1) ∧
  includes b (mouseButtonsDown (handle e s).1) = held [e] b (includes b (mouseButtonsDown s)).
Proof.
  intros Hnd. destruct e as [b' px py|px py|b' px py]; simpl.
  - destruct (includes b' (mouseButtonsDown s)) eqn:Hinc.
    + split; [done|]. destruct (Z.eqb_spec b' b) as [->|]; done.
    + split.
      * apply NoDup_app. split; [done|]. split; [|apply NoDup_singleton].
        intros z Hz Hz'%list_elem_of_singleton. subst z.
        apply includes_elem in Hz. congruence.
      * unfold includes. rewrite existsb_app. simpl. rewrite orb_false_r.
        rewrite (Z.eqb_sym b b').
        destruct (Z.eqb_spec b' b) as [->|]; [apply orb_true_r|apply orb_false_r].
  - done.
  - destruct (remove_first_spec b' _ Hnd) as [H1 H2]. split; [done|].
    apply eq_true_iff_eq. rewrite includes_elem, H2.
    destruct (Z.eqb_spec b' b) as [->|Hne].
    + split; [by intros [_ ?]|done].
    + rewrite includes_elem. split; [tauto|]. intros ?. split; [done|congruence].
Qed.

(** The list of held buttons works as a set.  Along any sequence of
    presses, moves and releases no button is in it twice, and a button is
    in it exactly when its last press comes after its last release (or,
    with neither, when it was in it at the start). *)
Theorem held_buttons evs s :
  NoDup (mouseButtonsDown s) →
  NoDup (mouseButtonsDown (run evs s).1) ∧
  ∀ b, b ∈ mouseButtonsDown (run evs s).1 ↔
       held evs b (includes b (mouseButtonsDown s)) = true.
Proof.
  revert s. induction evs as [|e evs IH]; intros s Hnd.
  { simpl. split; [done|]. intros b. by rewrite includes_elem. }
  change (run (e :: evs) s).1 with (run evs (handle e s).1).1.
  destruct (handle_held e s 0%Z Hnd) as [Hnd' _].
  destruct (IH _ Hnd') as [H1 H2]. split; [done|].
  intros b. rewrite H2. destruct (handle_held e s b Hnd) as [_ ->].
  by destruct e.
Qed.

(** ** The distances given to the drag listeners *)

Lemma drag_sum_app l tr1 tr2 :
  drag_sum l (tr1 ++ tr2)
  = ((drag_sum l tr1).1 + (drag_sum l tr2).1, (drag_sum l tr1).2 + (drag_sum l tr2).2)%Z.
Proof.
  induction tr1 as [|inv tr1 IH]; simpl.
  { by destruct (drag_sum l tr2). }
  rewrite IH. destruct (kind inv), (payload inv); try done.
  destruct (Nat.eqb (listener inv) l); [|done]. simpl. f_equal; lia.
Qed.

Lemma drag_sum_other l tr :
  Forall (λ inv, kind inv ≠ drag) tr → drag_sum l tr = (0, 0)%Z.
Proof.
  induction 1 as [|inv tr Hk _ IH]; simpl; [done|].
  rewrite IH. by destruct (kind inv), (payload inv).
Qed.

Lemma drag_sum_notify_drag l ls dx dy bs :
  drag_sum (ref:=ref) l (notify_drag drag ls dx dy bs)
  = (registered l ls * dx, registered l ls * dy)%Z.
Proof.
  unfold registered, notify_drag. induction ls as [|l' ls IH]; [done|].
  rewrite fmap_cons. cbn [drag_sum kind payload listener]. rewrite IH, filter_cons.
  destruct (Nat.eqb_spec l' l) as [->|Hne].
  - rewrite decide_True by done. cbn [length fst snd]. f_equal; lia.
  - by rewrite decide_False by done.
Qed.

Lemma notify_kind k cs ls bs :
  Forall (λ inv : Invocation ref, kind inv = k) (notify k cs ls bs).
Proof.
  unfold notify. apply Forall_forall. intros inv Hin.
  apply list_elem_of_bind in Hin as (c & Hin & _).
  apply list_elem_of_bind in Hin as (l & Hin & _).
  by apply list_elem_of_singleton in Hin as ->.
Qed.

Lemma notify_drag_kind k ls dx dy bs :
  Forall (λ inv : Invocation ref, kind inv = k) (notify_drag k ls dx dy bs).
Proof.
  unfold notify_drag. apply Forall_fmap, Forall_forall. by intros l _.
Qed.

Lemma drag_sum_notify l k (cs : list (Collision ref)) ls bs :
  k ≠ drag → drag_sum l (notify k cs ls bs) = (0, 0)%Z.
Proof.
  intros Hk. apply drag_sum_other.
  eapply Forall_impl; [apply notify_kind|]. by intros inv ->.
Qed.

Lemma handle_drag_sum e s l :
  is_down e = false →
  listeners_drag (handle e s).1 = listeners_drag s ∧
  drag_sum l (handle e s).2
  = (registered l (listeners_drag s) * ((drag_latest (handle e s).1).1 - (drag_latest s).1),
     registered l (listeners_drag s) * ((drag_latest (handle e s).1).2 - (drag_latest s).2))%Z.
Proof.
  intros He. destruct e as [b' px py|px py|b' px py]; [done| |].
  - unfold handle, mousemove. cbn [fst snd drag_latest listeners_drag]. split; [done|].
    rewrite !drag_sum_app. rewrite (drag_sum_notify l hover) by done.
    destruct (decide (length _ = 0)); rewrite ?(drag_sum_notify l hover) by done;
      cbn [drag_sum fst snd]; rewrite !Z.add_0_r.
    all: destruct (Z.eqb_spec px (drag_latest s).1) as [Hx|Hx];
      destruct (Z.eqb_spec py (drag_latest s).2) as [Hy|Hy]; cbn [negb orb];
      rewrite ?drag_sum_notify_drag; try done.
    all: rewrite Hx, Hy, !Z.sub_diag, !Z.mul_0_r; done.
  - unfold handle, mouseup. cbn [fst snd drag_latest listeners_drag]. split; [done|].
    rewrite drag_sum_app. rewrite (drag_sum_notify l click) by done.
    rewrite !Z.sub_diag, !Z.mul_0_r. cbn [fst snd].
    destruct (decide (length _ = 0)); [|done].
    rewrite drag_sum_other; [done|].
    eapply Forall_impl; [apply notify_drag_kind|]. by intros inv ->.
Qed.

(** The distances given to a drag listener add up to the way the pointer
    went.  Over any sequence of moves and releases, with no press in
    between, the sum of the distances a listener was called with is the
    difference between the last position seen and the one at the start,
    once for every time the listener is registered; the buttons play no
    part, so the listener is called for moves with no button held. *)
Theorem drag_distances_add_up evs s l :
  Forall (λ e, is_down e = false) evs →
  drag_sum l (run evs s).2
  = (registered l (listeners_drag s) * ((drag_latest (run evs s).1).1 - (drag_latest s).1),
     registered l (listeners_drag s) * ((drag_latest (run evs s).1).2 - (drag_latest s).2))%Z.
Proof.
  intros Hev. revert s. induction Hev as [|e evs He _ IH]; intros s.
  { simpl. rewrite !Z.sub_diag, !Z.mul_0_r. done. }
  change (run (e :: evs) s) with
    ((run evs (handle e s).1).1, (handle e s).2 ++ (run evs (handle e s).1).2).
  cbn [fst snd]. rewrite drag_sum_app, IH.
  destruct (handle_drag_sum e s l He) as [-> ->]. simpl. f_equal; lia.
Qed.

(** ** Hover *)

Lemma elem_of_notify k cs ls bs (inv : Invocation ref) :
  inv ∈ notify k cs ls bs ↔
  ∃ c l, c ∈ cs ∧ l ∈ ls ∧ inv = mkInvocation k l (CollisionArgs c bs).
Proof.
  unfold notify. rewrite list_elem_of_bind. split.
  - intros (c & Hin & Hc). apply list_elem_of_bind in Hin as (l & Hin & Hl).
    apply list_elem_of_singleton in Hin. by exists c, l.
  - intros (c & l & Hc & Hl & ->). exists c. split; [|done].
    apply list_elem_of_bind. exists l. split; [|done]. by apply list_elem_of_singleton.
Qed.

(** Every [mousemove] tells every hover listener something, whether or
    not the pointer has moved or the regions under it have changed: the
    listener is called for each registered region that contains the
    point and for these only, and when there is none it is called once
    with the region that stands for nothing, whose reference is -1. *)
Theorem hover_is_always_reported s px py l c bs :
  l ∈ listeners_hover s →
  (mkInvocation hover l (CollisionArgs c bs) ∈ (mousemove px py s).2 ↔
   bs = mouseButtonsDown s ∧
   ((c ∈ collisions s ∧ contains c px py) ∨
    (c = no_region ∧ ¬ ∃ c', c' ∈ collisions s ∧ contains c' px py))).
Proof.
  intros Hl. unfold mousemove. cbn [snd]. rewrite inside_filter.
  rewrite !elem_of_app.
  assert (mkInvocation hover l (CollisionArgs c bs)
            ∉ (if negb (px =? (drag_latest s).1)%Z || negb (py =? (drag_latest s).2)%Z
               then notify_drag drag (listeners_drag s) (px - (drag_latest s).1)
                      (py - (drag_latest s).2) (mouseButtonsDown s)
               else [])) as Hnd.
  { destruct (_ || _); [|apply not_elem_of_nil].
    intros Hin. pose proof (notify_drag_kind drag (listeners_drag s) (px - (drag_latest s).1)
                  (py - (drag_latest s).2) (mouseButtonsDown s)) as Hk.
    rewrite Forall_forall in Hk. by specialize (Hk _ Hin). }
  rewrite elem_of_notify.
  split.
  - intros [?|[(c' & l' & Hc & _ & Heq)|Hin]]; [done| |].
    + injection Heq as -> -> ->. apply list_elem_of_filter in Hc. split; [done|left; tauto].
    + case_decide as Hlen; [|by apply elem_of_nil in Hin].
      apply elem_of_notify in Hin as (c' & l' & Hc & _ & Heq).
      injection Heq as -> -> ->. apply list_elem_of_singleton in Hc as ->.
      split; [done|]. right. split; [done|].
      apply filter_nil_iff. by apply length_zero_iff_nil.
  - intros [-> [[Hc Hin]|[-> Hno]]].
    + right; left. exists c, l. split; [by apply list_elem_of_filter|done].
    + right; right. apply filter_nil_iff in Hno. rewrite Hno. cbn [length].
      rewrite decide_True by done. apply elem_of_notify.
      exists no_region, l. split; [apply list_elem_of_here|done].
Qed.

(** ** The click made by the program *)

(** [leftClick] does what a click with the left button does, as far as
    the click listeners go.  With no button held before and a region
    under the point, the listeners are called in the same way, with the
    same arguments, as by a press and a release of the left button at
    that point.  With no region under the point [leftClick] calls no
    listener, while the press and release call the drag-end listeners. *)
Theorem leftClick_is_a_click LEFT s px py :
  mouseButtonsDown s = [] →
  ((∃ c, c ∈ collisions s ∧ contains c px py) →
   (leftClick LEFT px py s).2 = (mouseup LEFT px py (mousedown LEFT px py s)).2) ∧
  ((¬ ∃ c, c ∈ collisions s ∧ contains c px py) →
   (leftClick LEFT px py s).2 = [] ∧
   (mouseup LEFT px py (mousedown LEFT px py s)).2
   = notify_drag dragend (listeners_dragend s) 0 0 [LEFT]).
Proof.
  intros Hb.
  assert (mouseup_active px py (mousedown LEFT px py s)
          = filter (λ c, contains c px py) (collisions s)) as Hact.
  { by rewrite mouseup_active_anchored. }
  unfold mouseup, leftClick. rewrite Hact. cbn [snd]. rewrite inside_filter.
  cbn [mousedown listeners_click listeners_dragend mouseButtonsDown drag_latest fst snd].
  rewrite Hb. cbn [includes existsb app]. rewrite !Z.sub_diag.
  split.
  - intros Hhit. destruct (filter _ (collisions s)) as [|c l] eqn:Hf.
    { apply filter_nil_iff in Hf. done. }
    cbn [length]. rewrite decide_False by done. by rewrite app_nil_r.
  - intros Hno. apply filter_nil_iff in Hno. rewrite Hno. cbn [length].
    by rewrite decide_True by done.
Qed.

End WithRef.

Local Open Scope Z_scope.

Lemma leftClick_is_a_click_witness :
  (let s := registerCollisions [mkCollision 0 0 10 10 (Ref "0")]
              (addEventListener click 1%nat (addEventListener dragend 2%nat init)) in
   mouseButtonsDown s = [] ∧
   (leftClick 0 5 5 s).2 = (mouseup 0 5 5 (mousedown 0 5 5 s)).2) ∧
  (let s := registerCollisions [mkCollision 0 0 10 10 (Ref "0")]
              (addEventListener click 1%nat (addEventListener dragend 2%nat init)) in
   mouseButtonsDown s = [] ∧
   (leftClick 0 50 50 s).2 = [] ∧
   (mouseup 0 50 50 (mousedown 0 50 50 s)).2 = notify_drag dragend [2%nat] 0 0 [0]).
Proof.
  split.
  - intros s. split; [reflexivity|].
    apply (proj1 (leftClick_is_a_click 0 s 5 5 eq_refl)).
    eexists. split; [apply list_elem_of_here|]. unfold contains. simpl. lia.
  - intros s. split; [reflexivity|].
    apply (proj2 (leftClick_is_a_click 0 s 50 50 eq_refl)).
    intros (c & Hc & Hin). apply list_elem_of_singleton in Hc as ->.
    unfold contains in Hin. simpl in Hin. lia.
Defined.

Lemma held_buttons_witness :
  let s := init (ref:=string) in
  let evs := [Down 0 1 1; Down 2 1 1; Down 0 3 3; Move 4 4; Up 0 4 4; Up 1 4 4] in
  NoDup (mouseButtonsDown s) ∧
  NoDup (mouseButtonsDown (run evs s).1) ∧
  (2 ∈ mouseButtonsDown (run evs s).1 ↔ held evs 2 (includes 2 (mouseButtonsDown s)) = true).
Proof.
  intros s evs.
  assert (NoDup (mouseButtonsDown s)) as Hnd by constructor.
  split; [exact Hnd|].
  destruct (held_buttons evs s Hnd) as [H1 H2]. split; [exact H1|exact (H2 2)].
Defined.

Lemma drag_distances_add_up_witness :
  let s := mousedown 0 5 5 (addEventListener (ref:=string) drag 7%nat init) in
  let evs := [Move 6 5; Move 6 5; Move 9 1; Up 0 9 1; Move 2 2] in
  Forall (λ e, is_down e = false) evs ∧
  drag_sum 7%nat (run evs s).2 = (-3, -3).
Proof.
  intros s evs.
  assert (Forall (λ e, is_down e = false) evs) as Hev by (repeat constructor).
  split; [exact Hev|].
  exact (eq_trans (drag_distances_add_up evs s 7%nat Hev) eq_refl).
Defined.

Lemma hover_is_always_reported_witness :
  let s := registerCollisions [mkCollision 0 0 10 10 (Ref "0")]
             (addEventListener hover 3%nat init) in
  3%nat ∈ listeners_hover s ∧
  mkInvocation hover 3%nat (CollisionArgs no_region []) ∈ (mousemove 50 50 s).2.
Proof.
  intros s.
  assert (3%nat ∈ listeners_hover s) as Hl by apply list_elem_of_here.
  split; [exact Hl|].
  apply (hover_is_always_reported s 50 50 3%nat no_region [] Hl).
  split; [reflexivity|]. right. split; [reflexivity|].
  intros (c & Hc & Hin). apply list_elem_of_singleton in Hc as ->.
  unfold contains in Hin. simpl in Hin. lia.
Defined.

End CollisionLaws.

(** * Further properties of the element addresses *)

Module AddressLaws.
Import EditMenu EditMenuSpec AddressSpec EditMenuProofs.

Local Open Scope char_scope.

Lemma list_ascii_app s1 s2 :
  String.list_ascii_of_string (s1 +:+ s2)
  = String.list_ascii_of_string s1 ++ String.list_ascii_of_string s2.
Proof. induction s1 as [|c s1 IH]; simpl; [done|]. by rewrite IH. Qed.

Lemma digit_not_special c :
  is_digit c = true →
  is_space c = false ∧ c ≠ "-" ∧ c ≠ "+" ∧ c ≠ "x" ∧ c ≠ "X" ∧ c ≠ "_" ∧
  ∃ d, (0 <= d < 10)%Z ∧ digit_of 10 c = Some d.
Proof.
  destruct c as [[] [] [] [] [] [] [] []]; intros H; vm_compute in H; try discriminate H.
  all: split; [reflexivity|]; repeat (split; [discriminate|]).
  all: eexists; split; [|reflexivity]; vm_compute; split; [discriminate|reflexivity].
Qed.

Lemma pretty_N_char_digit d :
  (d < 10)%N →
  is_digit (pretty_N_char d) = true ∧ digit_of 10 (pretty_N_char d) = Some (Z.of_N d).
Proof.
  intros Hd.
  assert (d = 0 ∨ d = 1 ∨ d = 2 ∨ d = 3 ∨ d = 4 ∨ d = 5 ∨ d = 6 ∨ d = 7 ∨ d = 8 ∨ d = 9)%N
    as Hc by lia.
  repeat destruct Hc as [->|Hc]; try subst d; done.
Qed.

(** The digits [pretty_N_go] writes in front of a string, and the number
    [digits_prefix] reads from them. *)
Lemma pretty_N_go_digits x s :
  ∃ ds, String.list_ascii_of_string (pretty_N_go x s) = ds ++ String.list_ascii_of_string s ∧
        Forall (λ c, is_digit c = true) ds ∧
        (x ≠ 0%N → ds ≠ []) ∧
        ∀ rest acc,
          digits_prefix 10 (ds ++ rest) acc
          = digits_prefix 10 rest
              (if decide (x = 0%N) then acc
               else Some (default 0 acc * 10 ^ Z.of_nat (length ds) + Z.of_N x)%Z).
Proof.
  revert s. induction (N.lt_wf_0 x) as [x _ IH]; intros s.
  destruct (decide (x = 0%N)) as [->|Hx].
  { exists []. rewrite pretty_N_go_0. split; [done|]. split; [constructor|]. done. }
  rewrite pretty_N_go_step by lia.
  destruct (IH (x `div` 10)%N) with (s := String (pretty_N_char (x `mod` 10)) s)
    as (ds & Hds & Hdig & Hne & Hval).
  { apply N.div_lt; lia. }
  destruct (pretty_N_char_digit (x `mod` 10)%N) as [Hc Hd].
  { apply N.mod_lt. lia. }
  exists (ds ++ [pretty_N_char (x `mod` 10)]).
  split; [by rewrite Hds, <- (assoc_L (++))|].
  split; [apply Forall_app; split; [done|by constructor]|].
  split; [intros _; by destruct ds|].
  intros rest acc. rewrite <- (assoc_L (++)), Hval. cbn [app digits_prefix]. rewrite Hd.
  f_equal. f_equal. rewrite length_app. cbn [length].
  pose proof (N.div_mod x 10 ltac:(lia)) as Hdm.
  destruct (decide (x `div` 10 = 0)%N) as [H0|H0].
  - assert (ds = []) as ->.
    { destruct ds as [|c ds]; [done|]. exfalso.
      rewrite H0, pretty_N_go_0 in Hds. simpl in Hds.
      apply (f_equal length) in Hds. simpl in Hds. rewrite length_app in Hds.
      simpl in Hds. lia. }
    simpl. lia.
  - cbn [default]. rewrite Nat2Z.inj_add, Z.pow_add_r by lia. 
    change (10 ^ Z.of_nat 1)%Z with 10%Z. unfold id. rewrite Z.mul_assoc.
    generalize (default 0 acc * 10 ^ Z.of_nat (length ds))%Z. intros ap. lia.
Qed.

Lemma pretty_nat_digits (k : nat) :
  ∃ ds, String.list_ascii_of_string (pretty k) = ds ∧ ds ≠ [] ∧
        Forall (λ c, is_digit c = true) ds ∧
        digits_prefix 10 ds None = Some (Z.of_nat k).
Proof.
  unfold pretty, pretty_nat, pretty, pretty_N.
  destruct (decide (N.of_nat k = 0%N)) as [H0|H0].
  { exists ["0"]. assert (k = 0) as -> by lia. repeat split; try done. by repeat constructor. }
  destruct (pretty_N_go_digits (N.of_nat k) "") as (ds & Hds & Hdig & Hne & Hval).
  exists ds. simpl in Hds. rewrite app_nil_r in Hds.
  split; [done|]. split; [by apply Hne|]. split; [done|].
  specialize (Hval [] None). rewrite app_nil_r in Hval. rewrite Hval.
  rewrite decide_False by done. simpl. f_equal. lia.
Qed.

Lemma parseInt_digits ds :
  ds ≠ [] → Forall (λ c, is_digit c = true) ds →
  parseInt (String.string_of_list_ascii ds) = digits_prefix 10 ds None.
Proof.
  intros Hne Hdig. unfold parseInt. rewrite String.list_ascii_of_string_of_list_ascii.
  assert (∀ o : option Z, Z.mul 1 <$> o = o) as Hone.
  { intros [z|]; simpl; [|done]. f_equal. lia. }
  destruct ds as [|c ds]; [done|].
  apply Forall_cons in Hdig as [Hc Hdig].
  destruct c as [[] [] [] [] [] [] [] []]; vm_compute in Hc; try discriminate Hc.
  all: cbn [skip_spaces is_space nat_of_ascii]; try apply Hone.
  destruct ds as [|c2 ds]; [apply Hone|].
  apply Forall_cons in Hdig as [Hc2 Hdig].
  destruct c2 as [[] [] [] [] [] [] [] []]; vm_compute in Hc2; try discriminate Hc2.
  all: apply Hone.
Qed.

Lemma parseInt_pretty (k : nat) : parseInt (pretty k) = Some (Z.of_nat k).
Proof.
  destruct (pretty_nat_digits k) as (ds & Hds & Hne & Hdig & Hval).
  rewrite <- (String.string_of_list_ascii_of_string (pretty k)), Hds.
  by rewrite parseInt_digits.
Qed.

Lemma span_digits_app ds rest :
  Forall (λ c, is_digit c = true) ds →
  match rest with [] => True | c :: _ => is_digit c = false end →
  span_digits (ds ++ rest) = (ds, rest).
Proof.
  intros Hdig Hrest. induction Hdig as [|c ds Hc _ IH]; cbn [app span_digits].
  - destruct rest as [|c r]; [done|]. cbn [span_digits]. by rewrite Hrest.
  - by rewrite Hc, IH.
Qed.

Lemma last_digits ds :
  ds ≠ [] → Forall (λ c, is_digit c = true) ds →
  ∃ c, last ds = Some c ∧ is_digit c = true.
Proof.
  intros Hne Hdig. destruct (last ds) as [c|] eqn:Hl.
  - exists c. split; [done|]. rewrite Forall_forall in Hdig. apply Hdig.
    apply last_Some in Hl as [l' ->]. apply elem_of_app. right. constructor.
  - by apply last_None in Hl.
Qed.

Lemma includes_digits ds c :
  is_digit c = false → Forall (λ c, is_digit c = true) ds → existsb (Ascii.eqb c) ds = false.
Proof.
  intros Hc. induction 1 as [|c' ds Hc' _ IH]; simpl; [done|].
  rewrite IH, orb_false_r. apply Ascii.eqb_neq. intros ->. congruence.
Qed.

Lemma endsWith_digits s c :
  is_digit c = false →
  (∃ d, last (String.list_ascii_of_string s) = Some d ∧ is_digit d = true) →
  endsWith s c = false.
Proof.
  intros Hc (d & Hl & Hd). unfold endsWith. rewrite Hl.
  apply Ascii.eqb_neq. intros ->. congruence.
Qed.

Lemma group_item_ref_list g j :
  ∃ dg dj, String.list_ascii_of_string (group_item_ref g j) = dg ++ "_" :: dj ∧
           String.list_ascii_of_string (pretty g) = dg ∧
           String.list_ascii_of_string (pretty j) = dj ∧
           dg ≠ [] ∧ dj ≠ [] ∧
           Forall (λ c, is_digit c = true) dg ∧ Forall (λ c, is_digit c = true) dj.
Proof.
  destruct (pretty_nat_digits g) as (dg & Hg & Hgn & Hgd & _).
  destruct (pretty_nat_digits j) as (dj & Hj & Hjn & Hjd & _).
  exists dg, dj. unfold group_item_ref. rewrite !list_ascii_app, Hg, Hj. done.
Qed.

Lemma parseRef_item k : parseRef (item_ref k) = Some (mkParsedRef None (Z.of_nat k) None).
Proof.
  destruct (pretty_nat_digits k) as (ds & Hds & Hne & Hdig & _).
  unfold parseRef, item_ref.
  rewrite !endsWith_digits; [|done|rewrite Hds; by apply last_digits
                             |done|rewrite Hds; by apply last_digits].
  cbn [orb]. unfold includes. rewrite Hds, includes_digits by done.
  by rewrite parseInt_pretty.
Qed.

Lemma parseRef_group_item g j :
  parseRef (group_item_ref g j)
  = Some (mkParsedRef (Some (Z.of_nat g)) (Z.of_nat j) None).
Proof.
  destruct (group_item_ref_list g j) as (dg & dj & Hl & Hg & Hj & Hgn & Hjn & Hgd & Hjd).
  assert (∃ d, last (String.list_ascii_of_string (group_item_ref g j)) = Some d ∧
               is_digit d = true) as Hlast.
  { rewrite Hl, last_app. cbn [last]. destruct dj as [|c dj]; [done|].
    destruct (last_digits (c :: dj) Hjn Hjd) as (d & Hd & Hdd). exists d.
    change (last ("_" :: c :: dj)) with (last (c :: dj)). by rewrite Hd. }
  unfold parseRef. rewrite !endsWith_digits by done. cbn [orb].
  unfold includes. rewrite Hl, existsb_app. cbn [existsb]. rewrite Ascii.eqb_refl.
  rewrite orb_true_r. cbn [orb].
  unfold match_group_item. rewrite Hl.
  rewrite (span_digits_app dg ("_" :: dj)) by done.
  destruct dg as [|cg dg]; [done|].
  rewrite <- (app_nil_r dj) at 1. rewrite (span_digits_app dj []) by done.
  destruct dj as [|cj dj]; [done|].
  rewrite <- Hg, <- Hj, !String.string_of_list_ascii_of_string.
  assert (∀ n : nat, String.eqb (pretty n) "" = false) as Hpe.
  { intros n. apply String.eqb_neq. intros Heq.
    destruct (pretty_nat_digits n) as (ds & Hds & Hne & _). by rewrite Heq in Hds; subst ds. }
  rewrite !Hpe. cbn [orb]. by rewrite !parseInt_pretty.
Qed.

Lemma parseRef_control r c :
  is_control c = true → endsWith r "-" = false → endsWith r "+" = false →
  parseRef (control_ref r c)
  = (λ p, mkParsedRef (groupIndex p) (itemIndex p) (Some c)) <$> parseRef r.
Proof.
  intros Hc H1 H2. unfold parseRef at 2. rewrite H1, H2. cbn [orb].
  unfold parseRef, control_ref, endsWith, drop_last.
  rewrite !list_ascii_app. cbn [String.list_ascii_of_string].
  rewrite last_snoc. unfold is_control in Hc. rewrite Hc.
  rewrite removelast_last, String.string_of_list_ascii_of_string.
  destruct (includes r "_").
  - destruct (match_group_item r) as [[m1 m2]|]; [|done].
    destruct (String.eqb m1 "" || String.eqb m2 "")%bool; [reflexivity|].
    by destruct (parseInt m1), (parseInt m2).
  - by destruct (parseInt r).
Qed.

Lemma generated_not_control r :
  (∃ k, r = item_ref k) ∨ (∃ g j, r = group_item_ref g j) →
  endsWith r "-" = false ∧ endsWith r "+" = false.
Proof.
  intros Hr.
  assert (∃ d, last (String.list_ascii_of_string r) = Some d ∧ is_digit d = true) as Hlast.
  { destruct Hr as [[k ->]|(g & j & ->)].
    - destruct (pretty_nat_digits k) as (ds & Hds & Hne & Hdig & _).
      unfold item_ref. rewrite Hds. by apply last_digits.
    - destruct (group_item_ref_list g j) as (dg & dj & Hl & _ & _ & _ & Hjn & _ & Hjd).
      rewrite Hl, last_app. destruct dj as [|c dj]; [done|].
      destruct (last_digits (c :: dj) Hjn Hjd) as (d & Hd & Hdd). exists d.
      change (last ("_" :: c :: dj)) with (last (c :: dj)). by rewrite Hd. }
  split; by apply endsWith_digits.
Qed.

(** The addresses the menu builds parse back to the positions they were
    built from: [k] for the element at position [k] of the top level,
    [g] and [j] for leaf [j] of the group at position [g], and the same
    with the sign kept for the two arrows of a selector. *)
Theorem address_round_trip k g j c :
  parseRef (item_ref k) = Some (mkParsedRef None (Z.of_nat k) None) ∧
  parseRef (group_item_ref g j) = Some (mkParsedRef (Some (Z.of_nat g)) (Z.of_nat j) None) ∧
  (is_control c = true →
   parseRef (control_ref (item_ref k) c) = Some (mkParsedRef None (Z.of_nat k) (Some c)) ∧
   parseRef (control_ref (group_item_ref g j) c)
   = Some (mkParsedRef (Some (Z.of_nat g)) (Z.of_nat j) (Some c))).
Proof.
  split; [apply parseRef_item|]. split; [apply parseRef_group_item|].
  intros Hc. split.
  - destruct (generated_not_control (item_ref k)) as [H1 H2]; [left; by exists k|].
    by rewrite parseRef_control, parseRef_item.
  - destruct (generated_not_control (group_item_ref g j)) as [H1 H2]; [right; by exists g, j|].
    by rewrite parseRef_control, parseRef_group_item.
Qed.

Lemma address_round_trip_witness :
  is_control "+" = true ∧
  parseRef (control_ref (item_ref 12) "+") = Some (mkParsedRef None 12 (Some "+")) ∧
  parseRef (control_ref (group_item_ref 3 10) "+") = Some (mkParsedRef (Some 3%Z) 10 (Some "+")).
Proof.
  split; [reflexivity|].
  exact (proj2 (proj2 (address_round_trip 12 3 10 "+")) eq_refl).
Defined.

Lemma at_index_nat {A} (a : list A) (k : nat) : at_index a (Z.of_nat k) = a !! k.
Proof.
  unfold at_index. destruct (Z.ltb_spec (Z.of_nat k) 0) as [?|_]; [lia|].
  by rewrite Nat2Z.id.
Qed.

Lemma getInputByRef_control els r c :
  is_control c = true →
  (∃ k, r = item_ref k) ∨ (∃ g j, r = group_item_ref g j) →
  getInputByRef els (control_ref r c) = getInputByRef els r.
Proof.
  intros Hc Hr. destruct (generated_not_control r Hr) as [H1 H2].
  unfold getInputByRef. rewrite parseRef_control by done.
  by destruct (parseRef r) as [[gi ii cs]|].
Qed.

(** An address the menu builds resolves to the element at the position
    it was built from.  The address of position [k] gives the element
    there, and [undefined] past the end; the address of leaf [j] of
    position [g] gives that leaf when the element at [g] is a group
    ([undefined] past the end of the group) and [null] when it is not a
    group or there is none; the address of an arrow gives what the
    address without the sign gives. *)
Theorem addresses_resolve els k g j c :
  getInputByRef els (item_ref k)
  = match els !! k with Some e => ResElement e | None => ResUndefined end ∧
  getInputByRef els (group_item_ref g j)
  = match els !! g with
    | Some (groupE _ sub) =>
        match sub !! j with Some e => ResElement e | None => ResUndefined end
    | _ => ResNull
    end ∧
  (is_control c = true →
   getInputByRef els (control_ref (item_ref k) c) = getInputByRef els (item_ref k) ∧
   getInputByRef els (control_ref (group_item_ref g j) c)
   = getInputByRef els (group_item_ref g j)).
Proof.
  split; [|split].
  - unfold getInputByRef. rewrite parseRef_item. cbn. by rewrite at_index_nat.
  - unfold getInputByRef. rewrite parseRef_group_item. cbn. rewrite at_index_nat.
    destruct (els !! g) as [[]|]; try done. by rewrite at_index_nat.
  - intros Hc. split; apply getInputByRef_control; try done.
    + left. by exists k.
    + right. by exists g, j.
Qed.

Lemma addresses_resolve_witness :
  is_control "-" = true ∧
  getInputByRef menu_0_group_2 (control_ref (group_item_ref 1 1) "-")
  = ResElement (inputE "borderWidth" "borderWidth").
Proof.
  split; [reflexivity|].
  destruct (addresses_resolve menu_0_group_2 0 1 1 "-") as (_ & H2 & H3).
  destruct (H3 eq_refl) as [_ H4].
  exact (eq_trans H4 H2).
Defined.

(** ** The addresses [getNextInputRef] steps through *)

Lemma group_item_ref_inj g j g' j' :
  group_item_ref g j = group_item_ref g' j' → g = g' ∧ j = j'.
Proof.
  intros Heq. apply (f_equal parseRef) in Heq.
  rewrite !parseRef_group_item in Heq. injection Heq as Hg Hj. lia.
Qed.

Lemma item_ref_inj k k' : item_ref k = item_ref k' → k = k'.
Proof.
  intros Heq. apply (f_equal parseRef) in Heq.
  rewrite !parseRef_item in Heq. injection Heq as Hk. lia.
Qed.

Lemma item_ref_not_group k g j : item_ref k ≠ group_item_ref g j.
Proof.
  intros Heq. apply (f_equal parseRef) in Heq.
  by rewrite parseRef_item, parseRef_group_item in Heq.
Qed.

Lemma insert_ref_perm cmp a l : insert_ref cmp a l ≡ₚ a :: l.
Proof.
  induction l as [|b l IH]; simpl; [done|].
  destruct (cmp b a >? 0)%Z; [done|]. rewrite IH. apply Permutation_swap.
Qed.

Lemma sort_perm cmp l : sort cmp l ≡ₚ l.
Proof.
  unfold sort.
  assert (∀ acc, foldl (λ acc a, insert_ref cmp a acc) acc l ≡ₚ acc ++ l) as H.
  { induction l as [|a l IH]; intros acc; simpl; [by rewrite app_nil_r|].
    rewrite IH, insert_ref_perm. by rewrite <- Permutation_middle. }
  apply H.
Qed.

(** The addresses of the leaves, for the elements from position [n] on. *)
Lemma grouped_from n els :
  let refs :=
    concat (omap id
      (imap (λ index element,
               match element with
               | groupE _ sub =>
                   Some (imap (λ subindex _, pretty (n + index) +:+ "_" +:+ pretty subindex) sub)
               | _ => None
               end) els)) in
  NoDup refs ∧
  ∀ r, r ∈ refs ↔
       ∃ g lbl sub j, els !! g = Some (groupE lbl sub) ∧ j < length sub ∧
                      r = group_item_ref (n + g) j.
Proof.
  revert n. induction els as [|e els IH]; intros n; simpl.
  { split; [constructor|]. intros r. rewrite elem_of_nil. split; [done|].
    by intros (g & lbl & sub & j & Hg & _). }
  specialize (IH (S n)). simpl in IH.
  rewrite (imap_ext _ (λ index element,
             match element with
             | groupE _ sub =>
                 Some (imap (λ subindex _, pretty (S n + index) +:+ "_" +:+ pretty subindex) sub)
             | _ => None
             end)).
  2:{ intros k x _. simpl. destruct x; try done. f_equal. apply imap_ext.
      intros j y _. simpl. by replace (n + S k) with (S (n + k)) by lia. }
  destruct IH as [IHnd IHin].
  assert (∀ r, (∃ g lbl sub j, (e :: els) !! g = Some (groupE lbl sub) ∧ j < length sub ∧
                               r = group_item_ref (n + g) j)
               ↔ (∃ lbl sub j, e = groupE lbl sub ∧ j < length sub ∧ r = group_item_ref n j)
                 ∨ (∃ g lbl sub j, els !! g = Some (groupE lbl sub) ∧ j < length sub ∧
                                   r = group_item_ref (S n + g) j)) as Hsplit.
  { intros r. split.
    - intros (g & lbl & sub & j & Hg & Hj & ->). destruct g as [|g]; simpl in Hg.
      + left. injection Hg as ->. exists lbl, sub, j. by rewrite Nat.add_0_r.
      + right. exists g, lbl, sub, j. split; [done|]. split; [done|]. f_equal. lia.
    - intros [(lbl & sub & j & -> & Hj & ->)|(g & lbl & sub & j & Hg & Hj & ->)].
      + exists 0, lbl, sub, j. by rewrite Nat.add_0_r.
      + exists (S g), lbl, sub, j. split; [done|]. split; [done|]. f_equal. lia. }
  destruct e as [l v|l|l v|l|l o|lbl sub]; simpl.
  1-5: split; [done|]; intros r; rewrite IHin, Hsplit; split;
       [by right|intros [(? & ? & ? & ? & _)|?]; done].
  rewrite Nat.add_0_r.
  change (λ subindex _, pretty n +:+ "_" +:+ pretty subindex)
    with (λ subindex (_ : EditMenuElement), group_item_ref n subindex).
  rewrite imap_index_only.
  split.
  - apply NoDup_app. split; [|split; [|done]].
    + apply NoDup_fmap_2_strong; [|apply NoDup_seq].
      intros j j' _ _ Heq. by apply group_item_ref_inj in Heq as [_ ?].
    + intros r Hr Hr'. apply list_elem_of_fmap in Hr as (j & -> & _).
      apply IHin in Hr' as (g & lbl' & sub' & j' & _ & _ & Heq).
      apply group_item_ref_inj in Heq as [? _]. lia.
  - intros r. rewrite elem_of_app, IHin, Hsplit, list_elem_of_fmap.
    split.
    + intros [(j & -> & Hj)|?]; [left|by right].
      apply elem_of_seq in Hj. exists lbl, sub, j. split; [done|]. split; [lia|done].
    + intros [(lbl' & sub' & j & Heq & Hj & ->)|?]; [left|by right].
      injection Heq as <- <-. exists j. split; [done|]. apply elem_of_seq. lia.
Qed.

Lemma groupedRefs_spec els :
  NoDup (concat (groupedRefs els)) ∧
  ∀ r, r ∈ concat (groupedRefs els) ↔
       ∃ g lbl sub j, els !! g = Some (groupE lbl sub) ∧ j < length sub ∧
                      r = group_item_ref g j.
Proof. apply (grouped_from 0 els). Qed.

Lemma availableRefs_spec els :
  NoDup (availableRefs els) ∧
  ∀ r, r ∈ availableRefs els ↔
       ∃ k, k < length (filter (λ e, Is_true (is_input e)) els) ∧ r = item_ref k.
Proof.
  rewrite availableRefs_counts. split.
  - apply NoDup_fmap_2_strong; [|apply NoDup_seq].
    intros k k' _ _ Heq. by apply item_ref_inj.
  - intros r. rewrite list_elem_of_fmap. split.
    + intros (k & -> & Hk). apply elem_of_seq in Hk. exists k. split; [lia|done].
    + intros (k & Hk & ->). exists k. split; [done|]. apply elem_of_seq. lia.
Qed.

Lemma allRefs_spec els :
  NoDup (allRefs els) ∧
  ∀ r, r ∈ allRefs els ↔
       (∃ k, k < length (filter (λ e, Is_true (is_input e)) els) ∧ r = item_ref k) ∨
       (∃ g lbl sub j, els !! g = Some (groupE lbl sub) ∧ j < length sub ∧
                       r = group_item_ref g j).
Proof.
  destruct (availableRefs_spec els) as [Hnd1 Hin1].
  destruct (groupedRefs_spec els) as [Hnd2 Hin2].
  unfold allRefs. split.
  - rewrite sort_perm. apply NoDup_app. split; [done|]. split; [|done].
    intros r Hr Hr'. apply Hin1 in Hr as (k & _ & ->).
    apply Hin2 in Hr' as (g & lbl & sub & j & _ & _ & Heq).
    by apply item_ref_not_group in Heq.
  - intros r. by rewrite sort_perm, elem_of_app, Hin1, Hin2.
Qed.

(** The addresses [getNextInputRef] steps through.  There is one for
    every input element of the top level, numbered by its place among the
    input elements, and one for every leaf of every group, whatever the
    kind of the leaf; no address is there twice. *)
Theorem allRefs_elements els :
  NoDup (allRefs els) ∧
  ∀ r, r ∈ allRefs els ↔
       (∃ k, k < length (filter (λ e, Is_true (is_input e)) els) ∧ r = item_ref k) ∨
       (∃ g lbl sub j, els !! g = Some (groupE lbl sub) ∧ j < length sub ∧
                       r = group_item_ref g j).
Proof. apply allRefs_spec. Qed.

Lemma next_after_lookup r all rest k :
  NoDup rest → rest !! k = Some r →
  next_after r all rest = match rest !! S k with Some b => Some b | None => head all end.
Proof.
  revert k. induction rest as [|a rest IH]; intros k Hnd Hk; [done|].
  apply NoDup_cons in Hnd as [Ha Hnd]. simpl. destruct k as [|k]; simpl in Hk.
  - injection Hk as ->. rewrite String.eqb_refl. by destruct rest.
  - destruct (String.eqb_spec a r) as [->|_].
    + exfalso. apply Ha. by eapply list_elem_of_lookup_2.
    + by apply IH.
Qed.

Lemma next_after_absent r all rest : r ∉ rest → next_after r all rest = None.
Proof.
  induction rest as [|a rest IH]; intros Hr; [done|]. simpl.
  apply not_elem_of_cons in Hr as [Hne Hr].
  destruct (String.eqb_spec a r) as [->|_]; [done|]. by apply IH.
Qed.

(** [getNextInputRef] goes round the addresses.  Given the address at
    place [k] of the list of addresses it steps through, it returns the
    one at the next place, and the first one after the last; given any
    other string it returns [null].  Only this is used of the sorting:
    that it rearranges the addresses. *)
Theorem next_goes_round els :
  (∀ k r, allRefs els !! k = Some r →
          getNextInputRef els r = allRefs els !! (S k mod length (allRefs els))) ∧
  (∀ r, r ∉ allRefs els → getNextInputRef els r = None).
Proof.
  destruct (allRefs_spec els) as [Hnd Hin]. split.
  - intros k r Hk.
    assert (parseRef r ≠ None) as Hp.
    { apply list_elem_of_lookup_2, Hin in Hk as [(k' & _ & ->)|(g & lbl & sub & j & _ & _ & ->)].
      - by rewrite parseRef_item.
      - by rewrite parseRef_group_item. }
    unfold getNextInputRef. destruct (parseRef r); [|done].
    rewrite (next_after_lookup r _ _ k Hnd Hk).
    pose proof (lookup_lt_Some _ _ _ Hk) as Hlt.
    destruct (decide (S k < length (allRefs els))) as [Hs|Hs].
    + rewrite Nat.mod_small by done.
      by destruct (lookup_lt_is_Some_2 _ _ Hs) as [b ->].
    + rewrite lookup_ge_None_2 by lia.
      replace (S k) with (length (allRefs els)) by lia.
      rewrite Nat.Div0.mod_same. by destruct (allRefs els).
  - intros r Hr. unfold getNextInputRef. destruct (parseRef r); [|done].
    by apply next_after_absent.
Qed.

Lemma next_goes_round_witness :
  allRefs menu_0_group_2 !! 3 = Some "1_1"%string ∧
  getNextInputRef menu_0_group_2 "1_1" = Some "0"%string ∧
  ("2"%string ∉ allRefs menu_0_group_2) ∧
  getNextInputRef menu_0_group_2 "2" = None.
Proof.
  destruct (next_goes_round menu_0_group_2) as [H1 H2].
  assert (allRefs menu_0_group_2 !! 3 = Some "1_1"%string) as Hk by reflexivity.
  assert ("2"%string ∉ allRefs menu_0_group_2) as Hn.
  { vm_compute. intros H. repeat (apply elem_of_cons in H as [H|H]; [discriminate H|]).
    by apply elem_of_nil in H. }
  split; [exact Hk|]. split; [exact (eq_trans (H1 3 _ Hk) eq_refl)|].
  split; [exact Hn|]. exact (H2 _ Hn).
Defined.

End AddressLaws.

(** * Properties of the commands of the menu *)

Module ActionLaws.
Import MapLayoutHistory HistorySpec HistoryLawsSpec HistoryProofs InverseLaw HistoryLaws.
Import EditMenuActions.

#[local] Arguments addHistoryEntry : simpl never.

(** ** deleteCells *)

Lemma deleteCells_loop_spec locked cells sel sw :
  deleteCells_loop locked cells sel sw
  = mkSwap (swap_index sw ++ deletable locked cells sel)
      (swap_was sw ++ (arr_get cells <$> deletable locked cells sel))
      (swap_became sw ++ replicate (length (deletable locked cells sel)) RNull).
Proof.
  revert sw. unfold deletable.
  induction sel as [|k sel IH]; intros sw; simpl.
  { rewrite !app_nil_r. by destruct sw. }
  rewrite filter_cons. destruct (includes locked k) eqn:Hl.
  { rewrite decide_False by (intros [? _]; done). apply IH. }
  destruct (arr_get cells k) as [| |l] eqn:Hk.
  - rewrite decide_False by (intros [_ ?]; done). apply IH.
  - rewrite decide_True by done. rewrite IH. simpl.
    rewrite Hk, <- !(assoc_L (++)). done.
  - rewrite decide_True by done. rewrite IH. simpl.
    rewrite Hk, <- !(assoc_L (++)). done.
Qed.

Lemma deleteCells_unfold locked sel s :
  deleteCells locked sel s
  = swapCells (deletable locked (cells s) sel)
      (arr_get (cells s) <$> deletable locked (cells s) sel)
      (replicate (length (deletable locked (cells s) sel)) RNull) s.
Proof. unfold deleteCells. by rewrite deleteCells_loop_spec. Qed.

Lemma deletable_spec locked cells sel k :
  k ∈ deletable locked cells sel →
  ∃ r, cells !! k = Some r ∧ arr_get cells k = r ∧ r ≠ RUndefined.
Proof.
  intros [[_ Hk] _]%list_elem_of_filter. unfold arr_get in *.
  destruct (cells !! k) as [r|]; [|done]. by exists r.
Qed.

Lemma deleteCells_accurate locked sel s :
  Forall (allocated (heap s)) (cells s) →
  accurate s (SwapCells (deletable locked (cells s) sel)
                (arr_get (cells s) <$> deletable locked (cells s) sel)
                (replicate (length (deletable locked (cells s) sel)) RNull)).
Proof.
  intros Ha. set (idx := deletable locked (cells s) sel).
  assert (∀ k, k ∈ idx → ∃ r, cells s !! k = Some r ∧ arr_get (cells s) k = r ∧ r ≠ RUndefined)
    as Hidx by apply deletable_spec.
  clearbody idx. simpl.
  split; [by rewrite length_fmap|]. split; [by rewrite length_replicate|].
  split; [|split].
  - apply Forall_fmap, Forall_forall. intros k Hk.
    destruct (Hidx k Hk) as (r & Hr & Hg & Hne). unfold compose. cbv beta.
    rewrite Hg.
    split; [done|].
    rewrite Forall_forall in Ha. apply Ha. by eapply list_elem_of_lookup_2.
  - apply Forall_forall. intros r Hr%elem_of_replicate. by destruct Hr as [-> _].
  - apply Forall2_fmap_r, Forall_Forall2_diag, Forall_forall. intros k Hk.
    destruct (Hidx k Hk) as (r & Hr & Hg & Hne). unfold compose. cbv beta.
    rewrite Hg. unfold view. by rewrite list_lookup_fmap, Hr.
Qed.






(** [deleteCells] can be taken back.  After accurate commits from a new
    log over a grid in which no cell object is in two slots, one undo
    after [deleteCells] shows the grid as it was before it, and one redo
    after that shows it with the cells taken out again. *)
Theorem deleteCells_undone s0 cs locked sel :
  history s0 = [] → i s0 = 0 →
  unshared (cells s0) → Forall (allocated (heap s0)) (cells s0) →
  accurate_commits s0 cs →
  view (undo (deleteCells locked sel (calls cs s0)).1).1 = view (calls cs s0) ∧
  view (redo (undo (deleteCells locked sel (calls cs s0)).1).1).1
  = view (deleteCells locked sel (calls cs s0)).1.
Proof.
  intros Hh Hi Hu Ha Hacc.
  destruct (commits_course s0 cs Hh Hi Hu Ha Hacc) as (_ & _ & Hap & _).
  set (s := calls cs s0) in *.
  set (c := SwapCells (deletable locked (cells s) sel)
              (arr_get (cells s) <$> deletable locked (cells s) sel)
              (replicate (length (deletable locked (cells s) sel)) RNull)).
  assert (accurate_commits s0 (cs ++ [c])) as Hacc'.
  { apply accurate_commits_app. split; [done|]. split; [|done].
    apply deleteCells_accurate. apply (apart_cells _ _ Hap). }
  destruct (undos_redos_course s0 (cs ++ [c]) 1 1 Hh Hi Hu Ha Hacc') as [H1 H2];
    [done|rewrite length_app; simpl; lia|].
  rewrite calls_app in H1, H2. fold s in H1, H2.
  change (calls [c] s) with (call c s).1 in H1, H2.
  change (call c s) with (swapCells (deletable locked (cells s) sel)
              (arr_get (cells s) <$> deletable locked (cells s) sel)
              (replicate (length (deletable locked (cells s) sel)) RNull) s) in H1, H2.
  rewrite <- deleteCells_unfold in H1, H2.
  rewrite length_app in H1, H2. cbn [length] in H1, H2.
  replace (length cs + 1 - 1) with (length cs) in H1, H2 by lia.
  rewrite take_app_length in H1. fold s in H1.
  rewrite take_ge in H2 by (rewrite length_app; simpl; lia).
  rewrite calls_app in H2. fold s in H2.
  change (calls [c] s) with (call c s).1 in H2.
  change (call c s) with (swapCells (deletable locked (cells s) sel)
              (arr_get (cells s) <$> deletable locked (cells s) sel)
              (replicate (length (deletable locked (cells s) sel)) RNull) s) in H2.
  rewrite <- deleteCells_unfold in H2.
  split; [exact H1|exact H2].
Qed.

Lemma deleteCells_undone_witness :
  accurate_commits sample_state sample_commits ∧
  view (undo (deleteCells [] [0; 1] (calls sample_commits sample_state)).1).1
  = view (calls sample_commits sample_state).
Proof.
  assert (accurate_commits sample_state sample_commits) as Hacc.
  { cbn [accurate_commits sample_commits].
    split.
    { split; [done|]. split; [done|]. split; [done|]. split; [simpl; lia|].
      split; [done|]. intros l [= <-].
      split; [|split]; [|apply not_elem_of_nil..].
      cbn. by intros Hin%list_elem_of_singleton. }
    split.
    { split; [done|]. split; [done|]. eexists. split; reflexivity. }
    split.
    { split; [done|]. split; [done|].
      split; [repeat constructor; (done || simpl; lia)|].
      split; [repeat constructor; (done || simpl; lia)|].
      repeat constructor. }
    split; [|done].
    split; [done|]. split; [by repeat constructor|]. split; [by repeat constructor|].
    repeat constructor. eexists. split; reflexivity. }
  split; [exact Hacc|].
  apply (deleteCells_undone sample_state sample_commits [] [0; 1]); try done.
  - intros j1 j2 l H1 H2.
    destruct j1 as [|[|j1]], j2 as [|[|j2]]; done.
  - repeat constructor.
Defined.

(** ** generateSeatLabels *)

Lemma heap_set_type h l x l' :
  type (heap_set h l Kname x !!! l') = type (h !!! l').
Proof.
  unfold heap_set. rewrite !list_lookup_total_alt.
  destruct (decide (l = l')) as [->|Hne].
  - rewrite list_lookup_alter_eq. by destruct (h !! l').
  - by rewrite list_lookup_alter_ne.
Qed.

Lemma seat_cells_name h l x cs b :
  seat_cells (heap_set h l Kname x) cs b = seat_cells h cs b.
Proof.
  revert b. induction cs as [|r cs IH]; intros b; simpl; [done|].
  destruct r as [| |l']; [done|apply IH|].
  rewrite IH. unfold is_seat. by rewrite heap_set_type.
Qed.

Lemma heap_set_noop h l a x :
  get_attribute (h !!! l) a = x → l < length h → heap_set h l a x = h.
Proof.
  intros Hx Hl. unfold heap_set. apply list_eq. intros j.
  destruct (decide (j = l)) as [->|Hne].
  - rewrite list_lookup_alter_eq.
    destruct (lookup_lt_is_Some_2 h l Hl) as [c Hc].
    rewrite (list_lookup_total_correct _ _ _ Hc) in Hx. rewrite Hc. simpl.
    by rewrite <- Hx, set_attribute_get.
  - by rewrite list_lookup_alter_ne.
Qed.

Lemma deref_heap_set_other h l a x (rs : list CellRef) :
  RObj l ∉ rs → deref (heap_set h l a x) <$> rs = deref h <$> rs.
Proof.
  intros Hl. apply list_fmap_ext. intros j r Hr. destruct r as [| |l']; try done.
  simpl. rewrite heap_set_other; [done|]. intros ->. apply Hl.
  by eapply list_elem_of_lookup_2.
Qed.

Lemma unshared_middle (pre rest : list CellRef) l :
  unshared (pre ++ RObj l :: rest) → (RObj l ∉ pre) ∧ (RObj l ∉ rest).
Proof.
  intros Hu. split.
  - intros Hin. apply list_elem_of_lookup in Hin as [j Hj].
    pose proof (lookup_lt_Some _ _ _ Hj) as Hlt.
    specialize (Hu j (length pre) l). rewrite lookup_app_l in Hu by done.
    rewrite list_lookup_middle in Hu by done. specialize (Hu Hj eq_refl). lia.
  - intros Hin. apply list_elem_of_lookup in Hin as [j Hj].
    specialize (Hu (length pre + S j) (length pre) l).
    rewrite lookup_app_r in Hu by lia.
    replace (length pre + S j - length pre) with (S j) in Hu by lia.
    rewrite list_lookup_middle in Hu by done. specialize (Hu Hj eq_refl). lia.
Qed.

Lemma fmap_snoc_inv {A B} (f g : A → B) (pre : list A) r :
  f <$> (pre ++ [r]) = g <$> (pre ++ [r]) → f <$> pre = g <$> pre ∧ f r = g r.
Proof.
  rewrite !fmap_app. intros H. apply app_inj_1 in H as [H1 H2]; [|by rewrite !length_fmap].
  split; [done|]. by injection H2.
Qed.

(** The loop of [generateSeatLabels] on the cells [rest] that follow the
    cells [pre] of the grid. *)
Lemma label_loop_spec rest : ∀ pre s,
  cells s = pre ++ rest → unshared (cells s) → Forall (allocated (heap s)) (cells s) →
  Forall (λ r, r ≠ RUndefined) rest →
  ∃ sc, seat_cells (heap s) rest (length pre) = Some sc ∧
    ∀ n sn, ∃ h' idx names olds,
      label_loop sc n sn s
      = (set_heap s h',
         mkSetNames (setNames_index sn ++ idx) (setNames_name sn ++ names)
           (setNames_oldNames sn ++ olds)) ∧
      length h' = length (heap s) ∧
      deref h' <$> pre = deref (heap s) <$> pre ∧
      deref h' <$> rest = label_seats n (deref (heap s) <$> rest) ∧
      Forall2 (λ k x, x ≠ AUndefined ∧
                      ∃ l, cells s !! k = Some (RObj l) ∧ name (h' !!! l) = x) idx names.
Proof.
  induction rest as [|r rest IH]; intros pre s Hc Hu Ha Hno.
  { exists []. split; [done|]. intros n sn. exists (heap s), [], [], [].
    simpl. rewrite !app_nil_r. split; [by destruct s, sn|]. done. }
  apply Forall_cons in Hno as [Hr Hno].
  assert (cells s = (pre ++ [r]) ++ rest) as Hc' by (by rewrite <- (assoc_L (++))).
  assert (length (pre ++ [r]) = S (length pre)) as Hlen by (rewrite length_app; simpl; lia).
  destruct r as [| |l]; [done| |].
  - destruct (IH (pre ++ [RNull]) s Hc' Hu Ha Hno) as (sc & Hsc & Hloop).
    rewrite Hlen in Hsc. exists sc. split; [done|].
    intros n sn. destruct (Hloop n sn) as (h' & idx & names & olds & Hl & Hh & Hpre & Hrest & Hw).
    exists h', idx, names, olds. split; [done|]. split; [done|].
    apply fmap_snoc_inv in Hpre as [Hpre _]. split; [done|]. split; [|done].
    by rewrite !fmap_cons, Hrest.
  - assert (l < length (heap s)) as Hlt.
    { rewrite Forall_forall in Ha. apply (Ha (RObj l)). rewrite Hc.
      apply elem_of_app. right. constructor. }
    assert ((RObj l ∉ pre) ∧ (RObj l ∉ rest)) as [Hnp Hnr].
    { apply unshared_middle. by rewrite <- Hc. }
    cbn [seat_cells]. destruct (is_seat (heap s !!! l)) eqn:Hseat.
    + set (s1 := λ n : nat, set_heap s (heap_set (heap s) l Kname (AString (pretty n)))).
      destruct (IH (pre ++ [RObj l]) s Hc' Hu Ha Hno) as (sc & Hsc & _).
      rewrite Hlen in Hsc. rewrite Hsc. exists ((RObj l, length pre) :: sc).
      split; [done|]. intros n sn.
      destruct (IH (pre ++ [RObj l]) (s1 n)) as (sc' & Hsc' & Hloop); try done.
      { simpl. by rewrite Forall_forall in *; intros r Hr'; destruct r; simpl;
          rewrite ?heap_set_length; try done; apply (Ha _ Hr'). }
      cbn [s1 heap set_heap] in Hsc'. rewrite seat_cells_name, Hlen, Hsc in Hsc'.
      injection Hsc' as <-.
      cbn [label_loop]. fold (s1 n).
      destruct (Hloop (S n)
                  (mkSetNames (setNames_index sn ++ [length pre])
                     (setNames_name sn ++ [name (heap (s1 n) !!! l)])
                     (setNames_oldNames sn ++ [name (heap s !!! l)])))
        as (h' & idx & names & olds & Hl & Hh & Hpre & Hrest & Hw).
      cbn [setNames_index setNames_name setNames_oldNames] in Hl.
      rewrite <- !(assoc_L (++)) in Hl.
      exists h', (length pre :: idx), (name (heap (s1 n) !!! l) :: names),
        (name (heap s !!! l) :: olds).
      split; [exact Hl|].
      cbn [s1 heap set_heap] in *. rewrite heap_set_length in Hh.
      split; [done|].
      apply fmap_snoc_inv in Hpre as [Hpre Hl'].
      rewrite deref_heap_set_other in Hpre by done.
      rewrite deref_heap_set_other in Hrest by done.
      split; [done|]. split.
      * rewrite fmap_cons, Hl', Hrest. simpl. rewrite heap_set_same by done.
        by rewrite Hseat.
      * constructor; [|done]. simpl in Hl'. injection Hl' as Hl'.
        rewrite heap_set_same by done. split; [done|]. exists l. split.
        -- rewrite Hc. by rewrite list_lookup_middle.
        -- rewrite Hl', heap_set_same by done. done.
    + destruct (IH (pre ++ [RObj l]) s Hc' Hu Ha Hno) as (sc & Hsc & Hloop).
      rewrite Hlen in Hsc. rewrite Hsc. exists sc. split; [done|].
      intros n sn. destruct (Hloop n sn) as (h' & idx & names & olds & Hl & Hh & Hpre & Hrest & Hw).
      exists h', idx, names, olds. split; [done|]. split; [done|].
      apply fmap_snoc_inv in Hpre as [Hpre Hl']. split; [done|]. split; [|done].
      rewrite fmap_cons, Hl', Hrest. simpl. by rewrite Hseat.
Qed.

Lemma set_attrs_noop (c : list CellRef) a ws h :
  Forall (λ w, ∃ l, c !! w.1 = Some (RObj l) ∧ l < length h ∧
                    get_attribute (h !!! l) a = w.2) ws →
  set_attrs c a ws h = h.
Proof.
  induction 1 as [|w ws (l & Hl & Hlt & Hx) _ IH]; [done|].
  change (set_attrs c a (w :: ws) h)
    with (set_attrs c a ws (match arr_get c w.1 with
                            | RObj l => heap_set h l a w.2
                            | _ => h
                            end)).
  replace (arr_get c w.1) with (RObj l) by (unfold arr_get; by rewrite Hl).
  by rewrite heap_set_noop.
Qed.

Lemma addHistoryEntry_attrs_any s index a w b :
  addHistoryEntry (changeAttributesE index a w b) s
  = (mk (heap s) (cells s)
       (take (i s + 1) (history s)
        ++ [changeAttributesE index a (deepClone_attrs w) (deepClone_attrs b)])
       (length (take (i s + 1) (history s)) + 1) (console s), Return).
Proof.
  unfold addHistoryEntry. case_decide; cbn.
  - by rewrite length_app.
  - rewrite take_ge by lia. by rewrite length_app.
Qed.

Lemma generateSeatLabels_result s :
  unshared (cells s) → Forall (allocated (heap s)) (cells s) →
  Forall (λ r, r ≠ RUndefined) (cells s) →
  ∃ h' idx names,
    generateSeatLabels s
    = (mk h' (cells s)
         (take (i s + 1) (history s) ++ [changeAttributesE idx Kname names names])
         (length (take (i s + 1) (history s)) + 1) (console s), Return) ∧
    length h' = length (heap s) ∧
    deref h' <$> cells s = label_seats 1 (view s) ∧
    Forall2 (λ k x, x ≠ AUndefined ∧
                    ∃ l, cells s !! k = Some (RObj l) ∧ name (h' !!! l) = x) idx names.
Proof.
  intros Hu Ha Hno.
  destruct (label_loop_spec (cells s) [] s eq_refl Hu Ha Hno) as (sc & Hsc & Hloop).
  destruct (Hloop 1 (mkSetNames [] [] [])) as (h' & idx & names & olds & Hl & Hh & _ & Hrest & Hw).
  exists h', idx, names. unfold generateSeatLabels. cbn [length] in Hsc. rewrite Hsc, Hl.
  cbn [fst snd setNames_index setNames_name app].
  assert (Forall (λ w, ∃ l, cells s !! w.1 = Some (RObj l) ∧ l < length h' ∧
                            get_attribute (h' !!! l) Kname = w.2) (zip idx names)) as Hz.
  { clear -Hw Ha Hh. induction Hw as [|k x idx names (_ & l & Hk & Hx) _ IH];
      constructor; [|done].
    exists l. split; [done|]. split; [|done]. rewrite Hh.
    rewrite Forall_forall in Ha. apply (Ha (RObj l)). by eapply list_elem_of_lookup_2. }
  unfold changeAttributes.
  rewrite changeAttributes_loop_unrolled; [|done|by apply Forall2_length in Hw|].
  2:{ rewrite drop_0. clear -Hw. induction Hw as [|k x idx names (_ & l & Hk & _) _ IH];
        constructor; [|done].
      unfold arr_get. cbn [cells set_heap]. by rewrite Hk. }
  rewrite drop_0. cbn [cells heap set_heap]. rewrite set_attrs_noop by done.
  rewrite addHistoryEntry_attrs_any. cbn [heap cells history i console set_heap].
  rewrite deepClone_attrs_id.
  2:{ clear -Hw. induction Hw as [|k x idx names (Hx & _) _ IH]; by constructor. }
  done.
Qed.


(** What [generateSeatLabels] did is not taken back by [undo].  On a
    grid as before, the undo that follows moves the cursor back by one
    and leaves every cell as it is, names as well: the names the seats had
    before are not in the log. *)
Theorem generateSeatLabels_not_undone s :
  unshared (cells s) → Forall (allocated (heap s)) (cells s) →
  Forall (λ r, r ≠ RUndefined) (cells s) →
  i (undo (generateSeatLabels s).1).1 + 1 = i (generateSeatLabels s).1 ∧
  view (undo (generateSeatLabels s).1).1 = view (generateSeatLabels s).1.
Proof.
  intros Hu Ha Hno.
  destruct (generateSeatLabels_result s Hu Ha Hno) as (h' & idx & names & -> & Hh & _ & Hw).
  cbn [fst]. set (H := take (i s + 1) (history s)).
  set (e := changeAttributesE idx Kname names names).
  unfold undo. cbn [history i].
  rewrite decide_False by (rewrite length_app; simpl; lia).
  rewrite decide_True by lia. cbn [set_i history i].
  replace (length H + 1 - 1) with (length H) by lia.
  rewrite list_lookup_middle by done. subst e. cbn [fst snd].
  unfold set_i. cbn [heap cells history i console].
  set (s1 := mk h' (cells s) (H ++ [changeAttributesE idx Kname names names]) (length H)
               (console s)).
  destruct (undo_changeAttributes_log idx Kname names 0 (length idx) s1) as (_ & Hi & Hc).
  split; [rewrite Hi; simpl; lia|].
  unfold view. rewrite Hc.
  rewrite (undo_changeAttributes_unrolled idx Kname names 0 (length idx) s1);
    [|done|by apply Forall2_length in Hw|].
  2:{ rewrite drop_0. clear -Hw. induction Hw as [|k x idx names (_ & l & Hk & _) _ IH];
        constructor; [|done].
      unfold arr_get. cbn [cells s1]. by rewrite Hk. }
  rewrite drop_0. cbn [cells heap s1]. rewrite set_attrs_noop; [done|].
  clear -Hw Ha Hh. induction Hw as [|k x idx names (_ & l & Hk & Hx) _ IH];
    constructor; [|done].
  exists l. split; [done|]. split; [|done]. rewrite Hh.
  rewrite Forall_forall in Ha. apply (Ha (RObj l)). by eapply list_elem_of_lookup_2.
Qed.


Lemma generateSeatLabels_not_undone_witness :
  let s := create [namedCell seat "x"; mkCell wall; mkCell seat]
             [RObj 0; RNull; RObj 1; RObj 2] in
  unshared (cells s) ∧
  view s = [VObj (namedCell seat "x"); VNull; VObj (mkCell wall); VObj (mkCell seat)] ∧
  view (undo (generateSeatLabels s).1).1
  = [VObj (namedCell seat "1"); VNull; VObj (mkCell wall); VObj (namedCell seat "2")].
Proof.
  intros s.
  assert (unshared (cells s)) as Hu.
  { intros j1 j2 l H1 H2.
    destruct j1 as [|[|[|[|j1]]]], j2 as [|[|[|[|j2]]]]; by simplify_eq/=. }
  assert (Forall (allocated (heap s)) (cells s)) as Ha.
  { repeat constructor; simpl; lia. }
  assert (Forall (λ r, r ≠ RUndefined) (cells s)) as Hno by (repeat constructor; done).
  destruct (generateSeatLabels_not_undone s Hu Ha Hno) as (_ & H2).
  split; [exact Hu|]. split; [reflexivity|]. exact (eq_trans H2 eq_refl).
Defined.

(** ** applyToMap *)

Lemma heap_set_snoc (h : list PureCell) c a x :
  heap_set (h ++ [c]) (length h) a x = h ++ [set_attribute c a x].
Proof.
  unfold heap_set. rewrite <- (Nat.add_0_r (length h)) at 1.
  by rewrite alter_app_r.
Qed.

Lemma lookup_total_snoc (h : list PureCell) c : (h ++ [c]) !!! length h = c.
Proof. by rewrite list_lookup_total_middle. Qed.

(** One round of the loop of [applyToMap], for a slot that is empty or
    holds a cell with a style: one object is made, which is the new cell,
    and for a cell that was there it is noted as the old cell as well. *)
Lemma applyToMap_round st index rest old new s :
  styled (deref (heap s) (arr_get (cells s) index)) = true →
  ∃ x, restyled st (deref (heap s) (arr_get (cells s) index)) = VObj x ∧
       applyToMap_loop st (index :: rest) old new s
       = applyToMap_loop st rest
           (old ++ [match arr_get (cells s) index with
                    | RNull => RNull
                    | _ => RObj (length (heap s))
                    end])
           (new ++ [RObj (length (heap s))])
           (set_heap s (heap s ++ [x])).
Proof.
  intros Hst. cbn [applyToMap_loop].
  destruct (arr_get (cells s) index) as [| |l]; [done| |]; cbn [deepClone_cell alloc].
  - eexists. split; [reflexivity|].
    rewrite lookup_total_snoc. cbn [styleOverride]. by rewrite heap_set_snoc.
  - simpl in Hst. rewrite heap_set_snoc, lookup_total_snoc.
    destruct (heap s !!! l) as [n t so] eqn:Hc. simpl in Hst.
    destruct so as [| | |o]; try done.
    eexists. split; [simpl; rewrite Hc; reflexivity|].
    cbn [set_attribute styleOverride name type]. by rewrite heap_set_snoc.
Qed.

Lemma applyToMap_loop_spec st idx : ∀ old new s,
  Forall (allocated (heap s)) (cells s) →
  Forall (λ k, styled (default VUndefined (view s !! k)) = true) idx →
  ∃ h' o n,
    applyToMap_loop st idx old new s = LoopDone (set_heap s h') (old ++ o) (new ++ n) ∧
    heap s `prefix_of` h' ∧
    Forall (λ r, r ≠ RUndefined ∧ allocated h' r) o ∧
    Forall (λ r, r ≠ RUndefined ∧ allocated h' r) n ∧
    deref h' <$> o = (λ k, noted_old st (default VUndefined (view s !! k))) <$> idx ∧
    deref h' <$> n = (λ k, restyled st (default VUndefined (view s !! k))) <$> idx.
Proof.
  induction idx as [|k idx IH]; intros old new s Ha Hst.
  { exists (heap s), [], []. simpl. rewrite !app_nil_r. split; [by destruct s|]. done. }
  apply Forall_cons in Hst as [Hk Hst].
  assert (default VUndefined (view s !! k) = deref (heap s) (arr_get (cells s) k)) as Hv.
  { unfold view, arr_get. rewrite list_lookup_fmap. by destruct (cells s !! k). }
  rewrite Hv in Hk.
  destruct (applyToMap_round st k idx old new s Hk) as (x & Hx & ->).
  set (s1 := set_heap s (heap s ++ [x])).
  assert (heap s `prefix_of` heap s1) as Hpre by (by eexists).
  assert (view s1 = view s) as Hview.
  { unfold view. cbn [s1 cells heap set_heap]. by apply deref_fmap_extends. }
  destruct (IH (old ++ [match arr_get (cells s) k with
                        | RNull => RNull
                        | _ => RObj (length (heap s))
                        end])
              (new ++ [RObj (length (heap s))]) s1)
    as (h' & o & n & Hl & Hp & Ho & Hn & Hoc & Hnc).
  { cbn [s1 cells heap set_heap]. eapply Forall_impl; [exact Ha|].
    intros r Hr. by apply (allocated_extends (heap s)). }
  { by rewrite Hview. }
  rewrite Hview in Hoc, Hnc.
  assert (length (heap s) < length h') as Hlt.
  { destruct Hp as [t ->]. cbn [s1 heap set_heap]. rewrite !length_app. simpl. lia. }
  assert (h' !!! length (heap s) = x) as Hx'.
  { destruct Hp as [t ->]. cbn [s1 heap set_heap].
    rewrite <- (assoc_L (++)). cbn [app]. by rewrite list_lookup_total_middle. }
  exists h', (match arr_get (cells s) k with
              | RNull => RNull
              | _ => RObj (length (heap s))
              end :: o), (RObj (length (heap s)) :: n).
  split; [by rewrite Hl, <- !(assoc_L (++))|].
  split; [by trans (heap s1)|].
  split; [constructor; [|done]; by destruct (arr_get (cells s) k)|].
  split; [constructor; [|done]; done|].
  rewrite !fmap_cons, Hoc, Hnc, Hv. split.
  - f_equal. destruct (arr_get (cells s) k) as [| |l] eqn:Hg; [done|done|].
    cbn [deref noted_old]. rewrite Hx'. by rewrite <- Hx.
  - f_equal. cbn [deref]. by rewrite Hx'.
Qed.

Lemma apply_slot_writes (f : nat → CellV) idx (v : list CellV) j :
  Forall (λ k, k < length v) idx →
  apply_writes ((λ k, (k, λ _ : CellV, f k)) <$> idx) v !! j
  = if decide (j ∈ idx) then Some (f j) else v !! j.
Proof.
  revert v. induction idx as [|k idx IH]; intros v Hin.
  { rewrite decide_False by apply not_elem_of_nil. done. }
  apply Forall_cons in Hin as [Hk Hin].
  rewrite fmap_cons, apply_writes_cons. cbn [fst snd]. rewrite IH.
  2:{ by rewrite length_alter. }
  destruct (decide (j ∈ idx)) as [Hj|Hj].
  - rewrite decide_True; [done|]. by right.
  - destruct (decide (j = k)) as [->|Hne].
    + rewrite decide_True by left. rewrite list_lookup_alter_eq.
      destruct (lookup_lt_is_Some_2 v k Hk) as [x ->]. done.
    + rewrite decide_False by (intros [?|?]%elem_of_cons; done).
      by rewrite list_lookup_alter_ne.
Qed.

Lemma cell_writes_slots h idx refs (f : nat → CellV) :
  deref h <$> refs = f <$> idx →
  cell_write h <$> zip idx refs = (λ k, (k, λ _ : CellV, f k)) <$> idx.
Proof.
  revert refs. induction idx as [|k idx IH]; intros [|r refs] Heq; try done.
  rewrite !fmap_cons in Heq. injection Heq as Hr Heq.
  cbn [zip zip_with fmap list_fmap]. fold (zip idx refs). f_equal.
  - unfold cell_write. cbn [fst snd]. by rewrite Hr.
  - by apply IH.
Qed.

(** What [applyToMap] leaves, for a selection of slots that are empty or
    hold a cell with a style. *)
Lemma applyToMap_result st idx s :
  selectedCells st = Some idx →
  Forall (allocated (heap s)) (cells s) →
  Forall (λ k, styled (default VUndefined (view s !! k)) = true) idx →
  ∃ h' g w b,
    applyToMap st s
    = Some (mk h' (set_slots (zip idx g) (cells s))
              (take (i s + 1) (history s) ++ [swappedCellsE idx w b])
              (length (take (i s + 1) (history s)) + 1) (console s), Return) ∧
    Forall (λ k, k < length (cells s)) idx ∧
    deref h' <$> cells s = view s ∧
    deref h' <$> g = (λ k, restyled st (default VUndefined (view s !! k))) <$> idx ∧
    deref h' <$> w = (λ k, noted_old st (default VUndefined (view s !! k))) <$> idx ∧
    deref h' <$> b = (λ k, restyled st (default VUndefined (view s !! k))) <$> idx.
Proof.
  intros Hsel Ha Hst.
  assert (Forall (λ k, k < length (cells s)) idx) as Hrange.
  { eapply Forall_impl; [exact Hst|]. intros k Hk. cbv beta in Hk.
    destruct (view s !! k) as [v|] eqn:Hv; [|done].
    apply lookup_lt_Some in Hv. by rewrite view_length in Hv. }
  destruct (applyToMap_loop_spec st idx [] [] s Ha Hst)
    as (h1 & o & n & Hl & Hp1 & Ho & Hn & Hoc & Hnc).
  unfold applyToMap. rewrite Hsel, Hl. cbn [app].
  assert (length n = length idx) as Hnl.
  { apply (f_equal length) in Hnc. by rewrite !length_fmap in Hnc. }
  unfold swapCells. rewrite swapCells_loop_unrolled; [|done|done| |].
  2:{ rewrite drop_0. eapply Forall_impl; [exact Hn|]. by intros r [? _]. }
  2:{ by rewrite drop_0. }
  rewrite !drop_0. cbn [heap cells set_heap].
  destruct (deepClone_cells_spec h1 n) as (h2 & g & Hc2 & Hm2 & Hal2 & _ & Hg).
  { eapply Forall_impl; [exact Hn|]. by intros r [_ ?]. }
  rewrite Hc2. cbn [fst snd].
  rewrite addHistoryEntry_swaps_eq. cbn [heap cells history i console set_heap set_cells].
  destruct (deepClone_cells_spec h2 o) as (h3 & w & Hc3 & Hm3 & Hal3 & _ & Hw).
  { eapply Forall_impl; [exact Ho|]. intros r [_ Hr]. eapply allocated_extends; [|done].
    apply Hm2. }
  rewrite Hc3. cbn [fst snd].
  destruct (deepClone_cells_spec h3 n) as (h4 & b & Hc4 & Hm4 & Hal4 & _ & Hb).
  { eapply Forall_impl; [exact Hn|]. intros r [_ Hr].
    eapply allocated_extends; [apply Hm3|]. eapply allocated_extends; [apply Hm2|]. done. }
  rewrite Hc4. cbn [fst snd].
  assert (h1 `prefix_of` h2) as Hp2 by apply Hm2.
  assert (h2 `prefix_of` h3) as Hp3 by apply Hm3.
  assert (h3 `prefix_of` h4) as Hp4 by apply Hm4.
  assert (Forall (λ r, r ≠ RUndefined) o) as Hou.
  { eapply Forall_impl; [exact Ho|]. by intros r [? _]. }
  assert (Forall (λ r, r ≠ RUndefined) n) as Hnu.
  { eapply Forall_impl; [exact Hn|]. by intros r [? _]. }
  assert (Forall (allocated h1) o) as Hoa.
  { eapply Forall_impl; [exact Ho|]. by intros r [_ ?]. }
  assert (Forall (allocated h1) n) as Hna.
  { eapply Forall_impl; [exact Hn|]. by intros r [_ ?]. }
  exists h4, g, w, b. split; [done|]. split; [done|].
  split; [|split; [|split]].
  - unfold view. apply deref_fmap_extends; [|done].
    trans h1; [done|]. trans h2; [done|]. by trans h3.
  - rewrite (deref_fmap_extends h2 h4) by (done || by trans h3).
    by rewrite Hg, Hnc.
  - rewrite (deref_fmap_extends h3 h4) by done. rewrite Hw by done.
    rewrite (deref_fmap_extends h1 h2) by done. done.
  - rewrite Hb by done.
    rewrite (deref_fmap_extends h1 h3) by (done || by trans h2). done.
Qed.

Lemma applyToMap_views st idx s :
  selectedCells st = Some idx →
  Forall (allocated (heap s)) (cells s) →
  Forall (λ k, styled (default VUndefined (view s !! k)) = true) idx →
  ∃ s' w b,
    applyToMap st s = Some (s', Return) ∧
    history s' = take (i s + 1) (history s) ++ [swappedCellsE idx w b] ∧
    deref (heap s') <$> w
    = (λ k, noted_old st (default VUndefined (view s !! k))) <$> idx ∧
    deref (heap s') <$> b
    = (λ k, restyled st (default VUndefined (view s !! k))) <$> idx ∧
    (∀ j, view s' !! j
          = if decide (j ∈ idx)
            then Some (restyled st (default VUndefined (view s !! j)))
            else view s !! j) ∧
    (∀ j, view (undo s').1 !! j
          = if decide (j ∈ idx)
            then Some (noted_old st (default VUndefined (view s !! j)))
            else view s !! j).
Proof.
  intros Hsel Ha Hst.
  destruct (applyToMap_result st idx s Hsel Ha Hst)
    as (h' & g & w & b & Heq & Hrange & Hcells & Hg & Hw & Hb).
  eexists _, w, b. split; [exact Heq|]. cbn [history heap].
  split; [done|]. split; [done|]. split; [done|].
  assert (∀ j, deref h' <$> set_slots (zip idx g) (cells s) !! j
               = if decide (j ∈ idx)
                 then Some (restyled st (default VUndefined (view s !! j)))
                 else view s !! j) as Hview.
  { intros j. rewrite <- list_lookup_fmap, set_slots_view, Hcells.
    rewrite (cell_writes_slots h' idx g _ Hg).
    apply (apply_slot_writes (λ k, restyled st (default VUndefined (view s !! k)))).
    by rewrite view_length. }
  split.
  - intros j. unfold view. cbn [heap cells]. rewrite list_lookup_fmap. apply Hview.
  - intros j. set (H := take (i s + 1) (history s)).
    unfold undo. cbn [history i].
    rewrite decide_False by (rewrite length_app; simpl; lia).
    rewrite decide_True by lia. unfold set_i. cbn [heap cells history i console].
    replace (length H + 1 - 1) with (length H) by lia.
    rewrite list_lookup_middle by done. cbn [fst].
    unfold view, set_cells. cbn [heap cells].
    assert (length w = length idx) as Hwl.
    { apply (f_equal length) in Hw. by rewrite !length_fmap in Hw. }
    rewrite write_cells_unrolled; [|done|done|].
    2:{ rewrite drop_0. eapply Forall_impl; [exact Hrange|]. intros k Hk.
        by rewrite set_slots_length. }
    rewrite drop_0, set_slots_view, (cell_writes_slots h' idx w _ Hw).
    rewrite (apply_slot_writes (λ k, noted_old st (default VUndefined (view s !! k)))).
    2:{ rewrite length_fmap, set_slots_length. done. }
    destruct (decide (j ∈ idx)) as [Hj|Hj]; [done|].
    rewrite list_lookup_fmap, Hview. by rewrite decide_False.
Qed.

(** [applyToMap] gives every selected slot its new cell: a new cell of
    the selected type with the changes as its style where the slot was
    empty, the cell with the selected type and the changes spread over
    its style where there was one; the other slots stay as they are.
    The selection is of slots that are empty or hold a cell with a style
    object.  The entry it logs has the new cell on both sides for a cell
    that was there, and [null] as the old side only for an empty slot:
    the cell as it was is not kept. *)
Theorem applyToMap_effect st idx s :
  selectedCells st = Some idx →
  Forall (allocated (heap s)) (cells s) →
  Forall (λ k, styled (default VUndefined (view s !! k)) = true) idx →
  ∃ s' w b,
    applyToMap st s = Some (s', Return) ∧
    (∀ j, view s' !! j
          = if decide (j ∈ idx)
            then Some (restyled st (default VUndefined (view s !! j)))
            else view s !! j) ∧
    history s' = take (i s + 1) (history s) ++ [swappedCellsE idx w b] ∧
    deref (heap s') <$> w
    = (λ k, noted_old st (default VUndefined (view s !! k))) <$> idx ∧
    deref (heap s') <$> b
    = (λ k, restyled st (default VUndefined (view s !! k))) <$> idx.
Proof.
  intros Hsel Ha Hst.
  destruct (applyToMap_views st idx s Hsel Ha Hst) as (s' & w & b & H1 & H2 & H3 & H4 & H5 & _).
  by exists s', w, b.
Qed.

(** [undo] after [applyToMap] does not bring the cells back.  For a
    selection as before, the undo empties the slots that were empty, and
    leaves every slot that held a cell with the changed cell; the slots
    outside the selection are as they were. *)
Theorem applyToMap_not_undone st idx s :
  selectedCells st = Some idx →
  Forall (allocated (heap s)) (cells s) →
  Forall (λ k, styled (default VUndefined (view s !! k)) = true) idx →
  ∃ s', applyToMap st s = Some (s', Return) ∧
        ∀ j, view (undo s').1 !! j
             = if decide (j ∈ idx ∧ view s !! j = Some VNull)
               then Some VNull
               else view s' !! j.
Proof.
  intros Hsel Ha Hst.
  destruct (applyToMap_views st idx s Hsel Ha Hst) as (s' & w & b & H1 & _ & _ & _ & H5 & H6).
  exists s'. split; [done|]. intros j. rewrite H6, H5.
  destruct (decide (j ∈ idx)) as [Hj|Hj].
  - destruct (view s !! j) as [[| |c]|] eqn:Hv; simpl.
    + by rewrite decide_False by (intros [_ ?]; done).
    + by rewrite decide_True.
    + by rewrite decide_False by (intros [_ ?]; done).
    + by rewrite decide_False by (intros [_ ?]; done).
  - by rewrite decide_False by (intros [? _]; done).
Qed.

Lemma applyToMap_effect_witness :
  let s := create [red_seat] [RObj 0; RNull; RNull] in
  selectedCells walls_with_border = Some [0; 1] ∧
  Forall (λ k, styled (default VUndefined (view s !! k)) = true) [0; 1] ∧
  ∃ s', applyToMap walls_with_border s = Some (s', Return) ∧
        view s' !! 0 = Some (restyled walls_with_border (VObj red_seat)) ∧
        view s' !! 1 = Some (restyled walls_with_border VNull) ∧
        view s' !! 2 = Some VNull.
Proof.
  intros s.
  assert (Forall (allocated (heap s)) (cells s)) as Ha.
  { repeat constructor; simpl; lia. }
  assert (Forall (λ k, styled (default VUndefined (view s !! k)) = true) [0; 1]) as Hst.
  { by repeat constructor. }
  split; [reflexivity|]. split; [exact Hst|].
  destruct (applyToMap_effect walls_with_border [0; 1] s eq_refl Ha Hst)
    as (s' & w & b & H1 & H2 & _).
  exists s'. split; [exact H1|]. split; [|split].
  - exact (eq_trans (H2 0) eq_refl).
  - exact (eq_trans (H2 1) eq_refl).
  - exact (eq_trans (H2 2) eq_refl).
Defined.

Lemma applyToMap_not_undone_witness :
  let s := create [red_seat] [RObj 0; RNull; RNull] in
  selectedCells walls_with_border = Some [0; 1] ∧
  Forall (λ k, styled (default VUndefined (view s !! k)) = true) [0; 1] ∧
  view s !! 0 = Some (VObj red_seat) ∧
  ∃ s', applyToMap walls_with_border s = Some (s', Return) ∧
        view s' !! 0 = Some (restyled walls_with_border (VObj red_seat)) ∧
        view (undo s').1 !! 0 = view s' !! 0 ∧
        view (undo s').1 !! 1 = Some VNull.
Proof.
  intros s.
  assert (Forall (allocated (heap s)) (cells s)) as Ha.
  { repeat constructor; simpl; lia. }
  assert (Forall (λ k, styled (default VUndefined (view s !! k)) = true) [0; 1]) as Hst.
  { by repeat constructor. }
  split; [reflexivity|]. split; [exact Hst|]. split; [reflexivity|].
  destruct (applyToMap_not_undone walls_with_border [0; 1] s eq_refl Ha Hst) as (s' & H1 & H2).
  exists s'. split; [exact H1|]. split; [|split].
  - injection H1 as <-. reflexivity.
  - exact (eq_trans (H2 0) eq_refl).
  - exact (eq_trans (H2 1) eq_refl).
Defined.

(** ** isPropertyCommonToAllCells *)

Lemma isPropertyCommon_loop_ignores p v p' v' st h cells idx :
  isPropertyCommon_loop p v st h cells idx = isPropertyCommon_loop p' v' st h cells idx.
Proof.
  induction idx as [|k idx IH]; [done|]. cbn [isPropertyCommon_loop]. rewrite IH.
  destruct (arr_get cells k) as [| |l]; try done.
  destruct (styleOverride (h !!! l)) as [| |x|o]; try done.
  - destruct st; try done. repeat case_bool_decide; done.
  - destruct st.
    + destruct (hoverOverride o); [|done]. repeat case_bool_decide; done.
    + destruct (selectedOverride o); [|done]. repeat case_bool_decide; done.
    + repeat case_bool_decide; done.
Qed.

(** [isPropertyCommonToAllCells] does not compare.  Its answer is the
    same for every property and every value; when no selected cell has
    [null] for its style, the answer is that every selected slot holds a
    cell with the style object of the state asked for. *)
Theorem isPropertyCommon_answer idx p v st h cells :
  (∀ p' v', isPropertyCommonToAllCells (Some idx) p v st h cells
            = isPropertyCommonToAllCells (Some idx) p' v' st h cells) ∧
  (Forall (λ k, null_style (deref h (arr_get cells k)) = false) idx →
   isPropertyCommonToAllCells (Some idx) p v st h cells
   = Some (forallb (λ k, has_override st (deref h (arr_get cells k))) idx)).
Proof.
  split; [intros p' v'; apply isPropertyCommon_loop_ignores|].
  unfold isPropertyCommonToAllCells.
  induction 1 as [|k idx Hk _ IH]; [done|].
  cbn [isPropertyCommon_loop forallb]. rewrite IH.
  destruct (arr_get cells k) as [| |l]; try done. cbn [deref has_override null_style] in *.
  destruct (styleOverride (h !!! l)) as [| |x|o]; try done.
  - destruct st; try done. repeat case_bool_decide; done.
  - destruct st.
    + destruct (hoverOverride o); [|done]. repeat case_bool_decide; done.
    + destruct (selectedOverride o); [|done]. repeat case_bool_decide; done.
    + repeat case_bool_decide; done.
Qed.

Lemma isPropertyCommon_answer_witness :
  let h := [red_seat;
            {| name := AUndefined; type := AString "seat";
               styleOverride := AStyle thick_border |}] in
  let cells := [RObj 0; RObj 1] in
  Forall (λ k, null_style (deref h (arr_get cells k)) = false) [0; 1] ∧
  isPropertyCommonToAllCells (Some [0; 1]) KbackgroundColor (SVstring "red") state_default
    h cells = Some true ∧
  isPropertyCommonToAllCells (Some [0; 1]) KbackgroundColor (SVstring "blue") state_default
    h cells = Some true.
Proof.
  intros h cells.
  assert (Forall (λ k, null_style (deref h (arr_get cells k)) = false) [0; 1]) as Hn.
  { by repeat constructor. }
  split; [exact Hn|]. split.
  - exact (eq_trans (proj2 (isPropertyCommon_answer [0; 1] KbackgroundColor (SVstring "red")
                              state_default h cells) Hn) eq_refl).
  - exact (eq_trans (proj2 (isPropertyCommon_answer [0; 1] KbackgroundColor (SVstring "blue")
                              state_default h cells) Hn) eq_refl).
Defined.

(** ** Scrolling *)

(** The wheel does not scroll past the content.  When the last frame is
    higher than the canvas, the offset after a wheel event is between
    the height of the canvas less the height of the frame and 0, wherever
    it was before, and an event whose move stays in that range moves the
    offset by exactly its distance.  When the frame fits the canvas the
    wheel does nothing. *)
Theorem wheel_stays_on_content deltaY height scroll :
  ((lastFrameHeight scroll > height)%Z →
   lastFrameHeight (onwheel deltaY height scroll) = lastFrameHeight scroll ∧
   (height - lastFrameHeight scroll <= offset (onwheel deltaY height scroll) <= 0)%Z ∧
   ((height - lastFrameHeight scroll <= offset scroll - deltaY <= 0)%Z →
    offset (onwheel deltaY height scroll) = (offset scroll - deltaY)%Z)) ∧
  ((lastFrameHeight scroll <= height)%Z → onwheel deltaY height scroll = scroll).
Proof.
  unfold onwheel. split; intros Hh.
  - destruct (Z.gtb_spec (lastFrameHeight scroll) height) as [_|?]; [|lia].
    cbn [offset lastFrameHeight]. split; [done|]. lia.
  - destruct (Z.gtb_spec (lastFrameHeight scroll) height) as [?|_]; [lia|]. done.
Qed.

Lemma wheel_stays_on_content_witness :
  let scroll := mkScroll (-150) 500 in
  (lastFrameHeight scroll > 300)%Z ∧
  (300 - lastFrameHeight scroll <= offset (onwheel 120 300 scroll) <= 0)%Z ∧
  (300 - lastFrameHeight scroll <= offset scroll - (-40) <= 0)%Z ∧
  offset (onwheel (-40) 300 scroll) = (offset scroll - (-40))%Z ∧
  (lastFrameHeight scroll <= 600)%Z ∧
  onwheel 120 600 scroll = scroll.
Proof.
  intros scroll.
  assert (lastFrameHeight scroll > 300)%Z as Hh by (simpl; lia).
  assert (300 - lastFrameHeight scroll <= offset scroll - (-40) <= 0)%Z as Hin
    by (simpl; lia).
  assert (lastFrameHeight scroll <= 600)%Z as Hle by (simpl; lia).
  split; [exact Hh|].
  split; [exact (proj1 (proj2 (proj1 (wheel_stays_on_content 120 300 scroll) Hh)))|].
  split; [exact Hin|].
  split; [exact (proj2 (proj2 (proj1 (wheel_stays_on_content (-40) 300 scroll) Hh)) Hin)|].
  split; [exact Hle|].
  exact (proj2 (wheel_stays_on_content 120 600 scroll) Hle).
Defined.

End ActionLaws.
